(* ===== verification/_CoqProject ===== *)
-Q . S2P
Prelude.v
GoValues.v
GoErrors.v
GoChan.v
Codec.v
Conn.v
JsonText.v
JsonStream.v
Registry.v
WebChanState.v
Outbound.v
Inbound.v
Wire.v
Lifecycle.v
Typing.v
Refinement.v
Reader.v
Pair.v
EndToEnd.v
TestWebChan.v
