(* ===== verification/Prelude.v ===== *)
(** * webchan: a verification development of JoshPattman/webchan

    The program ([src/webchan.go]; its second part, lines 180-197, holds
    the error types) wraps a [net.Conn] into a typed message channel.
    [NewNamedWebChan] (lines 59-137) builds a [WebChan] record (lines
    20-40) holding three Go channels ([Send], [Recv], [Error]), a close
    signal ([closeRecvChan]), the socket, the registry [allowedTypes :
    map[string]reflect.Type] and a JSON encoder/decoder on the socket,
    and starts two goroutines:
    - the send routine (lines 76-96) takes values from [Send], looks up
      their registered name with [getAllowedTypeName] (lines 155-163),
      panics on an unregistered type, and writes the frame "name, value"
      as two JSON values; a write error goes to [tryPushError]
      (lines 173-179), which drops it when [Error] (capacity 100) is full;
    - the recv routine (lines 98-135) checks [closeRecvChan], decodes a
      type name, resolves it with [createTypeInterfaceReflectPointer]
      (lines 165-171), decodes the payload into a fresh zero value and
      pushes it to [Recv]; [io.EOF] and [net.ErrClosed] end the loop and
      close [Recv], every other error is pushed to [Error].
    [Close] (lines 141-153) closes [closeRecvChan], [Send] and the
    socket, guarded by a non-blocking receive on [closeRecvChan].
    [NewWebChan] (lines 46-52) names each prototype by its [%T] string.

    ** Files, in dependency order
    - [Prelude]: this header, the [webchan_scope] notation [let?] (a
      bind on [sum] results), the [webchan] and [webchan_rw] hint
      databases, the [simpl_opt] tactic and generic list lemmas.
    - [GoValues]: the dynamic values a caller can put on [Send]: scalars
      and structs with their [reflect.Type] ([type_of]), zero values
      ([zero_val], for [reflect.New]), the 64-bit [int] range and the
      [%T] name ([type_string]).
    - [GoErrors]: Go error values ([io.EOF], [net.ErrClosed],
      [io.ErrClosedPipe], [*net.OpError], JSON errors, [fmt.Errorf])
      with [sendError] and [recvError] (lines 184-190); [errors_Is]
      follows the [Unwrap] chain; [error_string] is the [Error] methods
      (lines 192-198); [is_closed_class] is the test of lines 110 and 124.
    - [GoChan]: a Go channel as a buffer, a capacity and a closed flag;
      [chan_send], [chan_recv] and [chan_close] return whether the
      operation completes, blocks or panics.
    - [Codec]: the [Codec] type class, what the program needs from
      [encoding/json] (marshal, decode into a zero value, the round-trip
      law), and its instance [json_codec] on a JSON value type.
    - [Conn]: the socket, a [*net.TCPConn] or one end of [net.Pipe()]
      ([ConnKind]), as its written values, scripted write faults, pending
      input and the closed flags of both ends, with the errors each kind
      gives after a close; [encode] is [Encoder.Encode], [decode] is
      [Decoder.Decode] with its sticky error.
    - [JsonText]: the bytes of [encoding/json] (Go 1.22): [encode_json]
      is [Marshal] ([appendString]'s escapes, [�] for a byte that
      is not UTF-8, integers by [strconv]), [encode_frame] is
      [Encoder.Encode] (the text and a newline); the scanner
      ([scan_str], [scan_num], [scan_lit], the nesting limit of 10000,
      its error messages), [unquote] ([unquoteBytes], surrogate pairs),
      and [decode_next], [Decoder.Decode] on the unread bytes: a number
      at the end of the buffer needs the byte after it, and at the end
      of the stream white space alone is [io.EOF] and anything else
      [io.ErrUnexpectedEOF]; [decode_items] is the list of values and
      the error successive [Decode]s return.
    - [JsonStream]: the byte layer's lemmas: what [Marshal] writes parses
      back; a settled result is unchanged by more bytes and by more fuel;
      a stream of frames decodes to its values, and the items decoded
      from a prefix of the bytes are a prefix of those of the whole
      ([decode_items_incremental], which justifies [Conn]'s list of
      pending items); frames cut by the end of the stream.
    - [Registry]: [newWebChan_types] and [named_types] (the two
      constructors' maps), [getAllowedTypeName] as a scan of an
      [iteration_order] (any permutation of the map, since Go randomises
      it), and [createTypeInterfaceReflectPointer].
    - [WebChanState]: the [WebChan] record, [NewNamedWebChan] and
      [NewWebChan] without the [go] statements, and [tryPushError].
    - [Outbound]: the send routine: a program counter [OutPC] per
      suspension point, [send_step] for one atomic step, [send_run] for
      a run with fuel.
    - [Inbound]: the recv routine: [InPC], [recv_step], [recv_run].
    - [Wire]: the recv routine with its socket's pending items decoded
      from the bytes the peer wrote ([decode_items]), complete or cut
      short by the peer's close.
    - [Lifecycle]: [Close] as a thread of four atomic steps
      ([close_step]) and as the atomic [Close_spec] it computes alone, and
      the whole program as a labelled step relation on a [World] (the
      state, both routines' counters, any number of [Close] calls):
      [local_step] for the program's threads and the caller's channel
      operations, [sys_step] adding the peer's writes ([EPeer] events)
      and its close, with executions as [trace].
    - [Typing]: the invariant [TInv] of every execution: the values on
      [Recv] have registered types, the errors on [Error] are the
      program's two error types.
    - [Refinement]: the abstract specification [pipe_step] (a FIFO pipe
      that loses values only once closed), the wire relation [wire_of],
      and the simulation [out_rel] of the concurrent system by the pipe.
    - [Reader]: the inbound direction as a reader of frames: the
      invariant [RInv] relating what the decoder consumed to the recv
      routine's counter, on every interleaving.
    - [Pair]: two processes joined by a pipe ([pair_step]: either end's
      [local_step], the pipe handing the next written item to the other
      end, the propagation of a close), the projections of its executions
      to each end's [trace], and the end-to-end theorem; [pair_run]
      executes a schedule (which thread or pipe moves at each step) and
      [pair_run_sound] makes each run an execution of the pair.
    - [EndToEnd]: two endpoints joined by a stream, run one after the
      other, and the scenarios of the specification evaluated with
      [json_codec].
    - [TestWebChan]: the repository's test ([src/unnamed/part_000]; the
      README's example is its body) on two [net.Pipe] ends, on one
      schedule, with its [select], type switch and deferred [Close]s, and
      the README's example on every schedule of the [Pair] of its two
      endpoints ([example_select]).

    ** What the theorems show (claims C1-C40)
    - End to end, order and refinement (C1-C8): on every schedule of two
      endpoints joined by a pipe, what one caller receives is a
      subsequence of what the other sent, in order, a prefix of it while
      the sender can write, with no receive error while the receiver is
      open; run one after the other, values queued on one endpoint arrive
      equal and in order on the other; in every interleaving [Send] and
      [Recv] are FIFO; every execution is an execution of the lossy FIFO
      pipe; the recv routine implements a reader of the frames it is fed;
      the wire carries the frames of a subsequence of the sent values (a
      prefix while the socket can be written), which the peer decodes
      back; each routine alone writes or pushes exactly its frames.
    - Invariants (C9, C10, C23): every reachable state keeps the queues
      within capacity, [Error] open and the close steps in order; every
      received value has a registered type and every received error is a
      [*sendError] or [*recvError]; no value enters [Send] after it is
      closed.
    - [Close] and the test (C11-C15, C22): a sequential second call does
      nothing; the four steps compute [Close_spec]; two concurrent calls
      can panic; the repository's test passes on the modelled schedule,
      and on every schedule of the pair, up to its deferred [Close]s,
      every case of its [select] that can proceed receives "Hello" from
      [wcb.Recv], so the test passes; its teardown leaves an
      [io.ErrClosedPipe] report on both [Error] channels.
    - Errors and termination (C16-C21, C24-C27): the panic on an
      unregistered type, the report of an unknown name and the
      desynchronisation it causes, exit on closed-class errors and after
      [Close], the spurious report of [io.ErrClosedPipe] on a pipe, the
      lossy error queue, the spin on a sticky decoder error, half frames,
      and the drain of [Send] after [Close].
    - Registry (C28-C34): [getAllowedTypeName] is sound and, with an
      injective registry (always the case for [NewWebChan]), complete
      and independent of the iteration order; [NewWebChan]'s loop is
      [list_to_map] of the reversed (name, prototype) pairs; with a type
      under two names the name sent depends on the order.
    - Error types (C35-C36): the wrappers hide their cause from
      [errors.Is], and their messages are distinct.
    - Bytes on the wire (C37-C40): the recv routine decoding the bytes
      of a stream of frames pushes their values in order; when the peer
      closes in the middle of a payload it reports
      [io.ErrUnexpectedEOF] and keeps the error instead of returning;
      when it closes after the first digits of an [int] payload the
      routine delivers the shorter number and returns with no error; a
      string byte that is not UTF-8 arrives as U+FFFD.

    ** Bounds and fuel
    Runs take fuel, and each theorem about a run states the fuel that is
    enough and proves the run reaches the stated state within it: three
    steps per frame for the send routine (receive, two writes) plus one
    to block or return, four per frame for the recv routine (check, two
    decodes, push) plus two, two per buffered value when draining after
    [Close], three for the recv routine to report and return after a
    [Close] on a pipe, four for [Close].  The test's schedule uses these
    counts for its two frames.  The theorems on every schedule need no
    fuel: they are proved by induction on the execution; their witnesses
    are executions given as schedules, checked by evaluating [pair_run].
    The error queue capacity is the literal 100 of line 67; [int] is
    64-bit.  The JSON parser [parse_value] takes fuel too: [decode_next]
    gives it one more than twice the length of the buffer, which is
    never exhausted ([parse_total]: each unit of fuel consumes a byte or
    closes a value), so the fuel never decides a result.

    ** Not modelled
    In the concurrent model the wire is a list of JSON values; their
    bytes are modelled in [JsonText] and connected to the recv routine
    in [Wire], not in [Lifecycle] and [Pair].  Case-insensitive field
    matching and the conversion of floats in [encoding/json] (a number
    with a fraction or exponent is kept as its literal, [JFloat]; the
    program registers no float type), the JSON text of strings that are
    not ASCII in the round-trip lemmas (valid UTF-8 is copied, which
    they do not cover), the decoder's read-ahead buffer, pointer, slice and
    map types, the formatting of [fmt] beyond the messages the code and
    the test build, timeouts, and the Go scheduler beyond arbitrary
    interleaving of atomic steps.  A [net.Pipe] write is modelled as
    completing at once and its item as handed to the reader by a later
    step of the pipe, so a write interrupted by a [Close] is not
    modelled; the pipe's model allows more schedules than [net.Pipe],
    which only strengthens the theorems on every schedule. *)

From stdpp Require Export base list option strings gmap.
From Stdlib Require Export ZArith.

Declare Scope webchan_scope.
Delimit Scope webchan_scope with wc.
Open Scope webchan_scope.

(** Fallible Go calls return [(T, error)]; here [GoErr + T] values. *)
Notation "'let?' x := e 'in' k" :=
  (match e with inl err => inl err | inr x => k end)
  (at level 10, x name, e at level 100, k at level 200) : webchan_scope.

Create HintDb webchan discriminated.
Create Rewrite HintDb webchan_rw.

(** Injections and discriminations of [option] and [sum] equations. *)
Ltac simpl_opt :=
  repeat match goal with
  | H : Some _ = Some _ |- _ => injection H as H
  | H : inl _ = inl _ |- _ => injection H as H
  | H : inr _ = inr _ |- _ => injection H as H
  | H : Some _ = None |- _ => discriminate H
  | H : None = Some _ |- _ => discriminate H
  | H : inl _ = inr _ |- _ => discriminate H
  | H : inr _ = inl _ |- _ => discriminate H
  end; subst.

(** Generic list lemmas shared by the components. *)
Lemma length_snoc {A} (l : list A) (x : A) : length (l ++ [x]) = S (length l).
Proof. rewrite length_app; simpl; lia. Qed.

#[export] Hint Rewrite @length_snoc : webchan_rw.

Lemma take_take_app {A} n (l k : list A) : take n (take n l ++ k) = take n (l ++ k).
Proof.
  destruct (decide (length l <= n)) as [Hle|Hgt]; [by rewrite (take_ge l n Hle)|].
  rewrite take_app_le by (rewrite length_take; lia).
  rewrite take_take, Nat.min_id. by rewrite take_app_le by lia.
Qed.

Lemma Forall_sublist_of {A} (P : A -> Prop) l1 l2 : l1 `sublist_of` l2 -> Forall P l2 -> Forall P l1.
Proof. rewrite !Forall_forall. intros Hs H x Hx. apply H. by eapply elem_of_sublist. Qed.

Lemma prefix_sublist_of {A} (l1 l2 : list A) : l1 `prefix_of` l2 -> l1 `sublist_of` l2.
Proof. intros [k ->]. by apply sublist_inserts_r. Qed.

Lemma prefix_fmap {A B} (f : A -> B) l1 l2 : l1 `prefix_of` l2 -> f <$> l1 `prefix_of` f <$> l2.
Proof. intros [k ->]. rewrite fmap_app. by eexists. Qed.

(** Of two prefixes of a list, the shorter is a prefix of the longer. *)
Lemma prefix_shorter {A} (l1 l2 l : list A) :
  l1 `prefix_of` l -> l2 `prefix_of` l -> length l1 <= length l2 -> l1 `prefix_of` l2.
Proof.
  intros H1 H2 Hlen. destruct (prefix_weak_total _ _ _ H1 H2) as [|H]; [done|].
  by rewrite (prefix_length_eq _ _ H Hlen).
Qed.
