(* ===== verification/GoValues.v ===== *)
(** Go dynamic values as they travel through [WebChan.Send] and
    [WebChan.Recv] ([interface{}]): scalars ([string], [int], [bool]) and
    named struct types whose fields are scalars, with their dynamic type
    ([reflect.TypeOf]), the zero value ([reflect.New(t).Elem()]), the
    64-bit range of [int], and the name printed by [%T]. *)
From S2P Require Import Prelude.

Inductive kind := KString | KInt | KBool.

Inductive scalar :=
  | SString (s : string)
  | SInt (z : Z)
  | SBool (b : bool).

(** [reflect.Type]: a scalar kind, or a named struct [pkg.Name] with its
    fields in declaration order. *)
Inductive GoType :=
  | TScalar (k : kind)
  | TStruct (pkg name : string) (fields : list (string * kind)).

Inductive Val :=
  | VScalar (s : scalar)
  | VStruct (pkg name : string) (fields : list (string * scalar)).

#[export] Instance kind_eq_dec : EqDecision kind.
Proof. solve_decision. Defined.
#[export] Instance scalar_eq_dec : EqDecision scalar.
Proof. solve_decision. Defined.
#[export] Instance GoType_eq_dec : EqDecision GoType.
Proof. solve_decision. Defined.
#[export] Instance Val_eq_dec : EqDecision Val.
Proof. solve_decision. Defined.

Definition kind_of (s : scalar) : kind :=
  match s with SString _ => KString | SInt _ => KInt | SBool _ => KBool end.

(** [reflect.TypeOf(v)]. *)
Definition type_of (v : Val) : GoType :=
  match v with
  | VScalar s => TScalar (kind_of s)
  | VStruct p n fs => TStruct p n (map (fun '(f, s) => (f, kind_of s)) fs)
  end.

Definition zero_scalar (k : kind) : scalar :=
  match k with KString => SString "" | KInt => SInt 0%Z | KBool => SBool false end.

(** [reflect.New(t).Elem()]: the zero value of [t]. *)
Definition zero_val (t : GoType) : Val :=
  match t with
  | TScalar k => VScalar (zero_scalar k)
  | TStruct p n fs => VStruct p n (map (fun '(f, k) => (f, zero_scalar k)) fs)
  end.

(** Go's [int] on a 64-bit platform. *)
Definition int_min : Z := (- 2 ^ 63)%Z.
Definition int_max : Z := (2 ^ 63 - 1)%Z.
Definition int_in_range (z : Z) : bool := ((int_min <=? z) && (z <=? int_max))%Z.

Definition scalar_wf (s : scalar) : bool :=
  match s with SInt z => int_in_range z | _ => true end.

(** A value a Go program can hold: ints in range, distinct field names. *)
Definition wf_val (v : Val) : Prop :=
  match v with
  | VScalar s => scalar_wf s = true
  | VStruct _ _ fs => Forall (fun '(_, s) => scalar_wf s = true) fs /\ NoDup fs.*1
  end.

#[export] Instance wf_val_dec v : Decision (wf_val v).
Proof. destruct v; simpl; [apply _|]. apply and_dec; [|apply _]. apply Forall_dec. intros []; apply _. Defined.

(** [fmt.Sprintf("%T", v)]. *)
Definition kind_name (k : kind) : string :=
  match k with KString => "string" | KInt => "int" | KBool => "bool" end.

Definition type_string (t : GoType) : string :=
  match t with
  | TScalar k => kind_name k
  | TStruct p n _ => (p +:+ "." +:+ n)%string
  end.

(** ** Lemmas *)

Lemma type_of_zero_val t : type_of (zero_val t) = t.
Proof.
  destruct t as [k|p n fs]; [by destruct k|]. simpl. f_equal.
  induction fs as [|[f k] fs IH]; [done|]. simpl. rewrite IH. by destruct k.
Qed.

Lemma zero_val_wf t : NoDup (match t with TStruct _ _ fs => fs.*1 | _ => [] end) ->
  wf_val (zero_val t).
Proof.
  destruct t as [k|p n fs]; simpl; [by destruct k|]. intros Hnd.
  induction fs as [|[f k] fs IH]; simpl in *; [split; constructor|].
  apply NoDup_cons in Hnd as [Hf Hnd]. destruct (IH Hnd) as [IH1 IH2].
  split; [constructor; [by destruct k|done]|].
  constructor; [|done]. clear - Hf. induction fs as [|[g k'] fs IH]; simpl in *; [set_solver|].
  rewrite elem_of_cons in Hf |- *. intros [->|?]; [apply Hf; by left|]. apply IH; [|done].
  intro; apply Hf; by right.
Qed.

Lemma scalar_wf_zero k : scalar_wf (zero_scalar k) = true.
Proof. by destruct k. Qed.

#[export] Hint Resolve type_of_zero_val scalar_wf_zero : webchan.
