(* ===== verification/GoErrors.v ===== *)
(** Go error values met by the program: the sentinels [io.EOF],
    [io.ErrUnexpectedEOF], [net.ErrClosed], [io.ErrClosedPipe], the
    wrapper [*net.OpError], the [encoding/json] errors, [fmt.Errorf]
    without [%w], and the program's [sendError] and [recvError]
    (src/webchan.go lines 184-198).  [errors.Is] follows the [Unwrap]
    chain; [sendError] and [recvError] have no [Unwrap] method. *)
From S2P Require Import Prelude GoValues.

Inductive GoError :=
  | EOF
  | ErrUnexpectedEOF
  | ErrClosed
  | ErrClosedPipe
  | OpError (op : string) (err : GoError)
  | SyntaxError (msg : string)
  | UnmarshalTypeError (value : string) (t : GoType)
  | Errorf (msg : string)
  | sendError (Err : GoError)
  | recvError (Err : GoError).

#[export] Instance GoError_eq_dec : EqDecision GoError.
Proof. solve_decision. Defined.

(** The [Unwrap() error] method where the dynamic type has one. *)
Definition unwrap (e : GoError) : option GoError :=
  match e with
  | OpError _ inner => Some inner
  | _ => None
  end.

(** [errors.Is(err, target)] for a comparable [target]. *)
Fixpoint errors_Is (err target : GoError) : bool :=
  bool_decide (err = target) ||
  match err with
  | OpError _ inner => errors_Is inner target
  | _ => false
  end.

(** The [Error()] strings; lines 192-198 for the program's two types. *)
Fixpoint error_string (e : GoError) : string :=
  match e with
  | EOF => "EOF"
  | ErrUnexpectedEOF => "unexpected EOF"
  | ErrClosed => "use of closed network connection"
  | ErrClosedPipe => "io: read/write on closed pipe"
  | OpError op inner => op +:+ ": " +:+ error_string inner
  | SyntaxError msg => msg
  | UnmarshalTypeError v t =>
      "json: cannot unmarshal " +:+ v +:+ " into Go value of type " +:+ type_string t
  | Errorf msg => msg
  | sendError inner => "send error: " +:+ error_string inner
  | recvError inner => "recv error: " +:+ error_string inner
  end.

(** The test of lines 110 and 124:
    [errors.Is(err, net.ErrClosed) || errors.Is(err, io.EOF)]. *)
Definition is_closed_class (e : GoError) : bool :=
  errors_Is e ErrClosed || errors_Is e EOF.

(** ** Lemmas *)

Lemma errors_Is_refl e : errors_Is e e = true.
Proof. destruct e; cbn [errors_Is]; by rewrite bool_decide_eq_true_2. Qed.

Lemma errors_Is_OpError op e t :
  OpError op e <> t -> errors_Is (OpError op e) t = errors_Is e t.
Proof. intros Hne. cbn [errors_Is]. by rewrite bool_decide_eq_false_2. Qed.

(** A wrapper without [Unwrap] only matches itself. *)
Lemma errors_Is_opaque e t :
  unwrap e = None -> errors_Is e t = bool_decide (e = t).
Proof. destruct e; cbn [errors_Is unwrap]; try discriminate; intros _; by rewrite orb_false_r. Qed.

Lemma is_closed_class_OpError op e :
  is_closed_class (OpError op e) = is_closed_class e.
Proof. unfold is_closed_class. by rewrite !errors_Is_OpError. Qed.

#[export] Hint Rewrite is_closed_class_OpError : webchan_rw.
#[export] Hint Resolve errors_Is_refl : webchan.

Lemma sendError_ne e : sendError e <> e.
Proof. induction e; congruence. Qed.

Lemma recvError_ne e : recvError e <> e.
Proof. induction e; congruence. Qed.

(** ** Properties of the program's error types *)


