(* ===== verification/GoChan.v ===== *)
(** Go channels ([make(chan T, n)], [ch <- v], [<-ch], [close(ch)]) as a
    FIFO buffer with a capacity and a closed flag.  Blocking is the
    absence of a transition ([SendBlocks], [RecvBlocks]); the runtime
    panics of the language ("send on closed channel", "close of closed
    channel") are outcomes of their own.  A handoff to a goroutine
    blocked on the other side of an unbuffered channel is a step of the
    system relation in [Lifecycle]. *)
From S2P Require Import Prelude.

Record chan (A : Type) := mkChan { buf : list A; cap : nat; closed : bool }.
Arguments mkChan {A}.
Arguments buf {A}.
Arguments cap {A}.
Arguments closed {A}.

(** [make(chan T, n)]. *)
Definition make_chan {A} (n : nat) : chan A := mkChan [] n false.

Inductive send_outcome (A : Type) :=
  | Sent (c : chan A)
  | SendBlocks
  | SendPanics.
Arguments Sent {A}.
Arguments SendBlocks {A}.
Arguments SendPanics {A}.

Inductive recv_outcome (A : Type) :=
  | Received (v : A) (c : chan A)
  | RecvClosed
  | RecvBlocks.
Arguments Received {A}.
Arguments RecvClosed {A}.
Arguments RecvBlocks {A}.

(** [c <- v] on a buffered channel with no receiver waiting. *)
Definition chan_send {A} (c : chan A) (v : A) : send_outcome A :=
  if closed c then SendPanics
  else if decide (length (buf c) < cap c) then Sent (mkChan (buf c ++ [v]) (cap c) false)
  else SendBlocks.

(** [v, ok := <-c]: buffered values first, then [ok = false] once closed. *)
Definition chan_recv {A} (c : chan A) : recv_outcome A :=
  match buf c with
  | v :: rest => Received v (mkChan rest (cap c) (closed c))
  | [] => if closed c then RecvClosed else RecvBlocks
  end.

(** [close(c)]; [None] is the panic "close of closed channel". *)
Definition chan_close {A} (c : chan A) : option (chan A) :=
  if closed c then None else Some (mkChan (buf c) (cap c) true).

(** The buffer never holds more than the capacity. *)
Definition chan_ok {A} (c : chan A) : Prop := length (buf c) <= cap c.

(** ** Lemmas *)

Lemma chan_send_ok {A} (c c' : chan A) v :
  chan_send c v = Sent c' -> buf c' = buf c ++ [v] /\ cap c' = cap c /\ closed c' = false
    /\ closed c = false /\ length (buf c) < cap c.
Proof. unfold chan_send. destruct (closed c); [done|]. case_decide; [|done]. intros [= <-]. done. Qed.

Lemma chan_send_closed {A} (c : chan A) v : closed c = true -> chan_send c v = SendPanics.
Proof. unfold chan_send. by intros ->. Qed.

Lemma chan_send_preserves_ok {A} (c c' : chan A) v :
  chan_send c v = Sent c' -> chan_ok c'.
Proof.
  intros (Hb & Hc & _ & _ & Hlt)%chan_send_ok. unfold chan_ok. rewrite Hb, Hc, length_snoc. lia.
Qed.

Lemma chan_recv_ok {A} (c c' : chan A) v :
  chan_recv c = Received v c' -> buf c = v :: buf c' /\ cap c' = cap c /\ closed c' = closed c.
Proof. unfold chan_recv. destruct (buf c); [by destruct (closed c)|]. by intros [= -> <-]. Qed.

Lemma chan_recv_preserves_ok {A} (c c' : chan A) v :
  chan_ok c -> chan_recv c = Received v c' -> chan_ok c'.
Proof. unfold chan_ok. intros Hok (Hb & Hc & _)%chan_recv_ok. rewrite Hb in Hok; simpl in Hok. lia. Qed.

Lemma chan_close_ok {A} (c c' : chan A) :
  chan_close c = Some c' -> buf c' = buf c /\ cap c' = cap c /\ closed c' = true /\ closed c = false.
Proof. unfold chan_close. destruct (closed c); [done|]. by intros [= <-]. Qed.

Lemma chan_close_closed {A} (c : chan A) : closed c = true -> chan_close c = None.
Proof. unfold chan_close. by intros ->. Qed.

#[export] Hint Resolve chan_send_preserves_ok chan_recv_preserves_ok : webchan.
