(* ===== verification/Codec.v ===== *)
(** The interface the program needs from [encoding/json]: values on the
    wire are JSON values; [Encoder.Encode] marshals a Go value and
    [Decoder.Decode(p)] decodes one JSON value into the value [p] points
    to, here always a fresh zero value ([reflect.New(t)] on line 170, or
    [var typeName string] on line 107).  The [Codec] class states the
    laws the send and recv routines rely on; [json_codec] is an instance
    following [encoding/json] on the modelled values (exact key match,
    last duplicate key wins, [null] leaves the target unchanged, an
    out-of-range number is an [UnmarshalTypeError]). *)
From S2P Require Import Prelude GoValues GoErrors.

Inductive json :=
  | JNull
  | JBool (b : bool)
  | JNum (z : Z)              (* a number literal without fraction or exponent *)
  | JFloat (lit : string)     (* any other number literal, as written *)
  | JStr (s : string)
  | JArr (xs : list json)
  | JObj (kvs : list (string * json)).

Class Codec := {
  marshal : Val -> GoError + json;
  unmarshal_into : Val -> json -> GoError + Val;
  (** decoding what was encoded into the zero value of its type gives it back *)
  codec_roundtrip v j :
    wf_val v -> marshal v = inr j -> unmarshal_into (zero_val (type_of v)) j = inr v;
  (** every value of a registered type is serializable *)
  codec_total v : wf_val v -> exists j, marshal v = inr j;
  (** decoding into a [*T] yields a [T] *)
  codec_preserves_type cur j v : unmarshal_into cur j = inr v -> type_of v = type_of cur;
}.

(** ** An [encoding/json] instance *)

Definition marshal_scalar (s : scalar) : json :=
  match s with SString x => JStr x | SInt z => JNum z | SBool b => JBool b end.

Definition json_kind_name (j : json) : string :=
  match j with
  | JNull => "null" | JBool _ => "bool" | JNum _ | JFloat _ => "number" | JStr _ => "string"
  | JArr _ => "array" | JObj _ => "object"
  end.

Definition unmarshal_scalar (cur : scalar) (j : json) : GoError + scalar :=
  let mismatch := inl (UnmarshalTypeError (json_kind_name j) (TScalar (kind_of cur))) in
  match j, cur with
  | JNull, _ => inr cur
  | JStr x, SString _ => inr (SString x)
  | JNum z, SInt _ => if int_in_range z then inr (SInt z) else mismatch
  | JBool b, SBool _ => inr (SBool b)
  | _, _ => mismatch
  end.

(** Decode the value of key [k] into the first field named [k]; an
    unknown key is skipped. *)
Fixpoint set_field (k : string) (j : json) (fs : list (string * scalar))
    : GoError + list (string * scalar) :=
  match fs with
  | [] => inr []
  | (f, s) :: rest =>
      if decide (f = k) then
        let? s' := unmarshal_scalar s j in inr ((f, s') :: rest)
      else let? rest' := set_field k j rest in inr ((f, s) :: rest')
  end.

Definition decode_object (kvs : list (string * json)) (fs : list (string * scalar))
    : GoError + list (string * scalar) :=
  fold_left (fun acc '(k, j) => let? cur := acc in set_field k j cur) kvs (inr fs).

Definition json_unmarshal_into (cur : Val) (j : json) : GoError + Val :=
  match cur with
  | VScalar s => let? s' := unmarshal_scalar s j in inr (VScalar s')
  | VStruct p n fs =>
      match j with
      | JNull => inr cur
      | JObj kvs => let? fs' := decode_object kvs fs in inr (VStruct p n fs')
      | _ => inl (UnmarshalTypeError (json_kind_name j) (type_of cur))
      end
  end.

Definition json_marshal (v : Val) : GoError + json :=
  match v with
  | VScalar s => inr (marshal_scalar s)
  | VStruct _ _ fs => inr (JObj (map (fun '(f, s) => (f, marshal_scalar s)) fs))
  end.

Lemma unmarshal_scalar_kind cur j s :
  unmarshal_scalar cur j = inr s -> kind_of s = kind_of cur.
Proof.
  destruct j, cur; simpl; try discriminate; intros H; simpl_opt; try done.
  by destruct (int_in_range _); simpl_opt.
Qed.

Lemma unmarshal_scalar_roundtrip s :
  scalar_wf s = true -> unmarshal_scalar (zero_scalar (kind_of s)) (marshal_scalar s) = inr s.
Proof. destruct s; simpl; try done. by intros ->. Qed.

Lemma set_field_kinds k j fs fs' :
  set_field k j fs = inr fs' ->
  map (fun '(f, s) => (f, kind_of s)) fs' = map (fun '(f, s) => (f, kind_of s)) fs.
Proof.
  revert fs'. induction fs as [|[f s] fs IH]; intros fs' H; simpl in *; [by simpl_opt|].
  case_decide.
  - destruct (unmarshal_scalar s j) eqn:E; simpl_opt.
    simpl. by rewrite (unmarshal_scalar_kind _ _ _ E).
  - destruct (set_field k j fs) eqn:E; simpl_opt. simpl. by rewrite (IH _ eq_refl).
Qed.

Lemma decode_object_kinds kvs fs fs' :
  decode_object kvs fs = inr fs' ->
  map (fun '(f, s) => (f, kind_of s)) fs' = map (fun '(f, s) => (f, kind_of s)) fs.
Proof.
  unfold decode_object. revert fs. induction kvs as [|[k j] kvs IH]; intros fs H; simpl in *.
  - by simpl_opt.
  - destruct (set_field k j fs) as [e|cur] eqn:E.
    + exfalso. clear - H. induction kvs as [|[] kvs IH]; simpl in *; [done|]. by apply IH.
    + rewrite (IH _ H). by apply set_field_kinds in E.
Qed.

(** Decoding the field [k] of a struct whose fields before it are named
    differently. *)
Lemma set_field_middle pre f s rest j s' :
  f ∉ pre.*1 -> unmarshal_scalar s j = inr s' ->
  set_field f j (pre ++ (f, s) :: rest) = inr (pre ++ (f, s') :: rest).
Proof.
  intros Hf Hs. induction pre as [|[g c] pre IH]; simpl in *.
  - rewrite decide_True, Hs; done.
  - rewrite decide_False by set_solver. rewrite IH by set_solver. done.
Qed.

Lemma decode_object_roundtrip pre post :
  Forall (fun '(_, s) => scalar_wf s = true) post -> NoDup (pre.*1 ++ post.*1) ->
  decode_object (map (fun '(f, s) => (f, marshal_scalar s)) post)
    (pre ++ map (fun '(f, s) => (f, zero_scalar (kind_of s))) post) = inr (pre ++ post).
Proof.
  unfold decode_object. revert pre.
  induction post as [|[f s] post IH]; intros pre Hwf Hnd; simpl; [by rewrite !app_nil_r|].
  apply Forall_cons in Hwf as [Hs Hwf].
  rewrite (set_field_middle pre f (zero_scalar (kind_of s)) _ _ s).
  - replace (pre ++ (f, s) :: map _ post) with ((pre ++ [(f, s)]) ++ map (fun '(f, s) => (f, zero_scalar (kind_of s))) post)
      by by rewrite <- app_assoc.
    rewrite IH; [by rewrite <- app_assoc|done|]. rewrite fmap_app, <- app_assoc. done.
  - intros Hin. simpl in Hnd. apply NoDup_app in Hnd as (_ & Hd & _). apply (Hd f Hin). by left.
  - by apply unmarshal_scalar_roundtrip.
Qed.

#[export] Program Instance json_codec : Codec := {|
  marshal := json_marshal;
  unmarshal_into := json_unmarshal_into;
|}.
Next Obligation.
  intros v j Hwf Hm. destruct v as [s|p n fs]; simpl in *; simpl_opt.
  - by rewrite unmarshal_scalar_roundtrip.
  - destruct Hwf as [Hwf Hnd].
    replace (map _ (map _ fs)) with (map (fun '(f, s) => (f, zero_scalar (kind_of s))) fs)
      by (rewrite map_map; apply map_ext; by intros []).
    pose proof (decode_object_roundtrip [] fs Hwf Hnd) as H. simpl in H. by rewrite H.
Qed.
Next Obligation. intros v _. destruct v; eexists; reflexivity. Qed.
Next Obligation.
  intros cur j v H. destruct cur as [s|p n fs]; simpl in H.
  - destruct (unmarshal_scalar s j) eqn:E; simpl_opt. simpl. by rewrite (unmarshal_scalar_kind _ _ _ E).
  - destruct j; simpl_opt; try done.
    destruct (decode_object kvs fs) eqn:E; simpl_opt. simpl. by rewrite (decode_object_kinds _ _ _ E).
Qed.
