(* ===== verification/Conn.v ===== *)
(** The socket ([net.Conn]) and the JSON encoder and decoder the
    constructor puts on it (lines 71-72).  The stream is kept at the
    level of JSON values: what was written, what the peer has sent and
    the decoder has yet to read (a value, or a read/syntax error), and
    scheduled faults for upcoming writes.  [json.Decoder] keeps the first
    read or syntax error and returns it from every later [Decode]
    (its [err] field); a value of the wrong type is consumed and is not
    sticky.  Two kinds of connection are modelled, with the errors the
    Go library gives them: a [*net.TCPConn], whose reads and writes after
    [Close] fail with a [*net.OpError] wrapping [net.ErrClosed], and one
    end of [net.Pipe()] (used by the repository's test), whose reads and
    writes after [Close] fail with [io.ErrClosedPipe], as do its writes
    once the other end is closed.  On both, a read after the peer closed
    and sent everything returns [io.EOF]. *)
From S2P Require Import Prelude GoValues GoErrors Codec.

Inductive ConnKind := TCPConn | PipeConn.

#[export] Instance ConnKind_eq_dec : EqDecision ConnKind.
Proof. solve_decision. Defined.

Inductive read_item :=
  | RJson (j : json)
  | RErr (e : GoError).

Record Conn := mkConn {
  conn_kind : ConnKind;
  conn_closed : bool;
  conn_peer_closed : bool;
  conn_written : list json;
  conn_write_faults : list (option GoError);
  conn_pending : list read_item;
}.

Definition conn_set_pending (c : Conn) (p : list read_item) : Conn :=
  mkConn (conn_kind c) (conn_closed c) (conn_peer_closed c) (conn_written c) (conn_write_faults c) p.
Definition conn_set_write (c : Conn) (w : list json) (f : list (option GoError)) : Conn :=
  mkConn (conn_kind c) (conn_closed c) (conn_peer_closed c) w f (conn_pending c).

(** A connected TCP socket whose peer has sent [pending]. *)
Definition conn_open (pending : list read_item) : Conn := mkConn TCPConn false false [] [] pending.

(** One end of a fresh [net.Pipe()]. *)
Definition pipe_end : Conn := mkConn PipeConn false false [] [] [].

(** [Conn.Close()]. *)
Definition conn_close (c : Conn) : Conn :=
  mkConn (conn_kind c) true (conn_peer_closed c) (conn_written c) (conn_write_faults c) (conn_pending c).

(** The peer sends one more item (nothing arrives once closed). *)
Definition conn_deliver (c : Conn) (it : read_item) : Conn :=
  if conn_closed c then c else conn_set_pending c (conn_pending c ++ [it]).

(** The peer closes its end. *)
Definition conn_peer_close (c : Conn) : Conn :=
  mkConn (conn_kind c) (conn_closed c) true (conn_written c) (conn_write_faults c) (conn_pending c).

(** The errors of an operation on a socket closed by this side. *)
Definition closed_error (k : ConnKind) (op : string) : GoError :=
  match k with TCPConn => OpError op ErrClosed | PipeConn => ErrClosedPipe end.

(** A pipe refuses writes once its other end is closed; a TCP socket
    still accepts them. *)
Definition peer_refuses (c : Conn) : bool :=
  match conn_kind c with PipeConn => conn_peer_closed c | TCPConn => false end.

(** One [Write] of a whole marshalled value. *)
Definition conn_write (c : Conn) (j : json) : Conn * option GoError :=
  if conn_closed c then (c, Some (closed_error (conn_kind c) "write"))
  else if peer_refuses c then (c, Some ErrClosedPipe)
  else match conn_write_faults c with
       | Some e :: rest => (conn_set_write c (conn_written c) rest, Some e)
       | None :: rest => (conn_set_write c (conn_written c ++ [j]) rest, None)
       | [] => (conn_set_write c (conn_written c ++ [j]) [], None)
       end.

Section WithCodec.
Context `{!Codec}.

(** [Encoder.Encode(v)]: marshal, then one write. *)
Definition encode (c : Conn) (v : Val) : Conn * option GoError :=
  match marshal v with
  | inl e => (c, Some e)
  | inr j => conn_write c j
  end.

(** [Decoder.Decode(p)] with [p] pointing to [cur]: [None] when the read
    blocks; otherwise the new sticky error, the socket and the result. *)
Definition decode (sticky : option GoError) (c : Conn) (cur : Val)
    : option (option GoError * Conn * (GoError + Val)) :=
  match sticky with
  | Some e => Some (sticky, c, inl e)
  | None =>
      if conn_closed c then
        let e := closed_error (conn_kind c) "read" in Some (Some e, c, inl e)
      else match conn_pending c with
           | [] => if conn_peer_closed c then Some (Some EOF, c, inl EOF) else None
           | RErr e :: rest => Some (Some e, conn_set_pending c rest, inl e)
           | RJson j :: rest => Some (None, conn_set_pending c rest, unmarshal_into cur j)
           end
  end.

(** ** Lemmas *)

(** A [Write] can succeed: this end is open and, on a pipe, so is the other. *)
Definition conn_can_write (c : Conn) : bool :=
  negb (conn_closed c) && negb (peer_refuses c).

Lemma conn_can_write_set_write c w f : conn_can_write (conn_set_write c w f) = conn_can_write c.
Proof. done. Qed.
Lemma conn_can_write_set_pending c p : conn_can_write (conn_set_pending c p) = conn_can_write c.
Proof. done. Qed.

Lemma conn_set_write_id c : conn_set_write c (conn_written c) (conn_write_faults c) = c.
Proof. by destruct c. Qed.

Lemma conn_set_pending_id c : conn_set_pending c (conn_pending c) = c.
Proof. by destruct c. Qed.

Lemma conn_write_open c j :
  conn_can_write c = true ->
  conn_write c j = match conn_write_faults c with
                   | Some e :: rest => (conn_set_write c (conn_written c) rest, Some e)
                   | None :: rest => (conn_set_write c (conn_written c ++ [j]) rest, None)
                   | [] => (conn_set_write c (conn_written c ++ [j]) [], None)
                   end.
Proof.
  unfold conn_can_write, conn_write. intros [Hc Hp]%andb_prop. apply negb_true_iff in Hc, Hp.
  by rewrite Hc, Hp.
Qed.

Lemma encode_ok (c : Conn) v j :
  conn_can_write c = true -> conn_write_faults c = [] -> marshal v = inr j ->
  encode c v = (conn_set_write c (conn_written c ++ [j]) [], None).
Proof.
  intros Hc Hf Hm. unfold encode. by rewrite Hm, conn_write_open, Hf.
Qed.

Lemma encode_closed (c : Conn) v :
  conn_closed c = true -> exists e, encode c v = (c, Some e).
Proof. intros Hc. unfold encode, conn_write. rewrite Hc. destruct (marshal v); eauto. Qed.

(** A string always marshals, so on a closed socket [Encode] of a type
    name fails with the socket's error. *)
Lemma encode_closed_string (c : Conn) n :
  conn_closed c = true -> encode c (VScalar (SString n)) = (c, Some (closed_error (conn_kind c) "write")).
Proof.
  intros Hc. destruct (codec_total (VScalar (SString n))) as [j Hj]; [done|].
  unfold encode, conn_write. by rewrite Hj, Hc.
Qed.

(** [Encode] only appends to the written stream and consumes faults. *)
Lemma encode_shape (c : Conn) v : exists w f, (encode c v).1 = conn_set_write c w f.
Proof.
  unfold encode, conn_write.
  destruct (marshal v); [by eexists _, _; rewrite conn_set_write_id|].
  destruct (conn_closed c); [by eexists _, _; rewrite conn_set_write_id|].
  destruct (peer_refuses c); [by eexists _, _; rewrite conn_set_write_id|].
  destruct (conn_write_faults c) as [|[]]; simpl; eauto.
Qed.

Lemma encode_conn_closed (c : Conn) v : conn_closed (encode c v).1 = conn_closed c.
Proof. by destruct (encode_shape c v) as (w & f & ->). Qed.

(** [Encode] only appends to what was written. *)
Lemma encode_written (c : Conn) v : conn_written c `prefix_of` conn_written (encode c v).1.
Proof. unfold encode, conn_write. repeat case_match; simpl; by apply prefix_app_r || reflexivity. Qed.

(** Once the decoder has failed, it fails the same way without reading. *)
Lemma decode_sticky e c cur : decode (Some e) c cur = Some (Some e, c, inl e).
Proof. done. Qed.

(** [Decode] only consumes the socket's input. *)
Lemma decode_shape sticky c cur sticky' c' r :
  decode sticky c cur = Some (sticky', c', r) -> exists p, c' = conn_set_pending c p.
Proof.
  intros Hd. exists (conn_pending c'). unfold decode in Hd.
  repeat case_match; simplify_eq; try done; by rewrite conn_set_pending_id.
Qed.

Lemma decode_written sticky c cur sticky' c' r :
  decode sticky c cur = Some (sticky', c', r) -> conn_written c' = conn_written c /\ conn_closed c' = conn_closed c.
Proof. by intros [p ->]%decode_shape. Qed.

(** A successful [Decode(p)] stores a value of [p]'s element type. *)
Lemma decode_type sticky c cur sticky' c' v :
  decode sticky c cur = Some (sticky', c', inr v) -> type_of v = type_of cur.
Proof.
  unfold decode. destruct sticky; [intros; by simplify_eq|].
  destruct (conn_closed c); [intros; by simplify_eq|].
  destruct (conn_pending c) as [|[j|e] rest]; [destruct (conn_peer_closed c)|..]; intros; simplify_eq;
    by eapply codec_preserves_type.
Qed.

End WithCodec.

#[export] Hint Resolve decode_sticky : webchan.
#[export] Hint Rewrite conn_can_write_set_write conn_can_write_set_pending : webchan_rw.
