(* ===== verification/JsonText.v ===== *)
(** The text layer of [encoding/json] on the socket (lines 71-72 put a
    [json.NewEncoder] and a [json.NewDecoder] on it): the bytes
    [Encoder.Encode] writes for a JSON value, and what [Decoder.Decode]
    makes of the bytes it has read so far.  This is library code, modelled
    from the Go standard library as of Go 1.22:
    - [escape_byte] and [quote_body] follow [appendString] of encode.go
      with HTML escaping on (the [Encoder] default), the [\b] and [\f]
      escapes, invalid UTF-8 replaced by the escape of U+FFFD and U+2028/U+2029
      escaped; [encode_json] writes no whitespace; [encode_frame] adds the
      newline [Encoder.Encode] appends;
    - [scan_str], [scan_num], [scan_lit] and [parse_value] follow the
      states of scanner.go, with its error messages ([quote_char] is its
      [quoteChar]) and its nesting limit of 10000; [unquote] follows
      [unquoteBytes] of decode.go, surrogate pairs included;
    - [decode_next] is [Decoder.Decode]'s [readValue]: a string, number or
      literal at the end of the buffer needs one more byte (or EOF) to be
      complete, an object or array does not; at EOF the rest of a value is
      [io.ErrUnexpectedEOF] unless only white space is left ([io.EOF]);
      a syntax error is returned (and kept by the decoder).
    [decode_items] lists the outcomes of successive [Decode] calls on a
    buffer, the abstraction [Conn]'s [conn_pending] keeps.  Bytes are
    ASCII characters; a byte at or above 0x80 is a UTF-8 byte. *)
From Stdlib Require Import Ascii String.
From stdpp Require Import pretty.
From S2P Require Import Prelude GoValues GoErrors Codec Conn.

(** The bytes on the wire. *)
Abbreviation text := (list ascii).

Definition str (s : string) : text := list_ascii_of_string s.

Definition code (c : ascii) : N := N_of_ascii c.
Definition chr (n : N) : ascii := ascii_of_N n.

Definition dq : ascii := "034"%char.   (* the double quote *)
Definition bsl : ascii := "092"%char.  (* the backslash *)

Definition is_space (c : ascii) : bool :=
  Ascii.eqb c " " || Ascii.eqb c "009" || Ascii.eqb c "010" || Ascii.eqb c "013".
Definition is_digit (c : ascii) : bool := (48 <=? code c)%N && (code c <=? 57)%N.
Definition is_digit19 (c : ascii) : bool := (49 <=? code c)%N && (code c <=? 57)%N.

Definition hex_value (c : ascii) : option N :=
  let n := code c in
  if (48 <=? n)%N && (n <=? 57)%N then Some (n - 48)%N
  else if (97 <=? n)%N && (n <=? 102)%N then Some (n - 87)%N
  else if (65 <=? n)%N && (n <=? 70)%N then Some (n - 55)%N
  else None.
Definition is_hex (c : ascii) : bool := if hex_value c is Some _ then true else false.

(** [hex[n]] of encode.go and [lowerhex] of strconv. *)
Definition hex_digit (n : N) : ascii := chr (if (n <? 10)%N then 48 + n else 87 + n)%N.

(** ** UTF-8 ([unicode/utf8]) *)

Local Open Scope Z_scope.

Definition rune_error : Z := 0xFFFD.

(** [utf8.DecodeRune]: the rune at the start of [s] and its size; an
    invalid or short sequence is [(RuneError, 1)]. *)
Definition utf8_decode (s : text) : Z * nat :=
  let b c := Z.of_N (code c) in
  let cont c := (0x80 <=? b c) && (b c <=? 0xBF) in
  match s with
  | [] => (rune_error, 0%nat)
  | c0 :: rest =>
    let b0 := b c0 in
    if b0 <? 0x80 then (b0, 1%nat)
    else if (b0 <? 0xC2) || (0xF4 <? b0) then (rune_error, 1%nat)
    else if b0 <? 0xE0 then
      match rest with
      | c1 :: _ => if cont c1 then (Z.lor (Z.shiftl (Z.land b0 0x1F) 6) (Z.land (b c1) 0x3F), 2%nat) else (rune_error, 1%nat)
      | [] => (rune_error, 1%nat)
      end
    else
      let lo := if b0 =? 0xE0 then 0xA0 else if b0 =? 0xF0 then 0x90 else 0x80 in
      let hi := if b0 =? 0xED then 0x9F else if b0 =? 0xF4 then 0x8F else 0xBF in
      if b0 <? 0xF0 then
        match rest with
        | c1 :: c2 :: _ =>
            if (lo <=? b c1) && (b c1 <=? hi) && cont c2 then
              (Z.lor (Z.shiftl (Z.land b0 0x0F) 12) (Z.lor (Z.shiftl (Z.land (b c1) 0x3F) 6) (Z.land (b c2) 0x3F)), 3%nat)
            else (rune_error, 1%nat)
        | _ => (rune_error, 1%nat)
        end
      else
        match rest with
        | c1 :: c2 :: c3 :: _ =>
            if (lo <=? b c1) && (b c1 <=? hi) && cont c2 && cont c3 then
              (Z.lor (Z.shiftl (Z.land b0 0x07) 18) (Z.lor (Z.shiftl (Z.land (b c1) 0x3F) 12)
                 (Z.lor (Z.shiftl (Z.land (b c2) 0x3F) 6) (Z.land (b c3) 0x3F))), 4%nat)
            else (rune_error, 1%nat)
        | _ => (rune_error, 1%nat)
        end
  end.

Definition zbyte (z : Z) : ascii := chr (Z.to_N z).

(** [utf8.EncodeRune]; a surrogate or out-of-range rune is [RuneError]. *)
Definition utf8_encode (r : Z) : text :=
  let r := if (0x10FFFF <? r) || ((0xD800 <=? r) && (r <=? 0xDFFF)) then rune_error else r in
  if r <? 0x80 then [zbyte r]
  else if r <? 0x800 then [zbyte (Z.lor 0xC0 (Z.shiftr r 6)); zbyte (Z.lor 0x80 (Z.land r 0x3F))]
  else if r <? 0x10000 then
    [zbyte (Z.lor 0xE0 (Z.shiftr r 12)); zbyte (Z.lor 0x80 (Z.land (Z.shiftr r 6) 0x3F));
     zbyte (Z.lor 0x80 (Z.land r 0x3F))]
  else
    [zbyte (Z.lor 0xF0 (Z.shiftr r 18)); zbyte (Z.lor 0x80 (Z.land (Z.shiftr r 12) 0x3F));
     zbyte (Z.lor 0x80 (Z.land (Z.shiftr r 6) 0x3F)); zbyte (Z.lor 0x80 (Z.land r 0x3F))].

Local Close Scope Z_scope.

(** ** The encoder (encode.go) *)

(** [htmlSafeSet]: printable ASCII but the quote, the backslash, [<], [>]
    and [&]. *)
Definition html_safe (c : ascii) : bool :=
  (32 <=? code c)%N && (code c <? 128)%N &&
  negb (Ascii.eqb c dq || Ascii.eqb c bsl || Ascii.eqb c "<" || Ascii.eqb c ">" || Ascii.eqb c "&").

(** One ASCII byte of a string in [appendString]. *)
Definition escape_byte (c : ascii) : text :=
  if html_safe c then [c]%char
  else if Ascii.eqb c dq || Ascii.eqb c bsl then [bsl; c]%char
  else if Ascii.eqb c "008" then [bsl; "b"]%char
  else if Ascii.eqb c "012" then [bsl; "f"]%char
  else if Ascii.eqb c "010" then [bsl; "n"]%char
  else if Ascii.eqb c "013" then [bsl; "r"]%char
  else if Ascii.eqb c "009" then [bsl; "t"]%char
  else [bsl; "u"; "0"; "0"; hex_digit (code c / 16)%N; hex_digit (code c mod 16)%N]%char.

(** The body of a quoted string: [copy] continuation bytes of a valid
    UTF-8 sequence still to copy, [skip] bytes of an escaped U+2028 or
    U+2029 still to drop. *)
Fixpoint quote_go (copy skip : nat) (s : text) : text :=
  match s with
  | [] => []
  | c :: s' =>
    match copy, skip with
    | S k, _ => c :: quote_go k 0 s'
    | O, S k => quote_go 0 k s'
    | O, O =>
      if (code c <? 128)%N then escape_byte c ++ quote_go 0 0 s'
      else
        let '(r, size) := utf8_decode s in
        if (r =? rune_error)%Z && (size =? 1)%nat then [bsl; "u"; "f"; "f"; "f"; "d"]%char ++ quote_go 0 0 s'
        else if ((r =? 0x2028) || (r =? 0x2029))%Z then
          [bsl; "u"; "2"; "0"; "2"; hex_digit (Z.to_N (Z.land r 15)%Z)]%char ++ quote_go 0 (size - 1) s'
        else c :: quote_go (size - 1) 0 s'
    end
  end.

Definition quote_body (s : string) : text := quote_go 0 0 (str s).
Definition quote (s : string) : text := dq :: quote_body s ++ [dq].

Fixpoint commas (ts : list text) : text :=
  match ts with
  | [] => []
  | [t] => t
  | t :: ts => t ++ ","%char :: commas ts
  end.

(** [Marshal]'s text of a JSON value: no white space, integers in
    decimal ([strconv.AppendInt]), object members in order. *)
Fixpoint encode_json (j : json) : text :=
  match j with
  | JNull => str "null"
  | JBool true => str "true"
  | JBool false => str "false"
  | JNum z => str (pretty z)
  | JFloat lit => str lit
  | JStr s => quote s
  | JArr xs => "[" :: commas (map encode_json xs) ++ ["]"]
  | JObj kvs => "{" :: commas (map (fun kv => quote kv.1 ++ ":" :: encode_json kv.2) kvs) ++ ["}"]
  end%char.

(** [Encoder.Encode]: the value's text and a newline, in one [Write]. *)
Definition encode_frame (j : json) : text := encode_json j ++ ["010"%char].

Definition frames (js : list json) : text := flat_map encode_frame js.

(** ** The decoder (scanner.go, decode.go, stream.go) *)

(** [quoteChar]: a byte in a syntax error message, through
    [strconv.Quote] of the rune with that code. *)
Definition quote_char (c : ascii) : text :=
  let n := code c in
  let q := "'"%char in
  if Ascii.eqb c q then [q; bsl; q; q]%char
  else if Ascii.eqb c dq then [q; dq; q]%char
  else q :: (if Ascii.eqb c bsl then [bsl; bsl]%char
             else if (32 <=? n)%N && (n <? 127)%N then [c]%char
             else if Ascii.eqb c "007" then [bsl; "a"]%char
             else if Ascii.eqb c "008" then [bsl; "b"]%char
             else if Ascii.eqb c "012" then [bsl; "f"]%char
             else if Ascii.eqb c "010" then [bsl; "n"]%char
             else if Ascii.eqb c "013" then [bsl; "r"]%char
             else if Ascii.eqb c "009" then [bsl; "t"]%char
             else if Ascii.eqb c "011" then [bsl; "v"]%char
             else if (n <? 32)%N || (n =? 127)%N then [bsl; "x"; hex_digit (n / 16); hex_digit (n mod 16)]%char
             else if (n <=? 160)%N || (n =? 173)%N then [bsl; "u"; "0"; "0"; hex_digit (n / 16); hex_digit (n mod 16)]%char
             else utf8_encode (Z.of_N n)) ++ [q]%char.

(** [scanner.error]: ["invalid character " + quoteChar(c) + " " + context]. *)
Definition syntax (c : ascii) (context : string) : GoError :=
  SyntaxError (string_of_list_ascii (str "invalid character " ++ quote_char c ++ " "%char :: str context)).

(** What scanning a part of the input gives: the part and the rest, a
    need for more input, or an error. *)
Inductive scanned :=
  | SEnd (part rest : text)
  | SMore
  | SBad (e : GoError).

Definition scons (c : ascii) (r : scanned) : scanned :=
  match r with SEnd part rest => SEnd (c :: part) rest | r => r end.

(** A string literal after its opening quote ([stateInString] and the
    escape states); the body is kept as written. *)
Fixpoint scan_str (s : text) : scanned :=
  match s with
  | [] => SMore
  | c :: s' =>
    if Ascii.eqb c dq then SEnd [] s'
    else if Ascii.eqb c bsl then scons c (scan_esc s')
    else if (code c <? 32)%N then SBad (syntax c "in string literal")
    else scons c (scan_str s')
  end
with scan_esc (s : text) : scanned :=
  match s with
  | [] => SMore
  | e :: s' =>
    if existsb (Ascii.eqb e) ["b"; "f"; "n"; "r"; "t"; bsl; "/"; dq]%char then scons e (scan_str s')
    else if Ascii.eqb e "u" then scons e (scan_hex 3 s')
    else SBad (syntax e "in string escape code")
  end
with scan_hex (k : nat) (s : text) : scanned :=
  match s with
  | [] => SMore
  | h :: s' =>
    if is_hex h then scons h (match k with O => scan_str s' | S k' => scan_hex k' s' end)
    else SBad (syntax h "in \u hexadecimal character escape")
  end.

Definition hex4 (a b c d : ascii) : option Z :=
  match hex_value a, hex_value b, hex_value c, hex_value d with
  | Some x, Some y, Some z, Some w => Some (Z.of_N (((x * 16 + y) * 16 + z) * 16 + w))
  | _, _, _, _ => None
  end%N.

Definition is_surrogate (r : Z) : bool := ((0xD800 <=? r) && (r <? 0xE000))%Z.

(** [utf16.DecodeRune]. *)
Definition decode_pair (r1 r2 : Z) : Z :=
  (if (0xD800 <=? r1) && (r1 <? 0xDC00) && (0xDC00 <=? r2) && (r2 <? 0xE000)
   then Z.lor (Z.shiftl (r1 - 0xD800) 10) (r2 - 0xDC00) + 0x10000
   else rune_error)%Z.

Definition unescape (e : ascii) : ascii :=
  if Ascii.eqb e "b" then "008" else if Ascii.eqb e "f" then "012"
  else if Ascii.eqb e "n" then "010" else if Ascii.eqb e "r" then "013"
  else if Ascii.eqb e "t" then "009" else e.

(** [unquoteBytes] on a scanned body; [copy] continuation bytes of a
    valid UTF-8 sequence are still to copy. *)
Fixpoint unquote_go (copy : nat) (s : text) : text :=
  match s with
  | [] => []
  | c :: s' =>
    match copy with
    | S k => c :: unquote_go k s'
    | O =>
      if Ascii.eqb c bsl then
        match s' with
        | [] => []
        | e :: s'' =>
          if Ascii.eqb e "u" then
            match s'' with
            | a :: b :: c1 :: d :: rest =>
              match hex4 a b c1 d with
              | Some r =>
                if is_surrogate r then
                  match rest with
                  | x :: y :: a' :: b' :: c' :: d' :: rest' =>
                    match hex4 a' b' c' d' with
                    | Some r2 =>
                      if Ascii.eqb x bsl && Ascii.eqb y "u" && negb (decode_pair r r2 =? rune_error)%Z
                      then utf8_encode (decode_pair r r2) ++ unquote_go 0 rest'
                      else utf8_encode rune_error ++ unquote_go 0 rest
                    | None => utf8_encode rune_error ++ unquote_go 0 rest
                    end
                  | _ => utf8_encode rune_error ++ unquote_go 0 rest
                  end
                else utf8_encode r ++ unquote_go 0 rest
              | None => []
              end
            | _ => []
            end
          else unescape e :: unquote_go 0 s''
        end
      else if (code c <? 128)%N then c :: unquote_go 0 s'
      else
        let '(r, size) := utf8_decode s in
        if (r =? rune_error)%Z && (size =? 1)%nat then utf8_encode rune_error ++ unquote_go 0 s'
        else c :: unquote_go (size - 1) s'
    end
  end.

Definition unquote (body : text) : string := string_of_list_ascii (unquote_go 0 body).

(** The states of a number literal. *)
Inductive nstate := NNeg | NZero | NInt | NDot | NFrac | NE | NESign | NExp.

Definition num_accepting (st : nstate) : bool :=
  match st with NZero | NInt | NFrac | NExp => true | _ => false end.

(** A number literal from the state reached after its first byte;
    input ending in an accepting state ends the literal there. *)
Fixpoint scan_num (st : nstate) (s : text) : scanned :=
  match s with
  | [] => if num_accepting st then SEnd [] [] else SMore
  | c :: s' =>
    let go st' := scons c (scan_num st' s') in
    let is_e := Ascii.eqb c "e" || Ascii.eqb c "E" in
    match st with
    | NNeg => if Ascii.eqb c "0" then go NZero else if is_digit19 c then go NInt
              else SBad (syntax c "in numeric literal")
    | NZero => if Ascii.eqb c "." then go NDot else if is_e then go NE else SEnd [] s
    | NInt => if is_digit c then go NInt else if Ascii.eqb c "." then go NDot
              else if is_e then go NE else SEnd [] s
    | NDot => if is_digit c then go NFrac else SBad (syntax c "after decimal point in numeric literal")
    | NFrac => if is_digit c then go NFrac else if is_e then go NE else SEnd [] s
    | NE => if Ascii.eqb c "+" || Ascii.eqb c "-" then go NESign else if is_digit c then go NExp
            else SBad (syntax c "in exponent of numeric literal")
    | NESign => if is_digit c then go NExp else SBad (syntax c "in exponent of numeric literal")
    | NExp => if is_digit c then go NExp else SEnd [] s
    end
  end.

(** The value of a decimal literal ([strconv.ParseInt] without its range
    check, which [unmarshal_into] does). *)
Fixpoint digits_value (acc : Z) (ds : text) : Z :=
  match ds with
  | [] => acc
  | d :: ds => digits_value (10 * acc + (Z.of_N (code d) - 48))%Z ds
  end.

(** The JSON value of a number literal. *)
Definition frac_or_exp (c : ascii) : bool := Ascii.eqb c "." || Ascii.eqb c "e" || Ascii.eqb c "E".

Definition number_json (lit : text) : json :=
  if existsb frac_or_exp lit then JFloat (string_of_list_ascii lit)
  else match lit with
       | c :: ds => if Ascii.eqb c "-" then JNum (- digits_value 0 ds)%Z else JNum (digits_value 0 lit)
       | [] => JNum 0
       end.

(** The rest of [true], [false] or [null] after its first byte. *)
Fixpoint scan_lit (name : string) (expect : text) (s : text) : scanned :=
  match expect, s with
  | [], _ => SEnd [] s
  | _ :: _, [] => SMore
  | e :: expect', c :: s' =>
    if Ascii.eqb c e then scan_lit name expect' s'
    else SBad (syntax c ("in literal " +:+ name +:+ " (expecting " +:+ string_of_list_ascii (quote_char e) +:+ ")"))
  end.

Fixpoint skip_ws (s : text) : text :=
  match s with
  | c :: s' => if is_space c then skip_ws s' else s
  | [] => []
  end.

(** [maxNestingDepth]. *)
Definition max_depth : nat := 10000.
#[global] Arguments max_depth : simpl never.

(** What parsing a value from a buffer gives: the value and the rest, a
    need for more input, a syntax error, or exhausted fuel. *)
Inductive parsed :=
  | PDone (j : json) (rest : text)
  | PMore
  | PBad (e : GoError)
  | POut.

Definition after_scan (r : scanned) (k : text -> text -> parsed) : parsed :=
  match r with
  | SEnd part rest => k part rest
  | SMore => PMore
  | SBad e => PBad e
  end.

(** A value ([stateBeginValue]) at nesting depth [d]; [n] is fuel. *)
Fixpoint parse_value (n d : nat) (s : text) : parsed :=
  match n with
  | O => POut
  | S n =>
    match skip_ws s with
    | [] => PMore
    | c :: s' =>
      if Ascii.eqb c "{" then
        if (max_depth <? S d)%nat then PBad (syntax c "exceeded max depth") else
        match skip_ws s' with
        | [] => PMore
        | c' :: s'' =>
          if Ascii.eqb c' "}" then PDone (JObj []) s''
          else if Ascii.eqb c' dq then parse_members n (S d) [] (c' :: s'')
          else PBad (syntax c' "looking for beginning of object key string")
        end
      else if Ascii.eqb c "[" then
        if (max_depth <? S d)%nat then PBad (syntax c "exceeded max depth") else
        match skip_ws s' with
        | [] => PMore
        | c' :: s'' =>
          if Ascii.eqb c' "]" then PDone (JArr []) s''
          else parse_elems n (S d) [] (c' :: s'')
        end
      else if Ascii.eqb c dq then after_scan (scan_str s') (fun body rest => PDone (JStr (unquote body)) rest)
      else if Ascii.eqb c "-" then after_scan (scan_num NNeg s') (fun lit rest => PDone (number_json (c :: lit)) rest)
      else if Ascii.eqb c "0" then after_scan (scan_num NZero s') (fun lit rest => PDone (number_json (c :: lit)) rest)
      else if is_digit19 c then after_scan (scan_num NInt s') (fun lit rest => PDone (number_json (c :: lit)) rest)
      else if Ascii.eqb c "t" then after_scan (scan_lit "true" (str "rue") s') (fun _ rest => PDone (JBool true) rest)
      else if Ascii.eqb c "f" then after_scan (scan_lit "false" (str "alse") s') (fun _ rest => PDone (JBool false) rest)
      else if Ascii.eqb c "n" then after_scan (scan_lit "null" (str "ull") s') (fun _ rest => PDone JNull rest)
      else PBad (syntax c "looking for beginning of value")
    end
  end
(** The members of an object from a key's opening quote on. *)
with parse_members (n d : nat) (acc : list (string * json)) (s : text) : parsed :=
  match n with
  | O => POut
  | S n =>
    match s with
    | [] => PMore
    | _ :: s' =>
      after_scan (scan_str s') (fun body rest =>
        match skip_ws rest with
        | [] => PMore
        | c :: rest' =>
          if Ascii.eqb c ":" then
            match parse_value n d rest' with
            | PDone v rest'' =>
              let acc' := acc ++ [(unquote body, v)] in
              match skip_ws rest'' with
              | [] => PMore
              | c2 :: r =>
                if Ascii.eqb c2 "}" then PDone (JObj acc') r
                else if Ascii.eqb c2 "," then
                  match skip_ws r with
                  | [] => PMore
                  | c3 :: r' =>
                    if Ascii.eqb c3 dq then parse_members n d acc' (c3 :: r')
                    else PBad (syntax c3 "looking for beginning of object key string")
                  end
                else PBad (syntax c2 "after object key:value pair")
              end
            | r => r
            end
          else PBad (syntax c "after object key")
        end)
    end
  end
(** The elements of an array from the first byte of an element on. *)
with parse_elems (n d : nat) (acc : list json) (s : text) : parsed :=
  match n with
  | O => POut
  | S n =>
    match parse_value n d s with
    | PDone v rest =>
      let acc' := acc ++ [v] in
      match skip_ws rest with
      | [] => PMore
      | c :: r =>
        if Ascii.eqb c "]" then PDone (JArr acc') r
        else if Ascii.eqb c "," then parse_elems n d acc' r
        else PBad (syntax c "after array element")
      end
    | r => r
    end
  end.

(** Values whose end is only known from the next byte. *)
Definition needs_lookahead (j : json) : bool :=
  match j with JArr _ | JObj _ => false | _ => true end.

(** One [Decoder.Decode] on the bytes read so far, [eof] when the
    reader has returned [io.EOF]. *)
Inductive decoded :=
  | DValue (j : json) (rest : text)
  | DBlock
  | DErr (e : GoError).

Definition decode_next (eof : bool) (buf : text) : decoded :=
  match parse_value (S (2 * length buf)) 0 buf with
  | PDone j rest => if needs_lookahead j && bool_decide (rest = []) && negb eof then DBlock else DValue j rest
  | PMore | POut =>
      if eof then (if forallb is_space buf then DErr EOF else DErr ErrUnexpectedEOF) else DBlock
  | PBad e => DErr e
  end.

(** The items successive [Decode] calls return until one blocks, meets
    the end of the stream or fails (the decoder keeps its first error). *)
Fixpoint decode_items_go (n : nat) (eof : bool) (buf : text) : list read_item :=
  match n with
  | O => []
  | S n =>
    match decode_next eof buf with
    | DValue j rest => RJson j :: decode_items_go n eof rest
    | DBlock | DErr EOF => []
    | DErr e => [RErr e]
    end
  end.

Definition decode_items (eof : bool) (buf : text) : list read_item :=
  decode_items_go (S (length buf)) eof buf.
