(* ===== verification/JsonStream.v ===== *)
(** What the text layer of [encoding/json] ([JsonText]) guarantees the
    program: the frames [Encoder.Encode] writes are read back by
    [Decoder.Decode] as the same values, in order, whichever way the
    bytes are split into reads; more bytes never change what was already
    decoded; and what a frame cut by the end of the stream gives.  The
    values are those [json_codec] marshals: no [JFloat], strings of
    ASCII bytes (a byte at or above 0x80 would have to be valid UTF-8),
    nesting within the decoder's limit. *)
From Stdlib Require Import Ascii String.
From stdpp Require Import pretty.
From S2P Require Import Prelude GoValues GoErrors Codec Conn JsonText.

(** ** The values the encoder and decoder agree on *)

Definition ascii_text (t : text) : Prop := Forall (fun c => (code c < 128)%N) t.
Definition ascii_string (s : string) : bool := forallb (fun c => (code c <? 128)%N) (str s).

Fixpoint json_ok (j : json) : bool :=
  match j with
  | JFloat _ => false
  | JStr s => ascii_string s
  | JArr xs => forallb json_ok xs
  | JObj kvs => forallb (fun kv => ascii_string kv.1 && json_ok kv.2) kvs
  | _ => true
  end.

Fixpoint json_depth (j : json) : nat :=
  match j with
  | JArr xs => S (foldr max 0 (map json_depth xs))
  | JObj kvs => S (foldr max 0 (map (fun kv => json_depth kv.2) kvs))
  | _ => 0
  end.

(** The fuel [parse_value] needs, less one. *)
Fixpoint json_size (j : json) : nat :=
  match j with
  | JArr xs => sum_list (map (fun x => json_size x + 2) xs)
  | JObj kvs => sum_list (map (fun kv => json_size kv.2 + 2) kvs)
  | _ => 0
  end.

(** A number literal ends before [rest]. *)
Definition num_stop (rest : text) : bool :=
  match rest with
  | [] => true
  | c :: _ => negb (is_digit c || frac_or_exp c)
  end.

Definition stop_ok (j : json) (rest : text) : bool :=
  match j with JNum _ => num_stop rest | _ => true end.

Lemma json_ind' (P : json -> Prop) :
  P JNull -> (forall b, P (JBool b)) -> (forall z, P (JNum z)) -> (forall l, P (JFloat l)) ->
  (forall s, P (JStr s)) -> (forall xs, Forall P xs -> P (JArr xs)) ->
  (forall kvs, Forall (fun kv => P kv.2) kvs -> P (JObj kvs)) -> forall j, P j.
Proof.
  intros Hn Hb Hz Hf Hs Ha Ho. fix IH 1. intros [|b|z|l|s|xs|kvs]; [exact Hn|apply Hb|apply Hz|apply Hf|apply Hs| |].
  - apply Ha. induction xs as [|x xs IHxs]; constructor; [apply IH|exact IHxs].
  - apply Ho. induction kvs as [|kv kvs IHkvs]; constructor; [apply IH|exact IHkvs].
Qed.

(** ** Strings *)

Lemma ascii_string_text s : ascii_string s = true -> ascii_text (str s).
Proof. unfold ascii_string, ascii_text. rewrite forallb_forall, Forall_forall. intros H c Hc. apply N.ltb_lt, H, list_elem_of_In, Hc. Qed.

Lemma escape_scan c t : (code c < 128)%N ->
  scan_str (escape_byte c ++ t) = foldr scons (scan_str t) (escape_byte c).
Proof.
  destruct c as [[] [] [] [] [] [] [] []]; intros Hc;
    try (vm_compute in Hc; discriminate); cbn; reflexivity.
Qed.

Lemma escape_unquote c t : (code c < 128)%N ->
  unquote_go 0 (escape_byte c ++ t) = c :: unquote_go 0 t.
Proof.
  destruct c as [[] [] [] [] [] [] [] []]; intros Hc;
    try (vm_compute in Hc; discriminate); cbn; reflexivity.
Qed.

Lemma foldr_scons e part rest : foldr scons (SEnd part rest) e = SEnd (e ++ part) rest.
Proof. induction e as [|c e IH]; [done|]. cbn. by rewrite IH. Qed.

Lemma quote_go_ascii_app t x : ascii_text t -> quote_go 0 0 (t ++ x) = flat_map escape_byte t ++ quote_go 0 0 x.
Proof.
  induction 1 as [|c t Hc _ IH]; [done|]. cbn. apply N.ltb_lt in Hc. by rewrite Hc, IH, app_assoc.
Qed.

Lemma quote_go_ascii t : ascii_text t -> quote_go 0 0 t = flat_map escape_byte t.
Proof. intros Ht. by rewrite <- (app_nil_r t), quote_go_ascii_app, !app_nil_r. Qed.

Lemma scan_escaped_app t x : ascii_text t ->
  scan_str (flat_map escape_byte t ++ x) = foldr scons (scan_str x) (flat_map escape_byte t).
Proof.
  induction 1 as [|c t Hc _ IH]; [done|]. cbn [flat_map].
  by rewrite <- app_assoc, escape_scan, IH, foldr_app.
Qed.

Lemma scan_escaped t rest : ascii_text t ->
  scan_str (flat_map escape_byte t ++ dq :: rest) = SEnd (flat_map escape_byte t) rest.
Proof.
  intros Ht. rewrite scan_escaped_app by done. change (scan_str (dq :: rest)) with (SEnd [] rest).
  by rewrite foldr_scons, app_nil_r.
Qed.

Lemma unquote_escaped_app t x : ascii_text t -> unquote_go 0 (flat_map escape_byte t ++ x) = t ++ unquote_go 0 x.
Proof.
  induction 1 as [|c t Hc _ IH]; [done|]. cbn [flat_map]. by rewrite <- app_assoc, escape_unquote, IH.
Qed.

Lemma unquote_escaped t : ascii_text t -> unquote_go 0 (flat_map escape_byte t) = t.
Proof. intros Ht. by rewrite <- (app_nil_r (flat_map _ t)), unquote_escaped_app, app_nil_r. Qed.

(** A quoted ASCII string scans to its closing quote and unquotes back. *)
Lemma quote_roundtrip s rest : ascii_string s = true ->
  scan_str (quote_body s ++ dq :: rest) = SEnd (quote_body s) rest /\ unquote (quote_body s) = s.
Proof.
  intros Hs%ascii_string_text. unfold quote_body, unquote. rewrite quote_go_ascii by done.
  split; [by apply scan_escaped|]. by rewrite unquote_escaped, string_of_list_ascii_of_string.
Qed.

(** ** Numbers *)

Lemma digits_value_app acc ds ds' : digits_value acc (ds ++ ds') = digits_value (digits_value acc ds) ds'.
Proof. revert acc. induction ds; intros; [done|]. apply IHds. Qed.

Lemma pretty_N_char_digit k : is_digit (pretty_N_char k) = true.
Proof. unfold pretty_N_char. by repeat case_match. Qed.

Lemma pretty_N_char_value k : (k < 10)%N -> (Z.of_N (code (pretty_N_char k)) - 48)%Z = Z.of_N k.
Proof.
  intros Hk. assert (k = 0 \/ k = 1 \/ k = 2 \/ k = 3 \/ k = 4 \/ k = 5 \/ k = 6 \/ k = 7 \/ k = 8 \/ k = 9)%N
    as Hc by lia.
  by repeat destruct Hc as [->|Hc]; [..|subst].
Qed.

Lemma pretty_N_char_digit19 k : (0 < k < 10)%N -> is_digit19 (pretty_N_char k) = true.
Proof.
  intros Hk. assert (k = 1 \/ k = 2 \/ k = 3 \/ k = 4 \/ k = 5 \/ k = 6 \/ k = 7 \/ k = 8 \/ k = 9)%N
    as Hc by lia.
  by repeat destruct Hc as [->|Hc]; [..|subst].
Qed.

Lemma str_cons c s : str (String c s) = c :: str s.
Proof. done. Qed.

(** [strconv.AppendInt]'s digits of a natural number, as stdpp's
    [pretty] writes them: decimal digits, the first not 0, whose value is
    the number. *)
Lemma pretty_N_go_digits x s : exists ds, str (pretty_N_go x s) = ds ++ str s /\
  Forall (fun c => is_digit c = true) ds /\
  (forall acc, digits_value acc ds = acc * 10 ^ Z.of_nat (length ds) + Z.of_N x)%Z /\
  (x = 0%N -> ds = []) /\ (x <> 0%N -> exists c ds', ds = c :: ds' /\ is_digit19 c = true).
Proof.
  revert s. induction (N.lt_wf_0 x) as [x _ IH]; intros s.
  destruct (decide (x = 0%N)) as [->|Hx].
  { exists []. rewrite pretty_N_go_0. split_and!; try done. intros acc. cbn. lia. }
  rewrite pretty_N_go_step by lia.
  destruct (IH (x `div` 10)%N (N.div_lt x 10 ltac:(lia) ltac:(lia)) (String (pretty_N_char (x `mod` 10)) s))
    as (ds & E & Hd & Hv & H0 & Hh).
  exists (ds ++ [pretty_N_char (x `mod` 10)]). rewrite E, str_cons, <- app_assoc. split_and!; [done| | | |].
  - apply Forall_app. split; [done|]. constructor; [apply pretty_N_char_digit|constructor].
  - intros acc. rewrite digits_value_app, Hv. cbn. rewrite pretty_N_char_value by (apply N.mod_lt; lia).
    rewrite length_app, Nat2Z.inj_add, Z.pow_add_r by lia.
    pose proof (N.div_mod x 10 ltac:(lia)). cbn [length Z.of_nat]. rewrite Z.pow_1_r. nia.
  - done.
  - intros _. destruct (decide ((x `div` 10)%N = 0%N)) as [Hz|Hz].
    + rewrite (H0 Hz). eexists _, []. split; [done|]. apply pretty_N_char_digit19.
      pose proof (N.div_mod x 10 ltac:(lia)). pose proof (N.mod_lt x 10 ltac:(lia)). lia.
    + destruct (Hh Hz) as (c & ds' & -> & Hc). by exists c, (ds' ++ [pretty_N_char (x `mod` 10)]).
Qed.

(** One step of [parse_value] on each first byte. *)
Lemma parse_value_space n d c s : is_space c = true -> parse_value n d (c :: s) = parse_value n d s.
Proof. intros Hc. destruct n; [done|]. cbn [parse_value skip_ws]. by rewrite Hc. Qed.

Lemma parse_value_digit19 n d c s : is_digit19 c = true ->
  parse_value (S n) d (c :: s) = after_scan (scan_num NInt s) (fun lit rest => PDone (number_json (c :: lit)) rest).
Proof. destruct c as [[] [] [] [] [] [] [] []]; intros Hc; try (vm_compute in Hc; discriminate); reflexivity. Qed.

Lemma scan_num_neg c s : is_digit19 c = true -> scan_num NNeg (c :: s) = scons c (scan_num NInt s).
Proof. destruct c as [[] [] [] [] [] [] [] []]; intros Hc; try (vm_compute in Hc; discriminate); reflexivity. Qed.

Lemma digit_not_frac c : is_digit c = true -> frac_or_exp c = false /\ Ascii.eqb c "-" = false.
Proof. destruct c as [[] [] [] [] [] [] [] []]; intros Hc; try (vm_compute in Hc; discriminate); done. Qed.

Lemma digit19_digit c : is_digit19 c = true -> is_digit c = true.
Proof. unfold is_digit19, is_digit. rewrite !andb_true_iff, !N.leb_le. lia. Qed.

Lemma scan_num_stop st c s : num_accepting st = true -> is_digit c = false -> frac_or_exp c = false ->
  scan_num st (c :: s) = SEnd [] (c :: s).
Proof.
  unfold frac_or_exp. intros Hst Hd Hf. apply orb_false_elim in Hf as [Hf He]. apply orb_false_elim in Hf as [Hf HE'].
  destruct st; try done; cbn; by rewrite ?Hd, ?Hf, ?He, ?HE'.
Qed.

Lemma scan_num_end st rest : num_accepting st = true -> num_stop rest = true -> scan_num st rest = SEnd [] rest.
Proof.
  intros Hst Hr. destruct rest as [|c rest]; [by cbn; rewrite Hst|].
  apply negb_true_iff, orb_false_elim in Hr as [Hd Hf]. by apply scan_num_stop.
Qed.

Lemma scan_num_digits ds rest : Forall (fun c => is_digit c = true) ds -> num_stop rest = true ->
  scan_num NInt (ds ++ rest) = SEnd ds rest.
Proof.
  intros Hds Hr. induction Hds as [|c ds Hc _ IH]; [by apply scan_num_end|].
  cbn [app scan_num]. by rewrite Hc, IH.
Qed.

Lemma number_json_digits ds : Forall (fun c => is_digit c = true) ds ->
  number_json ds = JNum (digits_value 0 ds) /\ number_json ("-"%char :: ds) = JNum (- digits_value 0 ds)%Z.
Proof.
  intros Hds. assert (Hf : existsb frac_or_exp ds = false).
  { apply not_true_is_false. rewrite existsb_exists. intros (c & Hc & Hfc).
    rewrite Forall_forall in Hds. apply list_elem_of_In, Hds, digit_not_frac in Hc. destruct Hc. congruence. }
  unfold number_json. cbn [existsb]. rewrite Hf. split; [|done].
  destruct Hds as [|c ds Hc _]; [done|]. by rewrite (proj2 (digit_not_frac c Hc)).
Qed.

(** The digits of a nonzero integer. *)
Lemma pretty_pos p : exists c ds, str (pretty (Npos p)) = c :: ds /\ is_digit19 c = true /\
  Forall (fun c => is_digit c = true) ds /\ digits_value 0 (c :: ds) = Zpos p.
Proof.
  destruct (pretty_N_go_digits (Npos p) "") as (ds & E & Hd & Hv & _ & Hh).
  destruct (Hh ltac:(done)) as (c & ds' & -> & Hc). rewrite app_nil_r in E.
  exists c, ds'. unfold pretty, pretty_N. rewrite decide_False by done. split_and!; [done|done|by inversion Hd|].
  rewrite Hv. lia.
Qed.

(** An integer's text parses back, up to a byte that ends it. *)
Lemma parse_num z n d rest : num_stop rest = true ->
  parse_value (S n) d (str (pretty z) ++ rest) = PDone (JNum z) rest.
Proof.
  intros Hr. destruct z as [|p|p].
  - change (str (pretty 0%Z) ++ rest) with ("0"%char :: rest).
    change (parse_value (S n) d ("0"%char :: rest)) with
      (after_scan (scan_num NZero rest) (fun lit rest => PDone (number_json ("0"%char :: lit)) rest)).
    by rewrite scan_num_end.
  - destruct (pretty_pos p) as (c & ds & E & Hc & Hds & Hv).
    change (pretty (Zpos p)) with (pretty (Npos p)). rewrite E. cbn [app].
    rewrite parse_value_digit19, scan_num_digits by done. cbn.
    rewrite (proj1 (number_json_digits (c :: ds) ltac:(constructor; [by apply digit19_digit|done]))). by rewrite Hv.
  - destruct (pretty_pos p) as (c & ds & E & Hc & Hds & Hv).
    change (str (pretty (Zneg p))) with ("-"%char :: str (pretty (Npos p))). rewrite E. cbn [app].
    change (parse_value (S n) d ("-"%char :: c :: ds ++ rest)) with
      (after_scan (scan_num NNeg (c :: ds ++ rest)) (fun lit rest => PDone (number_json ("-"%char :: lit)) rest)).
    rewrite scan_num_neg, scan_num_digits by done. cbn.
    rewrite (proj2 (number_json_digits (c :: ds) ltac:(constructor; [by apply digit19_digit|done]))). by rewrite Hv.
Qed.

(** ** Every value parses back *)

(** A byte a value can start with after [[] or [{]. *)
Definition head_ok (c : ascii) : bool := negb (is_space c) && negb (Ascii.eqb c "]") && negb (Ascii.eqb c "}").

Lemma digit19_head c : is_digit19 c = true -> head_ok c = true.
Proof. destruct c as [[] [] [] [] [] [] [] []]; intros Hc; try (vm_compute in Hc; discriminate); done. Qed.

Lemma encode_head j : json_ok j = true -> exists c t, encode_json j = c :: t /\ head_ok c = true.
Proof.
  intros Hj. destruct j as [|[]|[|p|p]|l|s|xs|kvs]; try done; try (eexists _, _; split; reflexivity).
  destruct (pretty_pos p) as (c & ds & E & Hc & _). exists c, ds. split; [exact E|by apply digit19_head].
Qed.

Lemma skip_ws_head c t : head_ok c = true -> skip_ws (c :: t) = c :: t.
Proof. unfold head_ok. intros [[Hs _]%andb_prop _]%andb_prop. apply negb_true_iff in Hs. by cbn; rewrite Hs. Qed.

Lemma stop_ok_punct j c r : is_digit c = false -> frac_or_exp c = false -> stop_ok j (c :: r) = true.
Proof. intros Hd Hf. destruct j; try done. cbn. by rewrite Hd, Hf. Qed.

Ltac parse_side := first [done | apply stop_ok_punct; done | cbn in *; lia].

Definition parses_back (j : json) : Prop :=
  forall n d rest, json_size j < n -> json_depth j + d <= max_depth -> stop_ok j rest = true ->
    parse_value n d (encode_json j ++ rest) = PDone j rest.

Lemma commas_cons2 t t' ts : commas (t :: t' :: ts) = t ++ ","%char :: commas (t' :: ts).
Proof. done. Qed.

Lemma parse_elems_step n d acc s :
  parse_elems (S n) d acc s =
    match parse_value n d s with
    | PDone v rest =>
      match skip_ws rest with
      | [] => PMore
      | c :: r =>
        if Ascii.eqb c "]" then PDone (JArr (acc ++ [v])) r
        else if Ascii.eqb c "," then parse_elems n d (acc ++ [v]) r
        else PBad (syntax c "after array element")
      end
    | r => r
    end.
Proof. done. Qed.

Lemma parse_elems_encode x xs : Forall (fun y => parses_back y) (x :: xs) ->
  forall n d acc rest, sum_list (map (fun y => json_size y + 2) (x :: xs)) <= n ->
    foldr max 0 (map json_depth (x :: xs)) + d <= max_depth ->
    parse_elems n d acc (commas (map encode_json (x :: xs)) ++ "]"%char :: rest) = PDone (JArr (acc ++ x :: xs)) rest.
Proof.
  revert x. induction xs as [|y xs IH]; intros x Hf n d acc rest Hn Hd; apply Forall_cons in Hf as [Hx Hf];
    cbn [map sum_list foldr id] in *; (destruct n as [|n]; [lia|]); rewrite parse_elems_step.
  - cbn [commas]. rewrite Hx by parse_side. done.
  - rewrite commas_cons2, <- app_assoc. cbn [app]. rewrite Hx by parse_side. cbn -[commas encode_json].
    rewrite IH by parse_side. by rewrite <- app_assoc.
Qed.

Lemma parse_members_step n d acc c s :
  parse_members (S n) d acc (c :: s) =
    after_scan (scan_str s) (fun body rest =>
      match skip_ws rest with
      | [] => PMore
      | c :: rest' =>
        if Ascii.eqb c ":" then
          match parse_value n d rest' with
          | PDone v rest'' =>
            match skip_ws rest'' with
            | [] => PMore
            | c2 :: r =>
              if Ascii.eqb c2 "}" then PDone (JObj (acc ++ [(unquote body, v)])) r
              else if Ascii.eqb c2 "," then
                match skip_ws r with
                | [] => PMore
                | c3 :: r' =>
                  if Ascii.eqb c3 dq then parse_members n d (acc ++ [(unquote body, v)]) (c3 :: r')
                  else PBad (syntax c3 "looking for beginning of object key string")
                end
              else PBad (syntax c2 "after object key:value pair")
            end
          | r => r
          end
        else PBad (syntax c "after object key")
      end).
Proof. done. Qed.

Definition encode_member (kv : string * json) : text := quote kv.1 ++ ":"%char :: encode_json kv.2.

Lemma member_text k v t : encode_member (k, v) ++ t = dq :: quote_body k ++ dq :: ":"%char :: encode_json v ++ t.
Proof. unfold encode_member, quote. cbn. by rewrite <- !app_assoc. Qed.

Lemma parse_member_last n d acc k v rest : ascii_string k = true -> parses_back v ->
  json_size v < n -> json_depth v + d <= max_depth ->
  parse_members (S n) d acc (encode_member (k, v) ++ "}"%char :: rest) = PDone (JObj (acc ++ [(k, v)])) rest.
Proof.
  intros Hk Hv Hn Hd. rewrite member_text, parse_members_step.
  destruct (quote_roundtrip k (":"%char :: encode_json v ++ "}"%char :: rest) Hk) as [Hs Hu].
  rewrite Hs. cbn -[encode_json unquote]. rewrite Hv, Hu by parse_side. done.
Qed.

Lemma parse_member_more n d acc k v t : ascii_string k = true -> parses_back v ->
  json_size v < n -> json_depth v + d <= max_depth ->
  parse_members (S n) d acc (encode_member (k, v) ++ ","%char :: dq :: t) = parse_members n d (acc ++ [(k, v)]) (dq :: t).
Proof.
  intros Hk Hv Hn Hd. rewrite member_text, parse_members_step.
  destruct (quote_roundtrip k (":"%char :: encode_json v ++ ","%char :: dq :: t) Hk) as [Hs Hu].
  rewrite Hs. cbn -[encode_json unquote parse_members]. rewrite Hv, Hu by parse_side. done.
Qed.

Lemma parse_members_encode kv kvs :
  Forall (fun kv => ascii_string kv.1 = true /\ parses_back kv.2) (kv :: kvs) ->
  forall n d acc rest, sum_list (map (fun kv => json_size kv.2 + 2) (kv :: kvs)) <= n ->
    foldr max 0 (map (fun kv => json_depth kv.2) (kv :: kvs)) + d <= max_depth ->
    parse_members n d acc (commas (map encode_member (kv :: kvs)) ++ "}"%char :: rest) = PDone (JObj (acc ++ kv :: kvs)) rest.
Proof.
  revert kv. induction kvs as [|kv' kvs IH]; intros [k v] Hf n d acc rest Hn Hd;
    apply Forall_cons in Hf as [[Hk Hv] Hf]; cbn [map sum_list foldr id fst snd] in *; (destruct n as [|n]; [lia|]).
  - cbn [commas]. by rewrite parse_member_last by parse_side.
  - rewrite commas_cons2, <- app_assoc. cbn [app].
    assert (E : exists t, commas (encode_member kv' :: map encode_member kvs) ++ "}"%char :: rest = dq :: t).
    { destruct kv' as [k' v'], kvs; cbn [map]; [|rewrite commas_cons2, <- app_assoc]; cbn [commas];
        rewrite member_text; by eexists. }
    destruct E as [t E]. rewrite E, parse_member_more, <- E by parse_side.
    rewrite IH by parse_side. by rewrite <- app_assoc.
Qed.

Lemma parse_value_arr n d s :
  parse_value (S n) d ("["%char :: s) =
    if (max_depth <? S d)%nat then PBad (syntax "[" "exceeded max depth") else
    match skip_ws s with
    | [] => PMore
    | c' :: s'' => if Ascii.eqb c' "]" then PDone (JArr []) s'' else parse_elems n (S d) [] (c' :: s'')
    end.
Proof. done. Qed.

Lemma parse_value_obj n d s :
  parse_value (S n) d ("{"%char :: s) =
    if (max_depth <? S d)%nat then PBad (syntax "{" "exceeded max depth") else
    match skip_ws s with
    | [] => PMore
    | c' :: s'' =>
      if Ascii.eqb c' "}" then PDone (JObj []) s''
      else if Ascii.eqb c' dq then parse_members n (S d) [] (c' :: s'')
      else PBad (syntax c' "looking for beginning of object key string")
    end.
Proof. done. Qed.

Lemma parse_value_str n d s :
  parse_value (S n) d (dq :: s) = after_scan (scan_str s) (fun body rest => PDone (JStr (unquote body)) rest).
Proof. done. Qed.

Lemma commas_head t ts r : exists u, commas (t :: ts) ++ r = t ++ u.
Proof. destruct ts; cbn [commas]; [by eexists|]. rewrite <- app_assoc. by eexists. Qed.

Lemma Forall_ok_parses {A} (f : A -> json) (ok : A -> bool) (P : A -> Prop) (l : list A) :
  Forall (fun a => json_ok (f a) = true -> P a) l -> forallb ok l = true ->
  (forall a, ok a = true -> json_ok (f a) = true) -> Forall P l.
Proof.
  intros HF Hb Hok. rewrite forallb_forall in Hb. rewrite Forall_forall in HF |- *.
  intros a Ha. apply HF; [done|]. apply Hok, Hb. by apply list_elem_of_In.
Qed.

(** Every value the encoder writes parses back, followed by anything
    that ends it, with enough fuel and within the nesting limit. *)
Lemma parse_encode j : json_ok j = true -> parses_back j.
Proof.
  induction j as [|b|z|l|s|xs IH|kvs IH] using json_ind'; intros Hok n d rest Hn Hd Hst;
    (destruct n as [|n]; [lia|]); try done.
  - by destruct b.
  - by apply parse_num.
  - cbn in Hok. cbn [encode_json]. unfold quote. cbn [app]. rewrite parse_value_str, <- app_assoc. cbn [app].
    destruct (quote_roundtrip s rest Hok) as [Hs Hu]. rewrite Hs. cbn. by rewrite Hu.
  - cbn [encode_json app]. rewrite parse_value_arr, <- app_assoc. cbn [app]. cbn in Hd, Hn.
    rewrite (proj2 (Nat.ltb_ge _ _)) by lia. destruct xs as [|x xs]; [done|].
    pose proof (Forall_ok_parses id json_ok _ _ IH Hok ltac:(done)) as HF.
    destruct (commas_head (encode_json x) (map encode_json xs) ("]"%char :: rest)) as [u Hu].
    cbn [map] in *. rewrite Hu.
    destruct (encode_head x ltac:(by apply andb_prop in Hok as [])) as (c & t & Ex & Hc). rewrite Ex. cbn [app].
    rewrite skip_ws_head by done. unfold head_ok in Hc. apply andb_prop in Hc as [[_ Hc]%andb_prop _].
    apply negb_true_iff in Hc. rewrite Hc. change (c :: t ++ u) with ((c :: t) ++ u).
    rewrite <- Ex, <- Hu. apply (parse_elems_encode x xs HF n (S d) [] rest); cbn [map]; lia.
  - cbn [encode_json app]. rewrite parse_value_obj, <- app_assoc. cbn [app]. cbn in Hd, Hn.
    rewrite (proj2 (Nat.ltb_ge _ _)) by lia. destruct kvs as [|[k v] kvs]; [done|].
    assert (HF : Forall (fun kv => ascii_string kv.1 = true /\ parses_back kv.2) ((k, v) :: kvs)).
    { apply Forall_and. split.
      - apply Forall_forall. intros kv Hkv.
        change (forallb (fun kv => ascii_string kv.1 && json_ok kv.2) ((k, v) :: kvs) = true) in Hok.
        rewrite forallb_forall in Hok.
        apply list_elem_of_In, Hok in Hkv. by apply andb_prop in Hkv as [].
      - apply (Forall_ok_parses snd (fun kv => ascii_string kv.1 && json_ok kv.2) _ _ IH Hok).
        intros ? [_ ?]%andb_prop; done. }
    change (map (fun kv => quote kv.1 ++ ":"%char :: encode_json kv.2) ((k, v) :: kvs))
      with (map encode_member ((k, v) :: kvs)).
    destruct (commas_head (encode_member (k, v)) (map encode_member kvs) ("}"%char :: rest)) as [u Hu].
    cbn [map] in *. rewrite Hu, member_text, skip_ws_head by done.
    change (Ascii.eqb dq "}") with false. change (Ascii.eqb dq dq) with true. cbv iota beta.
    rewrite <- member_text, <- Hu. apply (parse_members_encode (k, v) kvs HF n (S d) [] rest); cbn [map]; lia.
Qed.

(** ** More input never changes a settled result *)

Definition sext (r : scanned) (q : text) : scanned :=
  match r with SEnd p rest => SEnd p (rest ++ q) | r => r end.

Lemma sext_scons c r q : sext (scons c r) q = scons c (sext r q).
Proof. by destruct r. Qed.

Lemma scons_more c r : scons c r <> SMore -> r <> SMore.
Proof. by destruct r. Qed.

Ltac scan_ext_step :=
  repeat match goal with
  | H : scons _ _ <> SMore |- _ => apply scons_more in H
  | |- context [sext (scons _ _) _] => rewrite sext_scons
  end.

Lemma scan_str_ext s q :
  (scan_str s <> SMore -> scan_str (s ++ q) = sext (scan_str s) q) /\
  (scan_esc s <> SMore -> scan_esc (s ++ q) = sext (scan_esc s) q) /\
  (forall k, scan_hex k s <> SMore -> scan_hex k (s ++ q) = sext (scan_hex k s) q).
Proof.
  induction s as [|c s (I1 & I2 & I3)]; [done|].
  split_and!; [intros H|intros H|intros k H]; cbn [app scan_str scan_esc scan_hex] in *;
    repeat case_match; try done; scan_ext_step; f_equal; auto.
Qed.

Definition num_settled (r : scanned) : Prop :=
  match r with SEnd _ rest => rest <> [] | SBad _ => True | SMore => False end.

Lemma num_settled_scons c r : num_settled (scons c r) -> num_settled r.
Proof. by destruct r. Qed.

Lemma scan_num_ext st s q : num_settled (scan_num st s) -> scan_num st (s ++ q) = sext (scan_num st s) q.
Proof.
  revert st. induction s as [|c s IH]; intros st H; [by destruct st; cbn in H|].
  cbn [app scan_num] in *. destruct st; repeat case_match; try done;
    apply num_settled_scons in H; rewrite sext_scons; f_equal; auto.
Qed.

Lemma scan_lit_ext name e s q : scan_lit name e s <> SMore -> scan_lit name e (s ++ q) = sext (scan_lit name e s) q.
Proof. revert s. induction e as [|x e IH]; intros [|c s] H; cbn in *; try done. case_match; auto. Qed.

Lemma skip_ws_ext s q : skip_ws s <> [] -> skip_ws (s ++ q) = skip_ws s ++ q.
Proof. induction s as [|c s IH]; intros H; cbn in *; [done|]. case_match; auto. Qed.

Lemma scons_send c r p rest : scons c r = SEnd p rest -> exists p', r = SEnd p' rest.
Proof. destruct r; intros; simplify_eq/=; eauto. Qed.

(** Scanning consumes input. *)
Lemma scan_str_len s :
  (forall p rest, scan_str s = SEnd p rest -> length rest < length s) /\
  (forall p rest, scan_esc s = SEnd p rest -> length rest < length s) /\
  (forall k p rest, scan_hex k s = SEnd p rest -> length rest < length s).
Proof.
  induction s as [|c s (I1 & I2 & I3)]; [done|].
  split_and!; [intros p rest H|intros p rest H|intros k p rest H]; cbn [scan_str scan_esc scan_hex length] in *;
    repeat case_match; simplify_eq; try lia;
    apply scons_send in H as [p' H]; first [apply I1 in H | apply I2 in H | apply I3 in H]; lia.
Qed.

Lemma scan_num_len st s p rest : scan_num st s = SEnd p rest -> length rest <= length s.
Proof.
  revert st p. induction s as [|c s IH]; intros st p H; cbn in H; [destruct (num_accepting st); by simplify_eq|].
  destruct st; repeat case_match; simplify_eq; cbn; try lia;
    apply scons_send in H as [p' H]; apply IH in H; lia.
Qed.

Lemma scan_lit_len name e s p rest : scan_lit name e s = SEnd p rest -> length rest <= length s.
Proof. revert s. induction e as [|x e IH]; intros [|c s] H; cbn in H; simplify_eq; cbn; try lia. case_match; [|done]. apply IH in H; lia. Qed.

Lemma skip_ws_len s : length (skip_ws s) <= length s.
Proof. induction s; cbn; [lia|]. case_match; cbn; lia. Qed.

Definition pext (r : parsed) (q : text) : parsed :=
  match r with PDone j rest => PDone j (rest ++ q) | r => r end.

Definition is_number (j : json) : bool := match j with JNum _ | JFloat _ => true | _ => false end.

(** A result more input cannot change: an error, or a value whose end
    is known (a number needs the byte after it). *)
Definition settled (r : parsed) : Prop :=
  match r with PDone j rest => is_number j = false \/ rest <> [] | PBad _ => True | _ => False end.

Lemma number_json_is_number lit : is_number (number_json lit) = true.
Proof. unfold number_json. by repeat case_match. Qed.

Lemma after_scan_ext r q (f : text -> json) :
  r <> SMore -> after_scan (sext r q) (fun p rest => PDone (f p) rest) = pext (after_scan r (fun p rest => PDone (f p) rest)) q.
Proof. by destruct r. Qed.

Lemma after_scan_num r (f : text -> json) : (forall p, is_number (f p) = true) ->
  settled (after_scan r (fun p rest => PDone (f p) rest)) -> num_settled r.
Proof. intros Hf. destruct r; cbn; [|done..]. rewrite Hf. by intros [|]. Qed.


Lemma settled_scan r k : settled (after_scan r k) -> r <> SMore.
Proof. by destruct r. Qed.

(** Rewrites a scan of [s ++ q] once the scan of [s] is settled. *)
Ltac scan_ext H :=
  match goal with
  | |- context [after_scan (scan_str (?s ++ ?q)) _] =>
      rewrite (proj1 (scan_str_ext s q)) by exact (settled_scan _ _ H); apply after_scan_ext, (settled_scan _ _ H)
  | |- context [after_scan (scan_lit ?nm ?e (?s ++ ?q)) _] =>
      rewrite (scan_lit_ext nm e s q) by exact (settled_scan _ _ H); apply after_scan_ext, (settled_scan _ _ H)
  | |- context [after_scan (scan_num ?st (?s ++ ?q)) _] =>
      rewrite (scan_num_ext st s q) by exact (after_scan_num _ _ (fun _ => number_json_is_number _) H);
      apply after_scan_ext, (settled_scan _ _ H)
  end.

Ltac ws_ext H :=
  match goal with
  | |- context [skip_ws (?t ++ ?q)] =>
    let E := fresh "E" in
    destruct (skip_ws t) as [|? ?] eqn:E;
    [exfalso; simpl in H; exact H | rewrite (skip_ws_ext t q) by (rewrite E; discriminate); rewrite E; cbn [app]]
  end.

Ltac split_tests :=
  repeat match goal with
  | |- context [if Ascii.eqb ?c ?x then _ else _] => destruct (Ascii.eqb c x)
  | |- context [if is_digit19 ?c then _ else _] => destruct (is_digit19 c)
  | |- context [if (max_depth <? ?k)%nat then _ else _] => destruct (max_depth <? k)%nat
  end.

Lemma parse_ext n :
  (forall d s q, settled (parse_value n d s) -> parse_value n d (s ++ q) = pext (parse_value n d s) q) /\
  (forall d acc s q, settled (parse_members n d acc s) ->
     parse_members n d acc (s ++ q) = pext (parse_members n d acc s) q) /\
  (forall d acc s q, settled (parse_elems n d acc s) ->
     parse_elems n d acc (s ++ q) = pext (parse_elems n d acc s) q).
Proof.
  induction n as [|n (IHv & IHm & IHe)]; [done|]. split_and!.
  - intros d s q H. cbn [parse_value] in H |- *. ws_ext H. split_tests; try done; try ws_ext H; split_tests;
      try done; try (exact (IHm _ _ (_ :: _) q H)); try (exact (IHe _ _ (_ :: _) q H)); scan_ext H.
  - intros d acc [|c0 s] q H; [done|]. cbn [app]. rewrite !parse_members_step in *.
    destruct (scan_str s) as [body rest| |e] eqn:E; [|done|].
    2: { by rewrite (proj1 (scan_str_ext s q)), E by (rewrite E; done). }
    rewrite (proj1 (scan_str_ext s q)), E by (rewrite E; done). cbn [sext after_scan] in *.
    ws_ext H. destruct (Ascii.eqb _ ":"); [|done].
    destruct (parse_value n d _) as [v r2| |e|] eqn:E3 in H |- *; try done.
    + destruct (skip_ws r2) eqn:E4; [exfalso; exact H|].
      rewrite (IHv d _ q), E3 by (rewrite E3; right; by intros ->). cbn [pext].
      rewrite (skip_ws_ext r2 q), E4 by (rewrite E4; discriminate). cbn [app].
      split_tests; try done. ws_ext H. split_tests; try done. exact (IHm _ _ (_ :: _) q H).
    + by rewrite (IHv d _ q), E3 by (rewrite E3; done).
  - intros d acc s q H. cbn [parse_elems] in H |- *.
    destruct (parse_value n d s) as [v r2| |e|] eqn:E3 in H |- *; try done.
    + destruct (skip_ws r2) eqn:E4; [exfalso; exact H|].
      rewrite (IHv d s q), E3 by (rewrite E3; right; by intros ->). cbn [pext].
      rewrite (skip_ws_ext r2 q), E4 by (rewrite E4; discriminate). cbn [app].
      split_tests; try done. exact (IHe _ _ _ q H).
    + by rewrite (IHv d s q), E3 by (rewrite E3; done).
Qed.

(** ** Fuel *)

Lemma parse_fuel n :
  (forall d s m, parse_value n d s <> POut -> n <= m -> parse_value m d s = parse_value n d s) /\
  (forall d acc s m, parse_members n d acc s <> POut -> n <= m -> parse_members m d acc s = parse_members n d acc s) /\
  (forall d acc s m, parse_elems n d acc s <> POut -> n <= m -> parse_elems m d acc s = parse_elems n d acc s).
Proof.
  induction n as [|n (IHv & IHm & IHe)]; [done|]. split_and!.
  - intros d s [|m] H Hle; [lia|]. cbn [parse_value] in H |- *.
    repeat (case_match; try done); [apply IHm|apply IHe]; (done || lia).
  - intros d acc [|c0 s] [|m] H Hle; try lia; [done|]. rewrite !parse_members_step in *.
    destruct (scan_str s); try done. cbn [after_scan] in *. destruct (skip_ws _); [done|].
    destruct (Ascii.eqb _ ":"); [|done].
    destruct (parse_value n d _) as [v r2| |e|] eqn:E3; [| | |done];
      rewrite (IHv _ _ m), E3 by (rewrite ?E3; (done || lia)); [|done..].
    repeat (case_match; try done). apply IHm; (done || lia).
  - intros d acc s [|m] H Hle; [lia|]. cbn [parse_elems] in H |- *.
    destruct (parse_value n d s) as [v r2| |e|] eqn:E3; [| | |done];
      rewrite (IHv _ _ m), E3 by (rewrite ?E3; (done || lia)); [|done..].
    repeat (case_match; try done). apply IHe; (done || lia).
Qed.

(** A parsed value consumes input. *)
Ltac len_facts :=
  repeat match goal with
  | H : skip_ws ?t = ?u |- _ => pose proof (skip_ws_len t); rewrite H in *; clear H
  | H : scan_str ?t = SEnd _ _ |- _ => apply (proj1 (scan_str_len t)) in H
  | H : scan_num _ ?t = SEnd _ _ |- _ => apply scan_num_len in H
  | H : scan_lit _ _ ?t = SEnd _ _ |- _ => apply scan_lit_len in H
  end; cbn [length] in *.

Lemma parse_len n :
  (forall d s j r, parse_value n d s = PDone j r -> length r < length s) /\
  (forall d acc s j r, parse_members n d acc s = PDone j r -> length r < length s) /\
  (forall d acc s j r, parse_elems n d acc s = PDone j r -> length r < length s).
Proof.
  induction n as [|n (IHv & IHm & IHe)]; [done|]. split_and!.
  - intros d s j r H. cbn [parse_value] in H. repeat (case_match; try done); unfold after_scan in H;
      repeat (case_match; try done); simplify_eq;
      try (apply IHm in H || apply IHe in H); len_facts; lia.
  - intros d acc [|c0 s] j r H; [done|]. rewrite parse_members_step in H. unfold after_scan in H.
    repeat (case_match; try done); simplify_eq;
      repeat match goal with
      | E : parse_value _ _ _ = PDone _ _ |- _ => apply IHv in E
      | E : parse_members _ _ _ _ = PDone _ _ |- _ => apply IHm in E
      end; len_facts; lia.
  - intros d acc s j r H. cbn [parse_elems] in H. repeat (case_match; try done); simplify_eq;
      repeat match goal with
      | E : parse_value _ _ _ = PDone _ _ |- _ => apply IHv in E
      | E : parse_elems _ _ _ _ = PDone _ _ |- _ => apply IHe in E
      end; len_facts; lia.
Qed.

(** The fuel [decode_next] gives, twice the length of the buffer, is
    enough: [parse_value] never runs out of it. *)
Lemma parse_total n :
  (forall d s, parse_value n d s = POut -> n <= 2 * length s) /\
  (forall d acc s, parse_members n d acc s = POut -> n <= 2 * length s) /\
  (forall d acc s, parse_elems n d acc s = POut -> n <= 2 * length s + 1).
Proof.
  induction n as [|n (IHv & IHm & IHe)]; [split_and!; intros; lia|]. split_and!.
  - intros d s H. cbn [parse_value] in H. repeat (case_match; try done); unfold after_scan in H;
      repeat (case_match; try done); try (apply IHm in H || apply IHe in H); len_facts; lia.
  - intros d acc [|c0 s] H; [done|]. rewrite parse_members_step in H. unfold after_scan in H.
    repeat (case_match; try done); simplify_eq;
      repeat match goal with
      | E : parse_value _ _ _ = PDone _ _ |- _ => apply (proj1 (parse_len _)) in E
      | E : parse_value _ _ _ = POut |- _ => apply IHv in E
      | E : parse_members _ _ _ _ = POut |- _ => apply IHm in E
      end; len_facts; lia.
  - intros d acc s H. cbn [parse_elems] in H. repeat (case_match; try done); simplify_eq;
      repeat match goal with
      | E : parse_value _ _ _ = PDone _ _ |- _ => apply (proj1 (parse_len _)) in E
      | E : parse_value _ _ _ = POut |- _ => apply IHv in E
      | E : parse_elems _ _ _ _ = POut |- _ => apply IHe in E
      end; len_facts; lia.
Qed.

Lemma decode_parse_total s : parse_value (S (2 * length s)) 0 s <> POut.
Proof. intros H. apply (proj1 (parse_total _)) in H. lia. Qed.

(** At the decoder's fuel, [parse_value] gives what any larger fuel gives. *)
Lemma decode_parse_fuel s m : S (2 * length s) <= m -> parse_value m 0 s = parse_value (S (2 * length s)) 0 s.
Proof. intros Hm. apply (proj1 (parse_fuel _)); [apply decode_parse_total|done]. Qed.

(** ** The decoder on a stream *)

Lemma decode_next_value_len eof buf j rest : decode_next eof buf = DValue j rest -> length rest < length buf.
Proof.
  unfold decode_next. destruct (parse_value _ 0 buf) eqn:E; repeat case_match; intros; simplify_eq.
  all: by apply (proj1 (parse_len _)) in E.
Qed.

Lemma decode_items_go_fuel n m eof buf : length buf < n -> length buf < m ->
  decode_items_go n eof buf = decode_items_go m eof buf.
Proof.
  revert m buf. induction n as [|n IH]; intros [|m] buf Hn Hm; try lia. cbn.
  destruct (decode_next eof buf) as [j rest| |e] eqn:E; try done.
  apply decode_next_value_len in E. f_equal. apply IH; lia.
Qed.

Lemma decode_items_unfold eof buf : decode_items eof buf =
  match decode_next eof buf with
  | DValue j rest => RJson j :: decode_items eof rest
  | DBlock | DErr EOF => []
  | DErr e => [RErr e]
  end.
Proof.
  unfold decode_items at 1. cbn [decode_items_go]. destruct (decode_next eof buf) eqn:E; try done.
  apply decode_next_value_len in E. f_equal. apply decode_items_go_fuel; lia.
Qed.

Lemma decode_next_space eof c s : is_space c = true -> decode_next eof (c :: s) = decode_next eof s.
Proof.
  intros Hc. unfold decode_next. rewrite parse_value_space by done.
  rewrite (decode_parse_fuel s) by (cbn; lia). cbn [forallb]. by rewrite Hc.
Qed.

Lemma decode_items_space eof c s : is_space c = true -> decode_items eof (c :: s) = decode_items eof s.
Proof. intros Hc. rewrite !(decode_items_unfold eof). by rewrite decode_next_space. Qed.

(** Without EOF, a value or an error found in [p] stays when more
    bytes arrive. *)
Lemma decode_next_ext p q j r : decode_next false p = DValue j r -> decode_next false (p ++ q) = DValue j (r ++ q).
Proof.
  unfold decode_next. destruct (parse_value (S (2 * length p)) 0 p) as [j' r'| | |] eqn:E; try by intros.
  intros H. destruct (needs_lookahead j' && bool_decide (r' = []) && negb false) eqn:Hr; [done|]. simplify_eq.
  assert (Hs : settled (PDone j r)).
  { destruct r as [|c r]; [|by right]. left. rewrite bool_decide_eq_true_2 in Hr by done. destruct j; done. }
  pose proof (proj1 (parse_ext (S (2 * length p))) 0 p q) as Hx. rewrite E in Hx. specialize (Hx Hs).
  rewrite <- (proj1 (parse_fuel (S (2 * length p))) 0 (p ++ q) (S (2 * length (p ++ q)))) in Hx
    by (first [rewrite Hx; discriminate | rewrite length_app; lia]).
  rewrite Hx. cbn. destruct (needs_lookahead j) eqn:Hl; [|done].
  rewrite bool_decide_eq_false_2; [done|]. intros Hnil. apply app_eq_nil in Hnil as [-> ->].
  by rewrite bool_decide_eq_true_2 in Hr.
Qed.

Lemma decode_next_err p q e : decode_next false p = DErr e -> decode_next false (p ++ q) = DErr e.
Proof.
  unfold decode_next. destruct (parse_value (S (2 * length p)) 0 p) as [j' r'| |e'|] eqn:E;
    try (by repeat case_match); intros [= <-].
  pose proof (proj1 (parse_ext (S (2 * length p))) 0 p q) as Hx. rewrite E in Hx. specialize (Hx I).
  rewrite <- (proj1 (parse_fuel (S (2 * length p))) 0 (p ++ q) (S (2 * length (p ++ q)))) in Hx
    by (first [rewrite Hx; discriminate | rewrite length_app; lia]).
  by rewrite Hx.
Qed.

(** [Decode] is incremental: what the decoder returns from the bytes it
    has is a prefix of what it returns once more bytes have arrived. *)
Lemma decode_items_incremental p q : decode_items false p `prefix_of` decode_items false (p ++ q).
Proof.
  remember (length p) as k eqn:Hk. revert p Hk. induction k as [k IH] using lt_wf_ind. intros p ->.
  rewrite (decode_items_unfold false p), (decode_items_unfold false (p ++ q)).
  destruct (decode_next false p) as [j r| |e] eqn:E.
  - rewrite (decode_next_ext p q j r E). apply prefix_cons.
    apply (IH (length r)); [by apply decode_next_value_len in E|done].
  - apply prefix_nil.
  - by rewrite (decode_next_err p q e E).
Qed.

Definition frame_ok (j : json) : Prop := json_ok j = true /\ json_depth j <= max_depth.

Lemma parse_encoded j rest : frame_ok j -> stop_ok j rest = true ->
  parse_value (S (2 * length (encode_json j ++ rest))) 0 (encode_json j ++ rest) = PDone j rest.
Proof.
  intros [Hok Hd] Hst. rewrite <- (decode_parse_fuel _ (S (json_size j) + S (2 * length (encode_json j ++ rest)))) by lia.
  apply (parse_encode j Hok); lia || done.
Qed.

Lemma parse_frame j t : frame_ok j ->
  parse_value (S (2 * length (encode_frame j ++ t))) 0 (encode_frame j ++ t) = PDone j ("010"%char :: t).
Proof.
  intros Hj. unfold encode_frame. rewrite <- app_assoc. apply parse_encoded; [done|by apply stop_ok_punct].
Qed.

(** A frame is read as its value, leaving the newline. *)
Lemma decode_next_frame eof j t : frame_ok j ->
  decode_next eof (encode_frame j ++ t) = DValue j ("010"%char :: t).
Proof.
  intros Hj. unfold decode_next. rewrite parse_frame, bool_decide_eq_false_2 by done. by rewrite andb_false_r.
Qed.

Lemma decode_items_frames eof js t : Forall frame_ok js ->
  decode_items eof (frames js ++ t) = map RJson js ++ decode_items eof t.
Proof.
  induction 1 as [|j js Hj _ IH]; [done|]. cbn [frames flat_map map].
  rewrite <- app_assoc, decode_items_unfold, decode_next_frame by done.
  change (flat_map encode_frame js) with (frames js). by rewrite decode_items_space, IH.
Qed.

Lemma decode_items_nil eof : decode_items eof [] = [].
Proof. by destruct eof. Qed.

(** Results that settle on a prefix of a frame are the frame's. *)
Lemma parse_prefix_frame j t u : frame_ok j -> t ++ u = encode_frame j ->
  forall r, parse_value (S (2 * length t)) 0 t = r -> settled r -> exists r', r = PDone j r' /\ r' ++ u = ["010"%char].
Proof.
  intros Hj Htu r Hr Hs. pose proof (proj1 (parse_ext (S (2 * length t))) 0 t u) as Hx. rewrite Hr in Hx.
  specialize (Hx Hs). rewrite <- (proj1 (parse_fuel (S (2 * length t))) 0 (t ++ u) (S (2 * length (t ++ u)))) in Hx;
    [|rewrite Hx; by destruct r|rewrite length_app; lia].
  rewrite Htu, <- (app_nil_r (encode_frame j)), parse_frame in Hx by done.
  destruct r; simplify_eq/=; eauto.
Qed.

(** Parsing never makes a number of a value that starts otherwise. *)
Lemma parse_members_obj n d acc s j r : parse_members n d acc s = PDone j r -> is_number j = false.
Proof.
  revert acc s. induction n as [|n IH]; intros acc [|c s] H; try done. rewrite parse_members_step in H.
  unfold after_scan in H. repeat (case_match; try done); simplify_eq; try done. by apply IH in H.
Qed.

Lemma parse_elems_arr n d acc s j r : parse_elems n d acc s = PDone j r -> is_number j = false.
Proof.
  revert acc s. induction n as [|n IH]; intros acc s H; try done. cbn [parse_elems] in H.
  repeat (case_match; try done); simplify_eq; try done. by apply IH in H.
Qed.

Lemma parse_nonnum_head n d c s j r : is_space c = false -> is_digit c = false -> Ascii.eqb c "-" = false ->
  parse_value n d (c :: s) = PDone j r -> is_number j = false.
Proof.
  intros Hs Hd Hm H. destruct n as [|n]; [done|]. cbn [parse_value skip_ws] in H. rewrite Hs in H.
  assert (H0 : Ascii.eqb c "0" = false) by (destruct (Ascii.eqb_spec c "0"); by subst).
  assert (H19 : is_digit19 c = false) by (destruct (is_digit19 c) eqn:E; [by rewrite digit19_digit in Hd|done]).
  rewrite Hm, H0, H19 in H. unfold after_scan in H.
  repeat (case_match; try done); simplify_eq; try done;
    [eapply parse_members_obj|eapply parse_elems_arr]; eauto.
Qed.

Lemma encode_head_nonnum j : json_ok j = true -> is_number j = false ->
  exists c t, encode_json j = c :: t /\ is_space c = false /\ is_digit c = false /\ Ascii.eqb c "-" = false.
Proof. intros Hok Hn. destruct j as [|[]| | | | |]; try done; by eexists _, _. Qed.

(** What [json_marshal] makes of a value whose strings are ASCII is a
    frame the decoder reads back: no float, one level of nesting. *)
Definition scalar_ascii (s : scalar) : bool := match s with SString x => ascii_string x | _ => true end.
Definition val_ascii (v : Val) : bool :=
  match v with
  | VScalar s => scalar_ascii s
  | VStruct _ _ fs => forallb (fun fs => ascii_string fs.1 && scalar_ascii fs.2) fs
  end.

Lemma marshal_scalar_ok s : scalar_ascii s = true -> json_ok (marshal_scalar s) = true /\ json_depth (marshal_scalar s) = 0.
Proof. by destruct s. Qed.

Lemma marshal_frame_ok v j : val_ascii v = true -> json_marshal v = inr j -> frame_ok j.
Proof.
  intros Hv Hm. destruct v as [s|p n fs]; cbn in Hv, Hm; injection Hm as <-.
  - destruct (marshal_scalar_ok s Hv) as [H1 H2]. split; [done|rewrite H2; lia].
  - assert (Hs : forallb (fun kv => ascii_string kv.1 && json_ok kv.2) (map (fun '(f, s) => (f, marshal_scalar s)) fs) = true
      /\ foldr max 0 (map (fun kv => json_depth kv.2) (map (fun '(f, s) => (f, marshal_scalar s)) fs)) = 0).
    { induction fs as [|[f s] fs IH]; [done|]. cbn in Hv |- *. apply andb_true_iff in Hv as [[Hf Hs]%andb_true_iff Hfs].
      destruct (IH Hfs) as [-> ->]. destruct (marshal_scalar_ok s Hs) as [-> ->]. by rewrite Hf. }
    destruct Hs as [H1 H2]. split; [done|]. cbn. rewrite H2. apply Nat.leb_le. reflexivity.
Qed.

(** ** The stream of frames: what a [recvLoop] reads *)

(** Frames read back, however the bytes arrive: a stream of frames,
    as [Encoder.Encode] writes them, decodes at EOF or before it to the
    values it carries, and every prefix the connection has delivered so
    far decodes to a prefix of them. *)
Lemma frames_read_back js : Forall frame_ok js ->
  (forall eof, decode_items eof (frames js) = map RJson js) /\
  (forall p q, p ++ q = frames js -> decode_items false p `prefix_of` map RJson js).
Proof.
  intros Hjs. assert (Hall : forall eof, decode_items eof (frames js) = map RJson js).
  { intros eof. rewrite <- (app_nil_r (frames js)), decode_items_frames, decode_items_nil by done. apply app_nil_r. }
  split; [done|]. intros p q Hpq. rewrite <- (Hall false), <- Hpq. apply decode_items_incremental.
Qed.

(** A frame torn by the end of the stream: when the connection
    closes after a non-empty proper prefix [t] of a frame whose value is
    not a number, the values before it arrive and then the decoder
    reports [io.ErrUnexpectedEOF], unless only the newline was lost, in
    which case the value still arrives. *)
Lemma torn_frame_at_eof js j t u : Forall frame_ok js -> frame_ok j -> is_number j = false ->
  t ++ u = encode_frame j -> t <> [] -> u <> [] ->
  decode_items true (frames js ++ t) =
    map RJson js ++ [if bool_decide (u = ["010"%char]) then RJson j else RErr ErrUnexpectedEOF].
Proof.
  intros Hjs Hj Hn Htu Ht Hu. rewrite decode_items_frames by done. f_equal.
  rewrite decode_items_unfold. unfold decode_next. case_bool_decide as Hnl.
  - subst u. unfold encode_frame in Htu. apply app_inj_tail in Htu as [-> _].
    rewrite <- (app_nil_r (encode_json j)), parse_encoded by (done || by destruct j).
    by rewrite andb_false_r, decode_items_nil.
  - destruct (encode_head_nonnum j) as (c & t0 & Hc & Hs & Hd & Hm); [apply Hj|done|].
    destruct t as [|c' t']; [done|].
    assert (c' = c) as -> by (unfold encode_frame in Htu; rewrite Hc in Htu; cbn in Htu; congruence).
    assert (Hset : forall r, parse_value (S (2 * length (c :: t'))) 0 (c :: t') = r -> settled r -> False).
    { intros r Hr Hs'. destruct (parse_prefix_frame j _ u Hj Htu r Hr Hs') as (r' & -> & Hr').
      destruct r' as [|x r']; [by apply Hnl|]. injection Hr' as _ Hr'.
      by apply app_eq_nil in Hr' as [_ ->]. }
    destruct (parse_value _ 0 (c :: t')) as [j' r'| |e|] eqn:E.
    + exfalso. apply (Hset _ eq_refl). left. by eapply parse_nonnum_head.
    + cbn [forallb]. by rewrite Hs.
    + exfalso. by apply (Hset _ eq_refl).
    + by apply decode_parse_total in E.
Qed.

(** ** Integers cut short *)

Lemma pretty_N_go_app x s : str (pretty_N_go x s) = str (pretty_N_go x "") ++ str s.
Proof.
  revert s. induction (N.lt_wf_0 x) as [x _ IH]; intros s.
  destruct (decide (x = 0%N)) as [->|Hx]; [by rewrite !pretty_N_go_0|].
  rewrite !(pretty_N_go_step x) by lia.
  assert (Hlt : (x / 10 < x)%N) by (apply N.div_lt; lia).
  by rewrite (IH _ Hlt (String _ s)), (IH _ Hlt (String _ "")), <- app_assoc.
Qed.

(** [strconv.AppendInt] of [x] is that of [x / 10] followed by one digit. *)
Lemma pretty_N_last x : (10 <= x)%N ->
  str (pretty x) = str (pretty (x / 10)%N) ++ [pretty_N_char (x mod 10)].
Proof.
  intros Hx. assert (Hq : (x / 10 <> 0)%N) by (rewrite N.div_small_iff; lia).
  unfold pretty, pretty_N. rewrite !decide_False by lia.
  by rewrite (pretty_N_go_step x) by lia; rewrite pretty_N_go_app.
Qed.

Lemma pretty_Z_sign z : str (pretty z) = (if (z <? 0)%Z then ["-"%char] else []) ++ str (pretty (Z.to_N (Z.abs z))).
Proof. by destruct z. Qed.

Lemma quot10 z : (10 <= Z.abs z)%Z -> Z.abs (Z.quot z 10) = (Z.abs z / 10)%Z /\ (Z.quot z 10 <? 0)%Z = (z <? 0)%Z.
Proof.
  intros H. destruct (Z.le_gt_cases 0 z).
  - rewrite Z.quot_div_nonneg by lia. rewrite !Z.abs_eq in * by (try apply Z.div_pos; lia).
    split; [done|]. pose proof (Z.div_pos z 10). rewrite !(proj2 (Z.ltb_ge _ _)); lia.
  - replace (Z.quot z 10) with (- Z.quot (-z) 10)%Z by (rewrite Z.quot_opp_l; lia).
    rewrite Z.quot_div_nonneg, Z.abs_opp, (Z.abs_neq z), Z.abs_eq by (try apply Z.div_pos; lia).
    split; [done|]. rewrite (Z.abs_neq z) in H by lia. pose proof (Z.div_le_lower_bound (-z) 10 1).
    rewrite !(proj2 (Z.ltb_lt _ _)); lia.
Qed.

Lemma pretty_Z_last z : (10 <= Z.abs z)%Z ->
  exists c, str (pretty z) = str (pretty (Z.quot z 10)) ++ [c].
Proof.
  intros H. destruct (quot10 z H) as [Ha Hs]. rewrite !(pretty_Z_sign (Z.quot z 10)), Ha, Hs, pretty_Z_sign.
  rewrite Z2N.inj_div, pretty_N_last by lia. eexists. by rewrite app_assoc.
Qed.

(** ** Bytes that are not UTF-8 *)

Lemma str_app a b : str (a +:+ b) = str a ++ str b.
Proof. induction a as [|c a IH]; [done|]. exact (f_equal (cons c) IH). Qed.

(** The escape [appendString] writes for an invalid byte, and the bytes
    [unquoteBytes] makes of it: U+FFFD in UTF-8. *)
Definition replacement_escape : text := [bsl; "u"; "f"; "f"; "f"; "d"]%char.
Definition replacement_bytes : text := ["239"; "191"; "189"]%char.

Lemma utf8_bad_lead c s : (128 <= code c)%N -> (code c < 0xC2 \/ 0xF4 < code c)%N ->
  utf8_decode (c :: s) = (rune_error, 1).
Proof.
  intros H1 H2. unfold utf8_decode. cbv beta zeta.
  assert (E1 : (Z.of_N (code c) <? 0x80)%Z = false) by (apply Z.ltb_ge; lia).
  assert (E2 : ((Z.of_N (code c) <? 0xC2) || (0xF4 <? Z.of_N (code c)))%Z = true)
    by (apply orb_true_iff; rewrite !Z.ltb_lt; lia).
  by rewrite E1, E2.
Qed.

Lemma quote_go_bad_lead c s : (128 <= code c)%N -> (code c < 0xC2 \/ 0xF4 < code c)%N ->
  quote_go 0 0 (c :: s) = replacement_escape ++ quote_go 0 0 s.
Proof.
  intros H1 H2. cbn [quote_go]. rewrite utf8_bad_lead by done.
  by rewrite (proj2 (N.ltb_ge _ _)) by lia.
Qed.

Lemma scan_replacement x : scan_str (replacement_escape ++ x) = foldr scons (scan_str x) replacement_escape.
Proof. done. Qed.

Lemma unquote_replacement x : unquote_go 0 (replacement_escape ++ x) = replacement_bytes ++ unquote_go 0 x.
Proof. done. Qed.

(** A string frame whose body scans to its closing quote. *)
Lemma decode_next_str eof b t : scan_str (b ++ dq :: "010"%char :: t) = SEnd b ("010"%char :: t) ->
  decode_next eof (dq :: b ++ dq :: "010"%char :: t) = DValue (JStr (unquote b)) ("010"%char :: t).
Proof.
  intros Hs. unfold decode_next. rewrite parse_value_str, Hs. cbn [after_scan needs_lookahead].
  by rewrite andb_false_l.
Qed.

(** A torn integer frame is misread without an error: if the
    connection closes after the bytes of [z / 10] (truncated toward zero)
    of the frame that carries [z], for [|z| >= 10], the decoder at EOF
    delivers the number [z / 10] as if it had been sent. *)
Lemma torn_int_misread js z : Forall frame_ok js -> (10 <= Z.abs z)%Z ->
  exists u, u <> [] /\ str (pretty (Z.quot z 10)) ++ u = encode_frame (JNum z) /\
    decode_items true (frames js ++ str (pretty (Z.quot z 10))) = map RJson js ++ [RJson (JNum (Z.quot z 10))].
Proof.
  intros Hjs Hz. destruct (pretty_Z_last z Hz) as [c Hc]. exists [c; "010"%char].
  split_and!; [done|by unfold encode_frame; cbn [encode_json]; rewrite Hc, <- app_assoc|].
  rewrite decode_items_frames by done. f_equal. rewrite decode_items_unfold. unfold decode_next.
  rewrite <- (app_nil_r (str (pretty (Z.quot z 10)))), parse_num by done.
  cbn [needs_lookahead negb]. by rewrite andb_false_r, decode_items_nil.
Qed.

(** An invalid UTF-8 byte in a string is replaced: a string of ASCII
    bytes with one byte [c] that cannot start a UTF-8 sequence is written
    with [c] as the escape [�], and is read back with the three bytes
    of U+FFFD in place of [c]. *)
Lemma invalid_utf8_replaced eof js s1 c s2 : Forall frame_ok js ->
  ascii_string s1 = true -> ascii_string s2 = true ->
  (128 <= code c)%N -> (code c < 0xC2 \/ 0xF4 < code c)%N ->
  decode_items eof (frames js ++ encode_frame (JStr (s1 +:+ String c s2))) =
    map RJson js ++ [RJson (JStr (s1 +:+ String "239" (String "191" (String "189" s2))))].
Proof.
  intros Hjs H1%ascii_string_text H2%ascii_string_text Hc Hl.
  set (b := flat_map escape_byte (str s1) ++ replacement_escape ++ flat_map escape_byte (str s2)).
  assert (Hf : encode_frame (JStr (s1 +:+ String c s2)) = dq :: b ++ dq :: "010"%char :: []).
  { unfold encode_frame; cbn [encode_json]; unfold quote, quote_body.
    rewrite str_app, str_cons, quote_go_ascii_app, quote_go_bad_lead, quote_go_ascii by done.
    unfold b. cbn [app]. by rewrite <- !app_assoc. }
  rewrite decode_items_frames, Hf by done. f_equal.
  rewrite decode_items_unfold, decode_next_str.
  - rewrite decode_items_space, decode_items_nil by done. do 3 f_equal. unfold unquote, b.
    rewrite unquote_escaped_app, unquote_replacement, unquote_escaped by done.
    by rewrite <- (string_of_list_ascii_of_string (s1 +:+ _)), str_app.
  - unfold b. rewrite <- !app_assoc, scan_escaped_app, scan_replacement, scan_escaped by done.
    by rewrite !foldr_scons.
Qed.

(** Discharges [Forall frame_ok] on a concrete list of values. *)
Ltac frames_ok :=
  repeat (constructor; [split; [reflexivity|apply Nat.leb_le; reflexivity]|]); constructor.
