(* ===== verification/Registry.v ===== *)
(** The type registry [WebChan.allowedTypes : map[string]reflect.Type]:
    how [NewWebChan] names prototypes by [%T] (lines 46-52), how
    [NewNamedWebChan] turns prototypes into types (lines 60-63), the
    reverse lookup [getAllowedTypeName] (lines 155-163), a scan in the
    iteration order Go picks for the map (any permutation of its
    entries), and [createTypeInterfaceReflectPointer] (lines 165-171). *)
From S2P Require Import Prelude GoValues.

Abbreviation registry := (gmap string GoType).

(** Lines 47-50: [allowedTypesMap[fmt.Sprintf("%T", v)] = v] for each
    prototype in order; a later prototype with the same name wins. *)
Definition newWebChan_types (allowedTypes : list Val) : gmap string Val :=
  fold_left (fun m v => <[type_string (type_of v) := v]> m) allowedTypes ∅.

(** Lines 60-63: [allowedTypesReflect[k] = reflect.TypeOf(v)]. *)
Definition named_types (allowedTypes : gmap string Val) : registry :=
  type_of <$> allowedTypes.

(** Lines 157-162: the loop over [wc.allowedTypes] in iteration order
    [order], returning the first key whose type equals [t]. *)
Fixpoint scan_allowed (t : GoType) (order : list (string * GoType)) : option string :=
  match order with
  | [] => None
  | (k, v) :: rest => if decide (v = t) then Some k else scan_allowed t rest
  end.

(** Lines 155-163. *)
Definition getAllowedTypeName (order : list (string * GoType)) (data : Val) : option string :=
  scan_allowed (type_of data) order.

(** A legal iteration order of [range m]. *)
Definition iteration_order (m : registry) (order : list (string * GoType)) : Prop :=
  order ≡ₚ map_to_list m.

(** Lines 165-171: [reflect.New(t)] for the registered [t]; the model
    keeps the zero value the new pointer points to. *)
Definition createTypeInterfaceReflectPointer (m : registry) (typeName : string) : option Val :=
  zero_val <$> m !! typeName.

(** No type is registered under two names. *)
Definition registry_injective (m : registry) : Prop :=
  forall k1 k2 t, m !! k1 = Some t -> m !! k2 = Some t -> k1 = k2.

(** ** Lemmas on the scan *)

Lemma scan_allowed_elem t order k :
  scan_allowed t order = Some k -> (k, t) ∈ order.
Proof.
  induction order as [|[k' v] rest IH]; simpl; [done|].
  case_decide as Hd; [intros [= ->]; subst; by left|]. intros H. right. by apply IH.
Qed.

Lemma scan_allowed_complete t order k :
  (k, t) ∈ order -> exists k', scan_allowed t order = Some k'.
Proof.
  induction order as [|[k' v] rest IH]; simpl; [set_solver|].
  case_decide; [eauto|]. rewrite elem_of_cons. intros [[= -> ->]|Hin]; [done|]. by apply IH.
Qed.

Lemma scan_allowed_none t order :
  scan_allowed t order = None <-> forall k, (k, t) ∉ order.
Proof.
  split.
  - intros H k Hin. destruct (scan_allowed_complete _ _ _ Hin) as [k' Hk']. congruence.
  - intros H. destruct (scan_allowed t order) as [k|] eqn:E; [|done].
    exfalso. by apply (H k), scan_allowed_elem.
Qed.

Lemma iteration_order_elem m order k t :
  iteration_order m order -> (k, t) ∈ order <-> m !! k = Some t.
Proof. unfold iteration_order. intros ->. apply elem_of_map_to_list. Qed.

#[export] Hint Resolve scan_allowed_elem : webchan.

(** ** Lemmas on [NewWebChan]'s registry *)

Lemma newWebChan_types_fold_key (l : list Val) (m0 : gmap string Val) k v :
  (forall k v, m0 !! k = Some v -> k = type_string (type_of v)) ->
  fold_left (fun m v => <[type_string (type_of v) := v]> m) l m0 !! k = Some v ->
  k = type_string (type_of v).
Proof.
  revert m0. induction l as [|w l IH]; intros m0 Hm0; simpl; [apply Hm0|].
  apply IH. intros k' v'. rewrite lookup_insert.
  case_decide; [intros [= <-]; congruence|]. apply Hm0.
Qed.

Lemma newWebChan_types_key l k v :
  newWebChan_types l !! k = Some v -> k = type_string (type_of v).
Proof. apply newWebChan_types_fold_key. intros ??. by rewrite lookup_empty. Qed.

Lemma newWebChan_types_lookup_fold (l : list Val) (m0 : gmap string Val) v :
  v ∈ l -> exists w, w ∈ l /\ type_string (type_of w) = type_string (type_of v) /\
    fold_left (fun m v => <[type_string (type_of v) := v]> m) l m0 !! type_string (type_of v) = Some w.
Proof.
  revert m0. induction l as [|u l IH] using rev_ind; intros m0 Hin; [set_solver|].
  rewrite fold_left_app. simpl. rewrite lookup_insert.
  case_decide as Heq.
  - exists u. split_and!; [set_solver|done|done].
  - apply elem_of_app in Hin as [Hin|Hin]; [|set_solver].
    destruct (IH m0 Hin) as (w & Hw & Hk & Hl). exists w. split_and!; [set_solver|done|done].
Qed.

(** [registry_injective] is decidable: it quantifies over the finite map. *)
Lemma registry_injective_forall m :
  registry_injective m <-> map_Forall (fun k1 t => map_Forall (fun k2 t' => t = t' -> k1 = k2) m) m.
Proof.
  unfold registry_injective. split.
  - intros H k1 t H1 k2 t' H2 <-. by eapply H.
  - intros H k1 k2 t H1 H2. by apply (H k1 t H1 k2 t H2).
Qed.

#[export] Instance registry_injective_dec m : Decision (registry_injective m).
Proof.
  destruct (decide (map_Forall (fun k1 t => map_Forall (fun k2 t' => t = t' -> k1 = k2) m) m)) as [H|H];
    [left|right]; by rewrite registry_injective_forall.
Defined.

(** ** Properties of the registry *)

(** C29. Whatever iteration order the Go runtime picks, a name returned
    by [getAllowedTypeName] is registered for the value's type. *)
Theorem getAllowedTypeName_sound m order v k :
  iteration_order m order -> getAllowedTypeName order v = Some k -> m !! k = Some (type_of v).
Proof. intros Ho Hs. apply (iteration_order_elem m order); [done|]. by apply scan_allowed_elem. Qed.

(** C28. With an injective registry, [getAllowedTypeName] returns exactly
    the name registered for the value's type, in every iteration order;
    a name is returned exactly when it is registered for the type. *)
Theorem getAllowedTypeName_spec m order v k :
  registry_injective m -> iteration_order m order ->
  getAllowedTypeName order v = Some k <-> m !! k = Some (type_of v).
Proof.
  intros Hinj Ho. split.
  { intros Hs. apply (iteration_order_elem m order); [done|]. by apply scan_allowed_elem. }
  intros Hk. apply (iteration_order_elem m order) in Hk; [|done].
  destruct (scan_allowed_complete _ _ _ Hk) as [k' Hk'].
  unfold getAllowedTypeName. rewrite Hk'. f_equal. apply (Hinj k' k (type_of v)).
  - apply (iteration_order_elem m order); [done|]. by apply scan_allowed_elem.
  - by apply (iteration_order_elem m order).
Qed.

(** C30. In every iteration order, [getAllowedTypeName] reports failure
    (Go: [ok = false]) exactly when no name of the registry maps to the
    value's type. *)
Theorem getAllowedTypeName_unregistered m order v :
  iteration_order m order ->
  getAllowedTypeName order v = None <-> forall k, m !! k <> Some (type_of v).
Proof.
  intros Ho. unfold getAllowedTypeName. rewrite scan_allowed_none.
  split; intros H k; specialize (H k); by rewrite (iteration_order_elem m order) in *.
Qed.

(** C31. A registry built by [NewWebChan] is always injective: the key of
    every entry is the [%T] name of its type, so [getAllowedTypeName]
    does not depend on the iteration order. *)
Theorem newWebChan_registry_injective l :
  registry_injective (named_types (newWebChan_types l)).
Proof.
  intros k1 k2 t. unfold named_types. rewrite !lookup_fmap.
  destruct (newWebChan_types l !! k1) as [v1|] eqn:E1; [|done].
  destruct (newWebChan_types l !! k2) as [v2|] eqn:E2; [|done]. simpl.
  intros [= H1] [= H2]. apply newWebChan_types_key in E1, E2. congruence.
Qed.

(** C33. Every prototype passed to [NewWebChan] is registered under its [%T]
    name, unless another prototype of a different type prints the same. *)
Theorem newWebChan_registers l v :
  v ∈ l -> Forall (fun w => type_string (type_of w) = type_string (type_of v) -> type_of w = type_of v) l ->
  named_types (newWebChan_types l) !! type_string (type_of v) = Some (type_of v).
Proof.
  intros Hin Huniq. rewrite Forall_forall in Huniq. unfold named_types, newWebChan_types. rewrite lookup_fmap.
  destruct (newWebChan_types_lookup_fold l ∅ v Hin) as (w & Hw & Hk & ->). simpl.
  f_equal. by apply Huniq.
Qed.


(** ** Witnesses and the ambiguity of a non-injective registry *)

(** The registry of the repository's test: [NewWebChan(a, 100, "strings", testType{})]. *)
Definition test_registry : registry :=
  named_types (newWebChan_types
    [VScalar (SString "strings"); VStruct "webchan" "testType" [("A", SInt 0%Z); ("B", SString "")]]).

Definition hello : Val := VScalar (SString "Hello").

Lemma getAllowedTypeName_spec_witness :
  registry_injective test_registry /\ iteration_order test_registry (map_to_list test_registry) /\
  (getAllowedTypeName (map_to_list test_registry) hello = Some "string"%string <->
   test_registry !! "string"%string = Some (type_of hello)).
Proof.
  assert (Hinj : registry_injective test_registry) by (apply (bool_decide_unpack _); vm_compute; reflexivity).
  split; [exact Hinj|]. split; [unfold iteration_order; reflexivity|].
  apply (getAllowedTypeName_spec test_registry); [exact Hinj|unfold iteration_order; reflexivity].
Defined.

Lemma getAllowedTypeName_sound_witness :
  iteration_order test_registry (map_to_list test_registry) /\
  getAllowedTypeName (map_to_list test_registry) hello = Some "string"%string /\
  test_registry !! "string"%string = Some (type_of hello).
Proof.
  assert (Hs : getAllowedTypeName (map_to_list test_registry) hello = Some "string"%string)
    by (vm_compute; reflexivity).
  split; [unfold iteration_order; reflexivity|]. split; [exact Hs|].
  apply (getAllowedTypeName_sound test_registry (map_to_list test_registry)); [unfold iteration_order; reflexivity|exact Hs].
Defined.

Definition point : Val := VStruct "main" "point" [("X", SInt 1%Z); ("Y", SInt 2%Z)].

Lemma getAllowedTypeName_unregistered_witness :
  iteration_order test_registry (map_to_list test_registry) /\
  (getAllowedTypeName (map_to_list test_registry) point = None <->
   forall k, test_registry !! k <> Some (type_of point)).
Proof.
  split; [unfold iteration_order; reflexivity|].
  apply getAllowedTypeName_unregistered. unfold iteration_order; reflexivity.
Defined.

Lemma newWebChan_registers_witness :
  let l := [VScalar (SString "strings"); VStruct "webchan" "testType" [("A", SInt 0%Z); ("B", SString "")]] in
  VScalar (SString "strings") ∈ l /\
  Forall (fun w => type_string (type_of w) = type_string (type_of (VScalar (SString "strings"))) ->
                   type_of w = type_of (VScalar (SString "strings"))) l /\
  named_types (newWebChan_types l) !! "string"%string = Some (TScalar KString).
Proof.
  intros l.
  assert (Hin : VScalar (SString "strings") ∈ l) by (apply (bool_decide_unpack _); vm_compute; reflexivity).
  assert (Hu : Forall (fun w => type_string (type_of w) = type_string (type_of (VScalar (SString "strings"))) ->
                   type_of w = type_of (VScalar (SString "strings"))) l)
    by (apply (bool_decide_unpack _); vm_compute; reflexivity).
  split; [exact Hin|]. split; [exact Hu|].
  exact (newWebChan_registers l (VScalar (SString "strings")) Hin Hu).
Defined.

(** [NewNamedWebChan(soc, n, map[string]interface{}{"a": "", "b": ""})]:
    one type under two names. *)
Definition ambiguous_registry : registry :=
  named_types (<["a"%string := VScalar (SString "")]> (<["b"%string := VScalar (SString "")]> ∅)).

