(* ===== verification/WebChanState.v ===== *)
(** The [WebChan] struct (lines 20-40), the state [NewNamedWebChan] and
    [NewWebChan] build (lines 46-73, before the goroutines start), the
    error sink [tryPushError] (lines 173-179), and the outcome of one
    atomic step of a goroutine: a new state, blocking, or a panic. *)
From S2P Require Import Prelude GoValues GoErrors GoChan Codec Conn Registry.

(** Line 67: the error channel's fixed capacity. *)
Definition error_capacity : nat := 100.

(** Line 177. *)
Definition error_full_message : string :=
  "Error channel full, should probably check it more frequently".

(** Lines 20-40.  [encoder] has no state of its own; [decoder] is the
    sticky error of the [json.Decoder]; [stdout] collects the lines the
    program prints. *)
Record WebChan := mkWebChan {
  Send : chan Val;
  Recv : chan Val;
  Error : chan GoError;
  closeRecvChan : chan unit;
  soc : Conn;
  allowedTypes : registry;
  decoder : option GoError;
  stdout : list string;
}.

Definition set_Send (wc : WebChan) (c : chan Val) : WebChan :=
  mkWebChan c (Recv wc) (Error wc) (closeRecvChan wc) (soc wc) (allowedTypes wc) (decoder wc) (stdout wc).
Definition set_Recv (wc : WebChan) (c : chan Val) : WebChan :=
  mkWebChan (Send wc) c (Error wc) (closeRecvChan wc) (soc wc) (allowedTypes wc) (decoder wc) (stdout wc).
Definition set_Error (wc : WebChan) (c : chan GoError) : WebChan :=
  mkWebChan (Send wc) (Recv wc) c (closeRecvChan wc) (soc wc) (allowedTypes wc) (decoder wc) (stdout wc).
Definition set_closeRecvChan (wc : WebChan) (c : chan unit) : WebChan :=
  mkWebChan (Send wc) (Recv wc) (Error wc) c (soc wc) (allowedTypes wc) (decoder wc) (stdout wc).
Definition set_soc (wc : WebChan) (s : Conn) : WebChan :=
  mkWebChan (Send wc) (Recv wc) (Error wc) (closeRecvChan wc) s (allowedTypes wc) (decoder wc) (stdout wc).
Definition set_decoder (wc : WebChan) (d : option GoError) : WebChan :=
  mkWebChan (Send wc) (Recv wc) (Error wc) (closeRecvChan wc) (soc wc) (allowedTypes wc) d (stdout wc).
Definition print_line (wc : WebChan) (line : string) : WebChan :=
  mkWebChan (Send wc) (Recv wc) (Error wc) (closeRecvChan wc) (soc wc) (allowedTypes wc) (decoder wc)
    (stdout wc ++ [line]).

(** Lines 59-73 without the two [go] statements. *)
Definition NewNamedWebChan (s : Conn) (bufLength : nat) (allowed : gmap string Val) : WebChan :=
  {| Send := make_chan bufLength;
     Recv := make_chan bufLength;
     Error := make_chan error_capacity;
     closeRecvChan := make_chan 0;
     soc := s;
     allowedTypes := named_types allowed;
     decoder := None;
     stdout := [] |}.

(** Lines 46-52. *)
Definition NewWebChan (s : Conn) (bufLength : nat) (allowed : list Val) : WebChan :=
  NewNamedWebChan s bufLength (newWebChan_types allowed).

(** Lines 173-179: a [select] with a [default]; [Error] is never closed
    by the program (see [Lifecycle]), so the only alternative to the send
    is the [default] branch, which prints and drops the error. *)
Definition tryPushError (wc : WebChan) (err : GoError) : WebChan :=
  match chan_send (Error wc) err with
  | Sent c => set_Error wc c
  | _ => print_line wc error_full_message
  end.

(** A Go panic ends the process: the value passed to [panic], or a
    runtime error of the language. *)
Inductive Panic :=
  | GoPanic (value : GoError)
  | SendOnClosedChannel
  | CloseOfClosedChannel.

Inductive step_result (S : Type) :=
  | Step (s : S)
  | Blocked
  | Panicked (p : Panic).
Arguments Step {S}.
Arguments Blocked {S}.
Arguments Panicked {S}.

(** ** Lemmas *)

Lemma tryPushError_room wc err :
  closed (Error wc) = false -> length (buf (Error wc)) < cap (Error wc) ->
  tryPushError wc err = set_Error wc (mkChan (buf (Error wc) ++ [err]) (cap (Error wc)) false).
Proof. intros Hc Hl. unfold tryPushError, chan_send. rewrite Hc, decide_True by done. done. Qed.

Lemma tryPushError_full wc err :
  cap (Error wc) <= length (buf (Error wc)) ->
  tryPushError wc err = print_line wc error_full_message.
Proof.
  intros Hl. unfold tryPushError, chan_send.
  destruct (closed (Error wc)); [done|]. by rewrite decide_False by lia.
Qed.

(** [tryPushError] touches nothing but the error queue and the output. *)
Lemma tryPushError_frame wc err :
  Send (tryPushError wc err) = Send wc /\ Recv (tryPushError wc err) = Recv wc /\
  closeRecvChan (tryPushError wc err) = closeRecvChan wc /\ soc (tryPushError wc err) = soc wc /\
  allowedTypes (tryPushError wc err) = allowedTypes wc /\ decoder (tryPushError wc err) = decoder wc /\
  cap (Error (tryPushError wc err)) = cap (Error wc) /\ closed (Error (tryPushError wc err)) = closed (Error wc).
Proof.
  unfold tryPushError. destruct (chan_send (Error wc) err) eqn:E; simpl; try done.
  apply chan_send_ok in E as (_ & Hc & Hcl & Hcl0 & _). by rewrite Hc, Hcl, Hcl0.
Qed.

Lemma tryPushError_Send wc err : Send (tryPushError wc err) = Send wc.
Proof. apply tryPushError_frame. Qed.
Lemma tryPushError_soc wc err : soc (tryPushError wc err) = soc wc.
Proof. apply tryPushError_frame. Qed.
Lemma tryPushError_allowedTypes wc err : allowedTypes (tryPushError wc err) = allowedTypes wc.
Proof. apply tryPushError_frame. Qed.
Lemma tryPushError_decoder wc err : decoder (tryPushError wc err) = decoder wc.
Proof. apply tryPushError_frame. Qed.

#[export] Hint Rewrite tryPushError_Send tryPushError_soc tryPushError_allowedTypes tryPushError_decoder : webchan_rw.

Lemma tryPushError_bounded wc err :
  chan_ok (Error wc) -> chan_ok (Error (tryPushError wc err)).
Proof.
  unfold tryPushError. destruct (chan_send (Error wc) err) eqn:E; simpl; try done.
  intros _. by eapply chan_send_preserves_ok.
Qed.

#[export] Hint Resolve tryPushError_bounded : webchan.

(** The error queue keeps the first errors up to its capacity and drops
    the rest: one push. *)
Lemma tryPushError_take wc err :
  closed (Error wc) = false -> chan_ok (Error wc) ->
  buf (Error (tryPushError wc err)) = take (cap (Error wc)) (buf (Error wc) ++ [err]).
Proof.
  unfold chan_ok. intros Hc Hok. destruct (decide (length (buf (Error wc)) < cap (Error wc))) as [Hlt|Hge].
  - rewrite tryPushError_room by done. simpl. rewrite take_ge; [done|]. rewrite length_snoc. lia.
  - rewrite tryPushError_full by lia. simpl. rewrite take_app_length'; [done|lia].
Qed.

(** The parts of the state that neither goroutine's loop body changes
    apart from reporting errors: the close signal, the registry, whether
    the socket is closed, and the shape of the error queue. *)
Definition io_frame (wc wc' : WebChan) : Prop :=
  closeRecvChan wc' = closeRecvChan wc /\ allowedTypes wc' = allowedTypes wc /\
  conn_closed (soc wc') = conn_closed (soc wc) /\
  cap (Error wc') = cap (Error wc) /\ closed (Error wc') = closed (Error wc) /\
  (chan_ok (Error wc) -> chan_ok (Error wc')).

Lemma io_frame_refl wc : io_frame wc wc.
Proof. by split_and!. Qed.

Lemma io_frame_trans wc1 wc2 wc3 : io_frame wc1 wc2 -> io_frame wc2 wc3 -> io_frame wc1 wc3.
Proof.
  intros (H1 & H2 & H3 & H4 & H5 & H6) (G1 & G2 & G3 & G4 & G5 & G6).
  split_and!; try congruence. auto.
Qed.

Lemma io_frame_tryPushError wc err : io_frame wc (tryPushError wc err).
Proof.
  destruct (tryPushError_frame wc err) as (_ & _ & H1 & H2 & H3 & _ & H4 & H5).
  split_and!; try by rewrite ?H1, ?H2, ?H3. apply tryPushError_bounded.
Qed.

Lemma io_frame_set_soc wc s : conn_closed s = conn_closed (soc wc) -> io_frame wc (set_soc wc s).
Proof. intros H. by split_and!. Qed.

Lemma io_frame_set_decoder wc d : io_frame wc (set_decoder wc d).
Proof. by split_and!. Qed.

Lemma io_frame_set_Send wc c : io_frame wc (set_Send wc c).
Proof. by split_and!. Qed.

Lemma io_frame_set_Recv wc c : io_frame wc (set_Recv wc c).
Proof. by split_and!. Qed.

#[export] Hint Resolve io_frame_refl io_frame_tryPushError io_frame_set_decoder
  io_frame_set_Send io_frame_set_Recv : webchan.

(** ** The lossy error queue *)

(** C24. [tryPushError] never blocks: pushing errors one after the other
    keeps the first ones up to the capacity of [Error] and drops the rest
    (printing a line for each dropped error). *)
Theorem tryPushError_lossy es wc :
  closed (Error wc) = false -> chan_ok (Error wc) ->
  buf (Error (fold_left tryPushError es wc)) = take (cap (Error wc)) (buf (Error wc) ++ es) /\
  length (stdout (fold_left tryPushError es wc)) =
    length (stdout wc) + (length (buf (Error wc) ++ es) - cap (Error wc)).
Proof.
  revert wc. induction es as [|e es IH]; intros wc Hc Hok; simpl.
  - unfold chan_ok in Hok. rewrite app_nil_r, take_ge by exact Hok. split; [done|lia].
  - destruct (tryPushError_frame wc e) as (_ & _ & _ & _ & _ & _ & Hcap & Hcl).
    destruct (IH (tryPushError wc e)) as [IH1 IH2]; [by rewrite Hcl|by apply tryPushError_bounded|].
    rewrite IH1, IH2, Hcap. unfold chan_ok in Hok.
    destruct (decide (length (buf (Error wc)) < cap (Error wc))) as [Hlt|Hge].
    + rewrite tryPushError_room by done. simpl. rewrite <- app_assoc. split; [done|].
      rewrite !length_app. simpl. lia.
    + rewrite tryPushError_full by lia. simpl.
      rewrite !take_app_length' by lia. split; [done|]. rewrite !length_app. simpl. lia.
Qed.

Lemma tryPushError_lossy_witness :
  buf (Error (fold_left tryPushError [EOF; ErrClosed; ErrUnexpectedEOF]
                (set_Error (NewWebChan (conn_open []) 1 []) (mkChan [] 2 false)))) = [EOF; ErrClosed] /\
  length (stdout (fold_left tryPushError [EOF; ErrClosed; ErrUnexpectedEOF]
                (set_Error (NewWebChan (conn_open []) 1 []) (mkChan [] 2 false)))) = 1.
Proof.
  apply (tryPushError_lossy [EOF; ErrClosed; ErrUnexpectedEOF]
           (set_Error (NewWebChan (conn_open []) 1 []) (mkChan [] 2 false))); [reflexivity|unfold chan_ok; simpl; lia].
Defined.
