(* ===== verification/Outbound.v ===== *)
(** The send routine (src/webchan.go lines 76-96) as a program counter
    and a step function.  Each step is one atomic action of the
    goroutine: the receive on [wc.Send] together with the type lookup
    and the panic of lines 83-86, then one [Encode] per step (lines 87
    and 89); a failed [Encode] is reported by [tryPushError] (lines
    91-93) in the same step, since that call never blocks.  The
    iteration order of [wc.allowedTypes] is a parameter. *)
From S2P Require Import Prelude GoValues GoErrors GoChan Codec Conn Registry WebChanState.

Inductive OutPC :=
  | OutRecv                                  (* line 79 *)
  | OutEncName (typeName : string) (data : Val)  (* line 87 *)
  | OutEncData (data : Val)                  (* line 89 *)
  | OutExit.                                 (* line 81: returned *)

Section Outbound.
Context `{!Codec}.
Variable order : list (string * GoType).

(** Lines 83-86. *)
Definition send_after_recv (data : Val) : OutPC + Panic :=
  match getAllowedTypeName order data with
  | Some typeName => inl (OutEncName typeName data)
  | None => inr (GoPanic (sendError (Errorf ("type not allowed: " +:+ type_string (type_of data)))))
  end.

(** One step of the loop of lines 77-95. *)
Definition send_step (st : OutPC * WebChan) : step_result (OutPC * WebChan) :=
  let '(pc, wc) := st in
  match pc with
  | OutRecv =>
      match chan_recv (Send wc) with
      | Received data c =>
          match send_after_recv data with
          | inl pc' => Step (pc', set_Send wc c)
          | inr p => Panicked p
          end
      | RecvClosed => Step (OutExit, wc)
      | RecvBlocks => Blocked
      end
  | OutEncName typeName data =>
      let '(s', err) := encode (soc wc) (VScalar (SString typeName)) in
      match err with
      | None => Step (OutEncData data, set_soc wc s')
      | Some e => Step (OutRecv, tryPushError (set_soc wc s') (sendError e))
      end
  | OutEncData data =>
      let '(s', err) := encode (soc wc) data in
      match err with
      | None => Step (OutRecv, set_soc wc s')
      | Some e => Step (OutRecv, tryPushError (set_soc wc s') (sendError e))
      end
  | OutExit => Blocked
  end.

(** The loop run for at most [fuel] steps: the state where it stopped
    (blocked, returned or out of fuel) and the panic if it panicked. *)
Fixpoint send_run (fuel : nat) (st : OutPC * WebChan) : (OutPC * WebChan) * option Panic :=
  match fuel with
  | 0 => (st, None)
  | S n =>
      match send_step st with
      | Step st' => send_run n st'
      | Blocked => (st, None)
      | Panicked p => (st, Some p)
      end
  end.

(** The frames the loop writes for [vs], when every value is registered
    and serializable: the name, then the value. *)
Fixpoint frames_of (vs : list Val) : option (list json) :=
  match vs with
  | [] => Some []
  | v :: rest =>
      match getAllowedTypeName order v with
      | None => None
      | Some n =>
          match marshal (VScalar (SString n)), marshal v, frames_of rest with
          | inr jn, inr j, Some js => Some (jn :: j :: js)
          | _, _, _ => None
          end
      end
  end.

(** The state after the loop has written [js] and dequeued all but [rest]. *)
Definition after_frames (wc : WebChan) (rest : list Val) (js : list json) : WebChan :=
  mkWebChan (mkChan rest (cap (Send wc)) (closed (Send wc))) (Recv wc) (Error wc) (closeRecvChan wc)
    (conn_set_write (soc wc) (conn_written (soc wc) ++ js) [])
    (allowedTypes wc) (decoder wc) (stdout wc).

(** ** Lemmas *)

Lemma send_run_S n st st' : send_step st = Step st' -> send_run (S n) st = send_run n st'.
Proof. simpl. by intros ->. Qed.

(** Three steps per registered value on an open socket without faults. *)
Lemma send_run_frames_gen vs rest js wc k :
  frames_of vs = Some js -> buf (Send wc) = vs ++ rest ->
  conn_can_write (soc wc) = true -> conn_write_faults (soc wc) = [] ->
  send_run (3 * length vs + k) (OutRecv, wc) = send_run k (OutRecv, after_frames wc rest js).
Proof.
  revert js wc. induction vs as [|v vs IH]; intros js wc Hf Hb Hc Hw.
  - simpl in Hf. simplify_eq. simpl in Hb. f_equal. f_equal. destruct wc as [[] ? ? ? [] ? ? ?].
    unfold after_frames; simpl in *. subst. by rewrite app_nil_r.
  - simpl in Hf. destruct (getAllowedTypeName order v) as [n|] eqn:Hn; [|done].
    destruct (marshal (VScalar (SString n))) as [|jn] eqn:Hjn; [done|].
    destruct (marshal v) as [|j] eqn:Hj; [done|].
    destruct (frames_of vs) as [js'|] eqn:Hjs; [|done]. simplify_eq.
    replace (3 * length (v :: vs) + k) with (S (S (S (3 * length vs + k)))) by (simpl; lia).
    remember (3 * length vs + k) as fuel eqn:Hfuel.
    cbn [send_run send_step]. unfold chan_recv. rewrite Hb. cbn. unfold send_after_recv. rewrite Hn.
    cbn. rewrite (encode_ok _ _ jn) by done. cbn. rewrite (encode_ok _ _ j) by done. cbn.
    subst fuel. rewrite (IH js' _ eq_refl); [|done..].
    unfold after_frames; simpl. by rewrite <- !app_assoc.
Qed.

Lemma frames_of_some vs :
  Forall (fun v => wf_val v /\ is_Some (getAllowedTypeName order v)) vs ->
  exists js, frames_of vs = Some js /\ length js = 2 * length vs.
Proof.
  induction vs as [|v vs IH]; intros Hall; [by exists []|].
  apply Forall_cons in Hall as [[Hwf [n Hn]] Hall]. destruct (IH Hall) as (js & Hjs & Hlen).
  destruct (codec_total v Hwf) as [j Hj]. destruct (codec_total (VScalar (SString n))) as [jn Hjn]; [done|].
  exists (jn :: j :: js). simpl. rewrite Hn, Hjn, Hj, Hjs. split; [done|]. simpl. lia.
Qed.

(** Two steps per value once the socket is closed: the receive, then the
    failed [Encode] of the name, reported with [tryPushError]. *)
Lemma send_drain_closed_gen vs rest wc k :
  Forall (fun v => is_Some (getAllowedTypeName order v)) vs -> buf (Send wc) = vs ++ rest ->
  conn_closed (soc wc) = true -> closed (Error wc) = false -> chan_ok (Error wc) ->
  exists wc', send_run (2 * length vs + k) (OutRecv, wc) = send_run k (OutRecv, wc') /\
    soc wc' = soc wc /\ buf (Send wc') = rest /\ closed (Send wc') = closed (Send wc) /\
    cap (Error wc') = cap (Error wc) /\ closed (Error wc') = false /\ chan_ok (Error wc') /\
    buf (Error wc') = take (cap (Error wc))
                        (buf (Error wc) ++ replicate (length vs) (sendError (closed_error (conn_kind (soc wc)) "write"))).
Proof.
  revert wc. induction vs as [|v vs IH]; intros wc Hall Hb Hc He Hok.
  - exists wc. simpl. rewrite app_nil_r, take_ge by exact Hok. by split_and!.
  - apply Forall_cons in Hall as [[n Hn] Hall].
    destruct (tryPushError_frame (set_Send wc (mkChan (vs ++ rest) (cap (Send wc)) (closed (Send wc))))
                (sendError (closed_error (conn_kind (soc wc)) "write"))) as (HS & _ & _ & Hsoc & _ & _ & Hcap & Hcl).
    destruct (IH (tryPushError (set_Send wc (mkChan (vs ++ rest) (cap (Send wc)) (closed (Send wc))))
                  (sendError (closed_error (conn_kind (soc wc)) "write")))) as (wc' & Hrun & Hsoc' & Hb' & Hcs' & Hcap' & Hcl' & Hok' & Hbuf');
      [done|by rewrite HS|by rewrite Hsoc|by rewrite Hcl|by apply tryPushError_bounded|].
    exists wc'. split_and!.
    + replace (2 * length (v :: vs) + k) with (S (S (2 * length vs + k))) by (simpl; lia).
      rewrite <- Hrun. cbn [send_run send_step]. unfold chan_recv. rewrite Hb. cbn.
      unfold send_after_recv. rewrite Hn. cbn. by rewrite encode_closed_string.
    + by rewrite Hsoc', Hsoc.
    + done.
    + by rewrite Hcs', HS.
    + by rewrite Hcap', Hcap.
    + done.
    + done.
    + rewrite Hbuf', Hcap, Hsoc. rewrite tryPushError_take by done. simpl.
      by rewrite take_take_app, <- app_assoc.
Qed.

(** The value a step takes from [Send]. *)
Definition taken (pc pc' : OutPC) : list Val :=
  match pc, pc' with OutRecv, OutEncName _ v => [v] | _, _ => [] end.

Lemma send_after_recv_inl v pc' : send_after_recv v = inl pc' -> exists n, pc' = OutEncName n v.
Proof. unfold send_after_recv. destruct (getAllowedTypeName order v); intros; simplify_eq; eauto. Qed.

(** A step of the send routine takes at most the head of [Send] and
    otherwise only writes to the socket and reports errors. *)
Lemma send_step_frame pc wc pc' wc' :
  send_step (pc, wc) = Step (pc', wc') ->
  io_frame wc wc' /\ Recv wc' = Recv wc /\ cap (Send wc') = cap (Send wc) /\
  closed (Send wc') = closed (Send wc) /\ buf (Send wc) = taken pc pc' ++ buf (Send wc').
Proof.
  destruct pc as [|n d|d|]; simpl; try done.
  2,3: match goal with |- context [encode ?c ?v] =>
         pose proof (encode_conn_closed c v) as Hcc; destruct (encode c v) as [s' [e|]] end;
    simpl in Hcc; intros [= <- <-];
    [destruct (tryPushError_frame (set_soc wc s') (sendError e)) as (HS & HR & _);
     split_and!; rewrite ?HS, ?HR; try done;
     eapply io_frame_trans; [by apply io_frame_set_soc|apply io_frame_tryPushError]
    |split_and!; try done; by apply io_frame_set_soc].
  - destruct (chan_recv (Send wc)) as [v c| |] eqn:Hr; try done.
    + destruct (send_after_recv v) as [pc0|p] eqn:Ha; [|done]. intros [= <- <-].
      destruct (send_after_recv_inl _ _ Ha) as [n ->].
      apply chan_recv_ok in Hr as (Hb & Hc & Hcl). simpl. split_and!; auto with webchan; congruence.
    + intros [= <- <-]. split_and!; auto with webchan.
Qed.

(** ** Properties of the send routine *)

(** C7. On an open socket without write faults, the send routine writes,
    for each queued value in queue order, its registered name and then
    the value, and nothing else; it then waits on [Send], or returns if
    [Send] is closed.  No error is reported. *)
Theorem send_run_frames vs js wc :
  frames_of vs = Some js -> buf (Send wc) = vs ->
  conn_can_write (soc wc) = true -> conn_write_faults (soc wc) = [] ->
  send_run (3 * length vs + 1) (OutRecv, wc) =
    ((if closed (Send wc) then OutExit else OutRecv, after_frames wc [] js), None).
Proof.
  intros Hf Hb Hc Hw. rewrite (send_run_frames_gen vs [] js) by (by rewrite ?app_nil_r).
  cbn. by destruct (closed (Send wc)).
Qed.

(** C16. A value of an unregistered type makes the routine panic with a
    [sendError] "type not allowed", after the frames of the values queued
    before it and before anything of its own frame is written. *)
Theorem send_unregistered_panics vs bad rest js wc :
  frames_of vs = Some js -> getAllowedTypeName order bad = None ->
  buf (Send wc) = vs ++ bad :: rest ->
  conn_can_write (soc wc) = true -> conn_write_faults (soc wc) = [] ->
  send_run (3 * length vs + 1) (OutRecv, wc) =
    ((OutRecv, after_frames wc (bad :: rest) js),
     Some (GoPanic (sendError (Errorf ("type not allowed: " +:+ type_string (type_of bad)))))).
Proof.
  intros Hf Hn Hb Hc Hw. rewrite (send_run_frames_gen vs (bad :: rest) js) by done.
  cbn -[getAllowedTypeName]. unfold send_after_recv. by rewrite Hn.
Qed.

(** C26. When the name of a frame is written and the write of its value
    fails, the stream keeps the name without a value (half a frame, which
    the peer's decoder will pair with the next value), and the failure is
    reported as a [sendError]. *)
Theorem send_partial_frame wc v n jn j e :
  buf (Send wc) = [v] -> getAllowedTypeName order v = Some n ->
  marshal (VScalar (SString n)) = inr jn -> marshal v = inr j ->
  conn_can_write (soc wc) = true -> conn_write_faults (soc wc) = [None; Some e] ->
  closed (Error wc) = false -> chan_ok (Error wc) ->
  exists wc', send_run 3 (OutRecv, wc) = ((OutRecv, wc'), None) /\
    conn_written (soc wc') = conn_written (soc wc) ++ [jn] /\
    buf (Error wc') = take (cap (Error wc)) (buf (Error wc) ++ [sendError e]).
Proof.
  intros Hb Hn Hjn Hj Hc Hw He Hok.
  cbn [send_run send_step]. unfold chan_recv. rewrite Hb. cbn. unfold send_after_recv. rewrite Hn.
  cbn. unfold encode. rewrite Hjn, conn_write_open, Hw by done. cbn.
  unfold encode. rewrite Hj, conn_write_open by exact Hc. cbn.
  eexists. split; [reflexivity|]. split.
  - by rewrite (proj1 (proj2 (proj2 (proj2 (tryPushError_frame _ _))))).
  - by rewrite tryPushError_take.
Qed.

(** C27. After [Close] (socket and [Send] closed), the routine still
    drains the values buffered in [Send]: each one costs a receive and a
    failed write reported as a [sendError] (dropped once [Error] is
    full), nothing reaches the stream, and the routine returns. *)
Theorem send_drain_after_close vs wc :
  Forall (fun v => is_Some (getAllowedTypeName order v)) vs ->
  buf (Send wc) = vs -> closed (Send wc) = true -> conn_closed (soc wc) = true ->
  closed (Error wc) = false -> chan_ok (Error wc) ->
  exists wc', send_run (2 * length vs + 1) (OutRecv, wc) = ((OutExit, wc'), None) /\
    conn_written (soc wc') = conn_written (soc wc) /\
    buf (Error wc') = take (cap (Error wc))
                        (buf (Error wc) ++ replicate (length vs) (sendError (closed_error (conn_kind (soc wc)) "write"))).
Proof.
  intros Hall Hb Hcs Hc He Hok.
  destruct (send_drain_closed_gen vs [] wc 1) as (wc' & Hrun & Hsoc & Hb' & Hcs' & _ & _ & _ & Hbuf);
    [done|by rewrite app_nil_r|done|done|done|].
  exists wc'. rewrite Hrun. cbn. unfold chan_recv. rewrite Hb', Hcs', Hcs. by rewrite Hsoc.
Qed.

End Outbound.

(** ** Witnesses, with [json_codec] *)

(** [NewWebChan(soc, 10, "")]: strings only, registered as "string". *)
Definition out_base : WebChan := NewWebChan (conn_open []) 10 [VScalar (SString "")].
Definition out_order : list (string * GoType) := map_to_list (allowedTypes out_base).
Definition hi : Val := VScalar (SString "hi").
Definition pt : Val := VStruct "main" "point" [("X", SInt 1%Z); ("Y", SInt 2%Z)].

Lemma send_run_frames_witness :
  send_run out_order (3 * 1 + 1) (OutRecv, set_Send out_base (mkChan [hi] 10 false)) =
    ((OutRecv, after_frames (set_Send out_base (mkChan [hi] 10 false)) [] [JStr "string"; JStr "hi"]), None).
Proof. apply (send_run_frames out_order [hi] [JStr "string"; JStr "hi"]); vm_compute; reflexivity. Defined.

Lemma send_unregistered_panics_witness :
  send_run out_order (3 * 1 + 1) (OutRecv, set_Send out_base (mkChan [hi; pt] 10 false)) =
    ((OutRecv, after_frames (set_Send out_base (mkChan [hi; pt] 10 false)) [pt] [JStr "string"; JStr "hi"]),
     Some (GoPanic (sendError (Errorf ("type not allowed: " +:+ type_string (type_of pt)))))).
Proof. apply (send_unregistered_panics out_order [hi] pt []); vm_compute; reflexivity. Defined.

Lemma send_partial_frame_witness :
  exists wc', send_run out_order 3
    (OutRecv, set_soc (set_Send out_base (mkChan [hi] 10 false)) (mkConn PipeConn false false [] [None; Some ErrClosedPipe] [])) =
    ((OutRecv, wc'), None) /\ conn_written (soc wc') = [JStr "string"] /\
    buf (Error wc') = [sendError ErrClosedPipe].
Proof.
  apply (send_partial_frame out_order
           (set_soc (set_Send out_base (mkChan [hi] 10 false)) (mkConn PipeConn false false [] [None; Some ErrClosedPipe] []))
           hi "string" (JStr "string") (JStr "hi") ErrClosedPipe);
    vm_compute; try reflexivity; lia.
Defined.

Lemma send_drain_after_close_witness :
  exists wc', send_run out_order (2 * 2 + 1)
    (OutRecv, set_soc (set_Send out_base (mkChan [hi; hi] 10 true)) (conn_close (conn_open []))) =
    ((OutExit, wc'), None) /\ conn_written (soc wc') = [] /\
    buf (Error wc') = [sendError (OpError "write" ErrClosed); sendError (OpError "write" ErrClosed)].
Proof.
  apply (send_drain_after_close out_order [hi; hi]
           (set_soc (set_Send out_base (mkChan [hi; hi] 10 true)) (conn_close (conn_open []))));
    try (apply (bool_decide_unpack _); vm_compute; reflexivity); vm_compute; try reflexivity; lia.
Defined.
