(* ===== verification/Inbound.v ===== *)
(** The recv routine (src/webchan.go lines 98-135) as a program counter
    and a step function: the non-blocking check of [closeRecvChan]
    (lines 103-105), the decode of the type name (lines 107-116) with the
    lookup of lines 117-121, the decode of the payload (lines 122-130),
    and the push onto [Recv] (line 131).  Returning runs the deferred
    [close(wc.Recv)] (lines 99-101). *)
From S2P Require Import Prelude GoValues GoErrors GoChan Codec Conn Registry WebChanState.

Inductive InPC :=
  | InSelect                 (* line 103 *)
  | InDecodeName             (* line 108 *)
  | InDecodeData (data : Val)  (* line 122: [data] is the fresh zero value *)
  | InPush (v : Val)         (* line 131 *)
  | InExit.                  (* returned, [Recv] closed *)

#[export] Instance InPC_eq_dec : EqDecision InPC.
Proof. solve_decision. Defined.

Section Inbound.
Context `{!Codec}.

(** [return] from the goroutine: the deferred [close(wc.Recv)]. *)
Definition recv_exit (wc : WebChan) : step_result (InPC * WebChan) :=
  match chan_close (Recv wc) with
  | Some c => Step (InExit, set_Recv wc c)
  | None => Panicked CloseOfClosedChannel
  end.

(** Lines 109-115 and 123-129. *)
Definition recv_error (wc : WebChan) (err : GoError) : step_result (InPC * WebChan) :=
  if is_closed_class err then recv_exit wc
  else Step (InSelect, tryPushError wc (recvError err)).

(** The string a [Decode(&typeName)] stored. *)
Definition string_of_val (v : Val) : string :=
  match v with VScalar (SString s) => s | _ => "" end.

Definition recv_step (st : InPC * WebChan) : step_result (InPC * WebChan) :=
  let '(pc, wc) := st in
  match pc with
  | InSelect =>
      if closed (closeRecvChan wc) then recv_exit wc else Step (InDecodeName, wc)
  | InDecodeName =>
      match decode (decoder wc) (soc wc) (VScalar (SString "")) with
      | None => Blocked
      | Some (d, s, res) =>
          let wc1 := set_decoder (set_soc wc s) d in
          match res with
          | inl err => recv_error wc1 err
          | inr v =>
              let typeName := string_of_val v in
              match createTypeInterfaceReflectPointer (allowedTypes wc) typeName with
              | None => Step (InSelect, tryPushError wc1 (recvError (Errorf ("type not allowed: " +:+ typeName))))
              | Some data => Step (InDecodeData data, wc1)
              end
          end
      end
  | InDecodeData data =>
      match decode (decoder wc) (soc wc) data with
      | None => Blocked
      | Some (d, s, res) =>
          let wc1 := set_decoder (set_soc wc s) d in
          match res with
          | inl err => recv_error wc1 err
          | inr v => Step (InPush v, wc1)
          end
      end
  | InPush v =>
      match chan_send (Recv wc) v with
      | Sent c => Step (InSelect, set_Recv wc c)
      | SendBlocks => Blocked
      | SendPanics => Panicked SendOnClosedChannel
      end
  | InExit => Blocked
  end.

Fixpoint recv_run (fuel : nat) (st : InPC * WebChan) : (InPC * WebChan) * option Panic :=
  match fuel with
  | 0 => (st, None)
  | S n =>
      match recv_step st with
      | Step st' => recv_run n st'
      | Blocked => (st, None)
      | Panicked p => (st, Some p)
      end
  end.

(** What a correct reader makes of a stream of frames: each name must be
    a string registered in [m], each payload a value of that type. *)
Fixpoint frames_decode (m : registry) (js : list json) : option (list Val) :=
  match js with
  | [] => Some []
  | jn :: j :: rest =>
      match unmarshal_into (VScalar (SString "")) jn with
      | inr (VScalar (SString n)) =>
          match m !! n with
          | Some t =>
              match unmarshal_into (zero_val t) j, frames_decode m rest with
              | inr v, Some vs => Some (v :: vs)
              | _, _ => None
              end
          | None => None
          end
      | _ => None
      end
  | [_] => None
  end.

(** The state after the routine has consumed the frames of [vs] and
    pushed [vs] onto [Recv]. *)
Definition after_recv (wc : WebChan) (vs : list Val) (rest : list read_item) : WebChan :=
  mkWebChan (Send wc) (mkChan (buf (Recv wc) ++ vs) (cap (Recv wc)) false) (Error wc) (closeRecvChan wc)
    (conn_set_pending (soc wc) rest)
    (allowedTypes wc) None (stdout wc).

Lemma recv_run_S n st st' : recv_step st = Step st' -> recv_run (S n) st = recv_run n st'.
Proof. simpl. by intros ->. Qed.

Lemma frames_decode_cons m js v vs :
  frames_decode m js = Some (v :: vs) ->
  exists jn j js' n t, js = jn :: j :: js' /\
    unmarshal_into (VScalar (SString "")) jn = inr (VScalar (SString n)) /\
    m !! n = Some t /\ unmarshal_into (zero_val t) j = inr v /\ frames_decode m js' = Some vs.
Proof.
  destruct js as [|jn [|j js']]; simpl; try done.
  destruct (unmarshal_into (VScalar (SString "")) jn) as [|[[n| |]|]] eqn:Hn; try done.
  destruct (m !! n) as [t|] eqn:Ht; [|done].
  destruct (unmarshal_into (zero_val t) j) as [|v'] eqn:Hv; [done|].
  destruct (frames_decode m js') as [vs'|] eqn:Hvs; [|done].
  intros [= <- <-]. by exists jn, j, js', n, t.
Qed.

(** Four steps per frame: the select, the name, the payload, the push. *)
Lemma recv_run_frames_gen vs js rest wc k :
  frames_decode (allowedTypes wc) js = Some vs ->
  conn_pending (soc wc) = map RJson js ++ rest -> conn_closed (soc wc) = false -> decoder wc = None ->
  closed (closeRecvChan wc) = false -> closed (Recv wc) = false ->
  length (buf (Recv wc)) + length vs <= cap (Recv wc) ->
  recv_run (4 * length vs + k) (InSelect, wc) = recv_run k (InSelect, after_recv wc vs rest).
Proof.
  revert js wc. induction vs as [|v vs IH]; intros js wc Hf Hp Hc Hd Hcr Hr Hroom.
  - destruct js as [|jn [|j js']]; simpl in Hf; try done.
    2:{ by repeat case_match. }
    f_equal. f_equal. destruct wc as [Sd [] Er Cl [] al dec out]; simpl in *. subst.
    unfold after_recv; simpl. by rewrite !app_nil_r.
  - apply frames_decode_cons in Hf as (jn & j & js' & n & t & -> & Hn & Ht & Hv & Hvs).
    replace (4 * length (v :: vs) + k) with (S (S (S (S (4 * length vs + k))))) by (simpl; lia).
    remember (4 * length vs + k) as fuel eqn:Hfuel.
    cbn [recv_run recv_step]. rewrite Hcr. cbn [recv_run recv_step].
    unfold decode. rewrite Hd, Hc, Hp. cbn. rewrite Hn. cbn.
    unfold createTypeInterfaceReflectPointer. rewrite Ht. cbn. rewrite Hc. cbn. rewrite Hv. cbn.
    unfold chan_send. simpl in Hroom. rewrite Hr, decide_True by lia. cbn.
    subst fuel. rewrite (IH js'); [|done|done|done|done|done|done|simpl; rewrite length_snoc; lia].
    unfold after_recv; simpl. by rewrite <- app_assoc.
Qed.

(** The value a step pushes onto [Recv]. *)
Definition pushed (pc : InPC) : list Val :=
  match pc with InPush v => [v] | _ => [] end.

(** What a step of the recv routine may change besides the socket's
    input, the decoder and the error queue. *)
Definition recv_frame (pc : InPC) (wc : WebChan) (pc' : InPC) (wc' : WebChan) : Prop :=
  io_frame wc wc' /\ Send wc' = Send wc /\ cap (Recv wc') = cap (Recv wc) /\
  buf (Recv wc') = buf (Recv wc) ++ pushed pc /\
  closed (Recv wc') = bool_decide (pc' = InExit) || closed (Recv wc) /\
  (chan_ok (Recv wc) -> chan_ok (Recv wc')).

Lemma recv_exit_frame pc wc pc' wc' :
  pushed pc = [] -> recv_exit wc = Step (pc', wc') -> recv_frame pc wc pc' wc'.
Proof.
  intros Hp. unfold recv_exit. destruct (chan_close (Recv wc)) eqn:E; [|done]. intros [= <- <-].
  apply chan_close_ok in E as (Hb & Hc & Hcl & _). unfold recv_frame. rewrite Hp, app_nil_r.
  unfold chan_ok. simpl. rewrite Hb, Hc, Hcl. split_and!; auto with webchan.
Qed.

Lemma recv_error_frame pc wc err pc' wc' :
  pushed pc = [] -> recv_error wc err = Step (pc', wc') -> recv_frame pc wc pc' wc'.
Proof.
  intros Hp. unfold recv_error. repeat case_match; try by apply recv_exit_frame.
  intros [= <- <-]. destruct (tryPushError_frame wc (recvError err)) as (HS & HR & _).
  unfold recv_frame. rewrite Hp, app_nil_r, HS, HR. split_and!; auto with webchan.
Qed.

Lemma recv_frame_io pc wc wc1 pc' wc' :
  io_frame wc wc1 -> Send wc1 = Send wc -> Recv wc1 = Recv wc ->
  recv_frame pc wc1 pc' wc' -> recv_frame pc wc pc' wc'.
Proof.
  intros Hio HS HR (Hio' & HS' & Hc & Hb & Hcl & Hok). unfold recv_frame.
  rewrite <- HS, <- HR. split_and!; try done. by eapply io_frame_trans.
Qed.

Lemma decode_io_frame wc cur d s r :
  decode (decoder wc) (soc wc) cur = Some (d, s, r) -> io_frame wc (set_decoder (set_soc wc s) d).
Proof.
  intros Hd. apply decode_written in Hd as [_ Hc].
  eapply io_frame_trans; [by apply io_frame_set_soc|apply io_frame_set_decoder].
Qed.

(** A step of the recv routine pushes at most the value of [InPush] onto
    [Recv], closes [Recv] exactly when it returns, and otherwise only
    reads the socket and reports errors. *)
Lemma recv_step_frame pc wc pc' wc' :
  recv_step (pc, wc) = Step (pc', wc') -> recv_frame pc wc pc' wc'.
Proof.
  destruct pc as [| |data|v|]; simpl; try done.
  - destruct (closed (closeRecvChan wc)); [by apply recv_exit_frame|].
    intros [= <- <-]. unfold recv_frame. rewrite app_nil_r. split_and!; auto with webchan.
  - destruct (decode (decoder wc) (soc wc) (VScalar (SString ""))) as [[[d s] [err|v]]|] eqn:Hd; [| |done].
    + intros Hst. eapply recv_frame_io; [by eapply decode_io_frame|done|done|].
      by apply (recv_error_frame _ _ err).
    + pose proof (decode_io_frame _ _ _ _ _ Hd) as Hio.
      destruct (createTypeInterfaceReflectPointer (allowedTypes wc) (string_of_val v)); intros [= <- <-].
      * unfold recv_frame. rewrite app_nil_r. by split_and!.
      * destruct (tryPushError_frame (set_decoder (set_soc wc s) d)
          (recvError (Errorf ("type not allowed: " +:+ string_of_val v)))) as (HS & HR & _).
        unfold recv_frame. rewrite app_nil_r, HS, HR. split_and!; try done.
        eapply io_frame_trans; [exact Hio|apply io_frame_tryPushError].
  - destruct (decode (decoder wc) (soc wc) data) as [[[d s] [err|v]]|] eqn:Hd; [| |done].
    + intros Hst. eapply recv_frame_io; [by eapply decode_io_frame|done|done|].
      by apply (recv_error_frame _ _ err).
    + intros [= <- <-]. pose proof (decode_io_frame _ _ _ _ _ Hd) as Hio.
      unfold recv_frame. rewrite app_nil_r. by split_and!.
  - destruct (chan_send (Recv wc) v) as [c| |] eqn:Hs; try done. intros [= <- <-].
    apply chan_send_ok in Hs as (Hb & Hc & Hcl & Hcl0 & Hlt). unfold recv_frame. simpl.
    rewrite Hb, Hc, Hcl, Hcl0. split_and!; auto with webchan.
    intros _. unfold chan_ok. rewrite Hb, Hc, length_snoc. lia.
Qed.


(** C8. On a stream of well-formed frames whose names are registered,
    the recv routine pushes the decoded values onto [Recv] in stream
    order, reports no error, and, the peer's end being open, waits for
    more input. *)
Theorem recv_run_frames vs js wc :
  frames_decode (allowedTypes wc) js = Some vs ->
  conn_pending (soc wc) = map RJson js -> conn_closed (soc wc) = false ->
  conn_peer_closed (soc wc) = false -> decoder wc = None ->
  closed (closeRecvChan wc) = false -> closed (Recv wc) = false ->
  length (buf (Recv wc)) + length vs <= cap (Recv wc) ->
  recv_run (4 * length vs + 2) (InSelect, wc) = ((InDecodeName, after_recv wc vs []), None).
Proof.
  intros Hf Hp Hc Hpc Hd Hcr Hr Hroom. rewrite (recv_run_frames_gen vs js []) by (by rewrite ?app_nil_r).
  cbn. rewrite Hcr. cbn. by rewrite Hc, Hpc.
Qed.

Lemma recv_error_reported wc err :
  is_closed_class err = false -> recv_error wc err = Step (InSelect, tryPushError wc (recvError err)).
Proof. unfold recv_error. by intros ->. Qed.

Lemma recv_exit_ok wc :
  closed (Recv wc) = false ->
  recv_exit wc = Step (InExit, set_Recv wc (mkChan (buf (Recv wc)) (cap (Recv wc)) true)).
Proof. unfold recv_exit, chan_close. by intros ->. Qed.

(** C17. A frame whose type name is not registered is reported as a
    [recvError] "type not allowed" and the loop goes on; the payload of
    that frame is left in the stream, to be read as the next type name. *)
Theorem recv_unknown_name wc jn n rest :
  conn_pending (soc wc) = RJson jn :: rest -> conn_closed (soc wc) = false -> decoder wc = None ->
  unmarshal_into (VScalar (SString "")) jn = inr (VScalar (SString n)) ->
  allowedTypes wc !! n = None -> closed (closeRecvChan wc) = false ->
  closed (Error wc) = false -> chan_ok (Error wc) ->
  exists wc', recv_run 2 (InSelect, wc) = ((InSelect, wc'), None) /\
    conn_pending (soc wc') = rest /\ Recv wc' = Recv wc /\
    buf (Error wc') = take (cap (Error wc)) (buf (Error wc) ++ [recvError (Errorf ("type not allowed: " +:+ n))]).
Proof.
  intros Hp Hc Hd Hn Ht Hcr He Hok.
  cbn [recv_run recv_step]. rewrite Hcr. cbn [recv_run recv_step].
  unfold decode. rewrite Hd, Hc, Hp. cbn. rewrite Hn. cbn.
  unfold createTypeInterfaceReflectPointer. rewrite Ht. cbn.
  eexists. split; [reflexivity|].
  destruct (tryPushError_frame (set_decoder (set_soc wc (conn_set_pending (soc wc) rest)) None) (recvError (Errorf ("type not allowed: " +:+ n))))
    as (_ & HR & _ & Hsoc & _).
  split_and!; [by rewrite Hsoc|by rewrite HR|]. by rewrite tryPushError_take.
Qed.

(** C19. When a [Decode] fails with an error that is [io.EOF] or
    [net.ErrClosed] (also wrapped, e.g. in a [*net.OpError]), the routine
    returns: [Recv] is closed with its buffered values kept, and nothing
    is reported on [Error]. *)
Theorem recv_closed_class_exits pc wc cur d s e :
  (pc = InDecodeName /\ cur = VScalar (SString "") \/ pc = InDecodeData cur) ->
  decode (decoder wc) (soc wc) cur = Some (d, s, inl e) -> is_closed_class e = true ->
  closed (Recv wc) = false ->
  exists wc', recv_step (pc, wc) = Step (InExit, wc') /\
    closed (Recv wc') = true /\ buf (Recv wc') = buf (Recv wc) /\ Error wc' = Error wc.
Proof.
  intros Hpc Hdec He Hr.
  assert (Hstep : recv_step (pc, wc) = recv_error (set_decoder (set_soc wc s) d) e)
    by (destruct Hpc as [[-> ->]| ->]; cbn; by rewrite Hdec).
  rewrite Hstep. unfold recv_error. rewrite He, recv_exit_ok by done. by eexists.
Qed.

(** Every iteration with a sticky decoder error: the check, the failed
    decode reported on [Error]. *)
Lemma recv_sticky_gen wc e n :
  decoder wc = Some e -> is_closed_class e = false -> closed (closeRecvChan wc) = false ->
  closed (Error wc) = false -> chan_ok (Error wc) ->
  exists wc', forall k, recv_run (2 * n + k) (InSelect, wc) = recv_run k (InSelect, wc') /\
    soc wc' = soc wc /\ Recv wc' = Recv wc /\ decoder wc' = Some e /\
    closeRecvChan wc' = closeRecvChan wc /\ cap (Error wc') = cap (Error wc) /\
    closed (Error wc') = false /\ chan_ok (Error wc') /\
    buf (Error wc') = take (cap (Error wc)) (buf (Error wc) ++ replicate n (recvError e)).
Proof.
  revert wc. induction n as [|n IH]; intros wc Hd He Hcr Hce Hok.
  - exists wc. intros k. simpl. rewrite app_nil_r, take_ge by exact Hok. by split_and!.
  - destruct (tryPushError_frame (set_decoder (set_soc wc (soc wc)) (Some e)) (recvError e))
      as (_ & HR & HC & Hsoc & _ & Hdec & Hcap & Hcl).
    destruct (IH (tryPushError (set_decoder (set_soc wc (soc wc)) (Some e)) (recvError e))) as (wc' & Hwc'); [by rewrite Hdec|done|by rewrite HC|by rewrite Hcl|by apply tryPushError_bounded|].
    exists wc'. intros k. destruct (Hwc' k) as (Hrun & Hsoc' & HR' & Hd' & HC' & Hcap' & Hcl' & Hok' & Hbuf').
    split_and!; try done.
    + replace (2 * S n + k) with (S (S (2 * n + k))) by lia.
      cbn [recv_run recv_step]. rewrite Hcr. cbn [recv_run recv_step].
      unfold decode at 1. rewrite Hd. cbn. unfold recv_error. rewrite He. exact Hrun.
    + by rewrite Hsoc', Hsoc.
    + by rewrite HR', HR.
    + by rewrite HC', HC.
    + by rewrite Hcap', Hcap.
    + rewrite Hbuf', Hcap. rewrite tryPushError_take by done. simpl.
      by rewrite take_take_app, <- app_assoc.
Qed.

(** C25. Once the [json.Decoder] has met a read or syntax error other
    than EOF or a closed socket, every later [Decode] returns that error
    without reading: the loop reports the same [recvError] on every
    iteration, never reads or delivers another frame, and only stops when
    [closeRecvChan] is closed. *)
Theorem recv_sticky_error_spins wc e n :
  decoder wc = Some e -> is_closed_class e = false -> closed (closeRecvChan wc) = false ->
  closed (Error wc) = false -> chan_ok (Error wc) ->
  exists wc', recv_run (2 * n) (InSelect, wc) = ((InSelect, wc'), None) /\
    soc wc' = soc wc /\ Recv wc' = Recv wc /\
    buf (Error wc') = take (cap (Error wc)) (buf (Error wc) ++ replicate n (recvError e)).
Proof.
  intros Hd He Hcr Hce Hok. destruct (recv_sticky_gen wc e n) as (wc' & Hgen); [done..|].
  destruct (Hgen 0) as (Hrun & Hsoc & HR & _ & _ & _ & _ & _ & Hbuf).
  exists wc'. rewrite Nat.add_0_r in Hrun. by rewrite Hrun.
Qed.

(** C20. After [Close] (close signal and socket closed), the routine
    returns within two steps from any point but the push onto [Recv],
    closing [Recv] and keeping the values already buffered there. *)
Theorem recv_terminates_after_close pc wc :
  closed (closeRecvChan wc) = true -> conn_closed (soc wc) = true -> closed (Recv wc) = false ->
  (pc = InSelect \/ pc = InDecodeName \/ exists d, pc = InDecodeData d) ->
  exists wc', recv_run 2 (pc, wc) = ((InExit, wc'), None) /\
    closed (Recv wc') = true /\ buf (Recv wc') = buf (Recv wc).
Proof.
  intros Hcr Hc Hr Hpc.
  assert (Hsel : forall n w, closed (closeRecvChan w) = true -> closed (Recv w) = false ->
            recv_run (S n) (InSelect, w) = ((InExit, set_Recv w (mkChan (buf (Recv w)) (cap (Recv w)) true)), None)).
  { intros n w H1 H2. cbn [recv_run recv_step]. rewrite H1, recv_exit_ok by done. by destruct n. }
  assert (Hdec : forall cur, exists d s e, decode (decoder wc) (soc wc) cur = Some (d, s, inl e) /\
            conn_closed s = true).
  { intros cur. unfold decode. destruct (decoder wc) as [e|].
    - by exists (Some e), (soc wc), e.
    - rewrite Hc. by eexists _, (soc wc), _. }
  destruct Hpc as [->|[->|[d ->]]].
  - rewrite Hsel by done. by eexists.
  - destruct (Hdec (VScalar (SString ""))) as (d & s & e & Hd & Hs).
    destruct (is_closed_class e) eqn:Hce.
    + cbn [recv_run recv_step]. rewrite Hd. unfold recv_error. rewrite Hce, recv_exit_ok by done. by eexists.
    + rewrite (recv_run_S 1 _ (InSelect, tryPushError (set_decoder (set_soc wc s) d) (recvError e))).
      2:{ cbn [recv_step]. rewrite Hd. unfold recv_error. by rewrite Hce. }
      destruct (tryPushError_frame (set_decoder (set_soc wc s) d) (recvError e)) as (_ & HR & HC & _).
      rewrite Hsel by (rewrite ?HR, ?HC; done). eexists. split; [reflexivity|]. simpl. by rewrite HR.
  - destruct (Hdec d) as (d' & s & e & Hd & Hs).
    destruct (is_closed_class e) eqn:Hce.
    + cbn [recv_run recv_step]. rewrite Hd. unfold recv_error. rewrite Hce, recv_exit_ok by done. by eexists.
    + rewrite (recv_run_S 1 _ (InSelect, tryPushError (set_decoder (set_soc wc s) d') (recvError e))).
      2:{ cbn [recv_step]. rewrite Hd. unfold recv_error. by rewrite Hce. }
      destruct (tryPushError_frame (set_decoder (set_soc wc s) d') (recvError e)) as (_ & HR & HC & _).
      rewrite Hsel by (rewrite ?HR, ?HC; done). eexists. split; [reflexivity|]. simpl. by rewrite HR.
Qed.

(** C21. On one end of a [net.Pipe()], [Close] makes the blocked read of
    the recv routine fail with [io.ErrClosedPipe], which is neither
    [net.ErrClosed] nor [io.EOF]: the routine reports it as a
    [recvError] before it sees the close signal and returns, whereas on a
    TCP socket it returns without reporting anything. *)
Theorem recv_close_on_pipe_reports wc :
  conn_kind (soc wc) = PipeConn -> conn_closed (soc wc) = true -> decoder wc = None ->
  closed (closeRecvChan wc) = true -> closed (Recv wc) = false ->
  closed (Error wc) = false -> chan_ok (Error wc) ->
  exists wc', recv_run 3 (InDecodeName, wc) = ((InExit, wc'), None) /\ closed (Recv wc') = true /\
    buf (Error wc') = take (cap (Error wc)) (buf (Error wc) ++ [recvError ErrClosedPipe]).
Proof.
  intros Hk Hc Hd Hcr Hr He Hok.
  set (wc1 := tryPushError (set_decoder (set_soc wc (soc wc)) (Some ErrClosedPipe)) (recvError ErrClosedPipe)).
  rewrite (recv_run_S 2 _ (InSelect, wc1)).
  2:{ cbn [recv_step]. unfold decode. rewrite Hd, Hc, Hk. reflexivity. }
  destruct (tryPushError_frame (set_decoder (set_soc wc (soc wc)) (Some ErrClosedPipe)) (recvError ErrClosedPipe))
    as (_ & HR & HC & _).
  cbn [recv_run recv_step]. unfold wc1. rewrite HC. cbn [set_decoder set_soc closeRecvChan].
  rewrite Hcr, recv_exit_ok by (by rewrite HR).
  eexists. split; [reflexivity|]. simpl. split; [done|]. by rewrite tryPushError_take.
Qed.

End Inbound.

(** ** Witnesses, with [json_codec] *)

(** [NewWebChan(soc, 10, "")] whose peer has sent [input]. *)
Definition in_base (input : list read_item) : WebChan :=
  NewWebChan (conn_open input) 10 [VScalar (SString "")].

Lemma recv_run_frames_witness :
  recv_run (4 * 2 + 2) (InSelect, in_base (map RJson [JStr "string"; JStr "hi"; JStr "string"; JStr "yo"])) =
    ((InDecodeName, after_recv (in_base (map RJson [JStr "string"; JStr "hi"; JStr "string"; JStr "yo"]))
                      [VScalar (SString "hi"); VScalar (SString "yo")] []), None).
Proof.
  apply (recv_run_frames [VScalar (SString "hi"); VScalar (SString "yo")]
           [JStr "string"; JStr "hi"; JStr "string"; JStr "yo"]
           (in_base (map RJson [JStr "string"; JStr "hi"; JStr "string"; JStr "yo"])));
    vm_compute; try reflexivity; lia.
Defined.

(** The frame ("point", {"X":1}) reaches an endpoint that only knows strings. *)
Lemma recv_unknown_name_witness :
  exists wc', recv_run 2 (InSelect, in_base [RJson (JStr "point"); RJson (JObj [("X", JNum 1)])]) =
    ((InSelect, wc'), None) /\ conn_pending (soc wc') = [RJson (JObj [("X", JNum 1)])] /\
    Recv wc' = Recv (in_base []) /\
    buf (Error wc') = [recvError (Errorf ("type not allowed: " +:+ "point"))].
Proof.
  apply (recv_unknown_name (in_base [RJson (JStr "point"); RJson (JObj [("X", JNum 1)])]) (JStr "point") "point" [RJson (JObj [("X", JNum 1)])]);
    vm_compute; try reflexivity; lia.
Defined.

Lemma recv_closed_class_exits_witness :
  exists wc', recv_step (InDecodeName, in_base [RErr (OpError "read" EOF)]) = Step (InExit, wc') /\
    closed (Recv wc') = true /\ buf (Recv wc') = [] /\ Error wc' = Error (in_base []).
Proof.
  apply (recv_closed_class_exits InDecodeName (in_base [RErr (OpError "read" EOF)]) (VScalar (SString ""))
           (Some (OpError "read" EOF)) (mkConn TCPConn false false [] [] []) (OpError "read" EOF));
    [left; split; reflexivity|vm_compute; reflexivity..].
Defined.

(** The decoder has met a syntax error; a valid frame is pending behind it. *)
Lemma recv_sticky_error_spins_witness :
  exists wc', recv_run (2 * 3) (InSelect, set_decoder (in_base [RJson (JStr "string"); RJson (JStr "hi")])
                                        (Some (SyntaxError "invalid character"))) =
    ((InSelect, wc'), None) /\ soc wc' = conn_open [RJson (JStr "string"); RJson (JStr "hi")] /\
    Recv wc' = Recv (in_base []) /\
    buf (Error wc') = replicate 3 (recvError (SyntaxError "invalid character")).
Proof.
  apply (recv_sticky_error_spins (set_decoder (in_base [RJson (JStr "string"); RJson (JStr "hi")])
           (Some (SyntaxError "invalid character"))) (SyntaxError "invalid character") 3);
    vm_compute; try reflexivity; lia.
Defined.

Lemma recv_terminates_after_close_witness :
  exists wc', recv_run 2 (InDecodeName, set_soc (set_closeRecvChan (in_base []) (mkChan [] 0 true))
                                          (conn_close (conn_open []))) =
    ((InExit, wc'), None) /\ closed (Recv wc') = true /\ buf (Recv wc') = [].
Proof.
  apply (recv_terminates_after_close InDecodeName
           (set_soc (set_closeRecvChan (in_base []) (mkChan [] 0 true)) (conn_close (conn_open []))));
    [reflexivity..|right; left; reflexivity].
Defined.

Lemma recv_close_on_pipe_reports_witness :
  exists wc', recv_run 3 (InDecodeName, set_soc (set_closeRecvChan (in_base []) (mkChan [] 0 true))
                                        (conn_close pipe_end)) = ((InExit, wc'), None) /\
    closed (Recv wc') = true /\ buf (Error wc') = [recvError ErrClosedPipe].
Proof.
  apply (recv_close_on_pipe_reports (set_soc (set_closeRecvChan (in_base []) (mkChan [] 0 true))
                                        (conn_close pipe_end))); try reflexivity.
  unfold chan_ok. simpl. lia.
Defined.
