(* ===== verification/Wire.v ===== *)
(** The recv routine (src/webchan.go lines 98-135) on the bytes of the
    stream.  [Inbound] runs the routine on the items its decoder yields;
    here those items are what [JsonText.decode_items] makes of the bytes
    the peer wrote, so that the claims speak of the connection as the Go
    program sees it: a stream of newline-terminated JSON texts, complete
    or cut short by the peer closing its end.  The codec is
    [encoding/json] ([json_codec]). *)
From Stdlib Require Import Ascii String.
From stdpp Require Import pretty.
From S2P Require Import Prelude GoValues GoErrors GoChan Codec Conn Registry WebChanState Inbound JsonText JsonStream.

(** ** Frames after frames *)

Lemma frames_snoc js j : frames (js ++ [j]) = frames js ++ encode_frame j.
Proof. unfold frames. by rewrite flat_map_app; cbn; rewrite app_nil_r. Qed.

Lemma frames_decode_nil m js : frames_decode m js = Some [] -> js = [].
Proof. destruct js as [|jn [|j js]]; cbn; try done. by repeat case_match. Qed.

(** One more frame pair after a stream [frames_decode] accepts. *)
Lemma frames_decode_snoc m js vs n t j v :
  frames_decode m js = Some vs -> m !! n = Some t -> unmarshal_into (zero_val t) j = inr v ->
  frames_decode m (js ++ [JStr n; j]) = Some (vs ++ [v]).
Proof.
  revert js. induction vs as [|v' vs IH]; intros js Hf Ht Hv.
  - apply frames_decode_nil in Hf as ->. cbn [app frames_decode]. change (unmarshal_into _ (JStr n)) with
      (inr (A := GoError) (VScalar (SString n))). cbv iota. by rewrite Ht, Hv.
  - apply frames_decode_cons in Hf as (jn' & j' & js' & n' & t' & -> & Hn' & Ht' & Hv' & Hvs).
    cbn [app frames_decode]. by rewrite Hn', Ht', Hv', (IH js').
Qed.

Lemma frame_ok_str n : ascii_string n = true -> frame_ok (JStr n).
Proof. split; [done|cbn; lia]. Qed.

(** The integer [strconv.ParseInt] reads from a prefix of a literal in
    range is in range. *)
Lemma int_in_range_quot10 z : int_in_range z = true -> (10 <= Z.abs z)%Z -> int_in_range (Z.quot z 10) = true.
Proof.
  unfold int_in_range, int_min, int_max. rewrite !andb_true_iff, !Z.leb_le. intros Hz H.
  destruct (quot10 z H) as [Ha Hs]. assert (Z.abs z / 10 <= Z.abs z)%Z by (apply Z.div_le_upper_bound; lia).
  destruct (Z.ltb_spec (Z.quot z 10) 0), (Z.ltb_spec z 0); try done; lia.
Qed.

(** ** The routine on a complete stream *)

Section Wire.

Variables (vs : list Val) (js : list json) (wc : WebChan).
Hypothesis Hf : frames_decode (allowedTypes wc) js = Some vs.
Hypothesis Hc : conn_closed (soc wc) = false.
Hypothesis Hd : decoder wc = None.
Hypothesis Hcr : closed (closeRecvChan wc) = false.
Hypothesis Hr : closed (Recv wc) = false.
Hypothesis Hroom : length (buf (Recv wc)) + length vs <= cap (Recv wc).

(** Peer open: the values are pushed and the routine waits in the
    name's [Decode]. *)
Lemma recv_run_frames_wait :
  conn_pending (soc wc) = map RJson js -> conn_peer_closed (soc wc) = false ->
  recv_run (4 * length vs + 2) (InSelect, wc) = ((InDecodeName, after_recv wc vs []), None).
Proof.
  intros Hp Hpc. rewrite (recv_run_frames_gen vs js []) by (by rewrite ?app_nil_r).
  cbn. rewrite Hcr. cbn. by rewrite Hc, Hpc.
Qed.

(** Peer closed: the values are pushed, the name's [Decode] meets
    [io.EOF] and the routine returns, closing [Recv]. *)
Lemma recv_run_frames_exit :
  conn_pending (soc wc) = map RJson js -> conn_peer_closed (soc wc) = true ->
  exists wc', recv_run (4 * length vs + 2) (InSelect, wc) = ((InExit, wc'), None) /\
    buf (Recv wc') = buf (Recv wc) ++ vs /\ closed (Recv wc') = true /\ Error wc' = Error wc.
Proof.
  intros Hp Hpc. rewrite (recv_run_frames_gen vs js []) by (by rewrite ?app_nil_r).
  cbn. rewrite Hcr. cbn. rewrite Hc, Hpc. cbn. by eexists.
Qed.

End Wire.

(** ** What the routine makes of the bytes *)

(** C37. Reading bytes: when the peer has written the frames of [js],
    [Encoder.Encode]'s newline-terminated texts, as bytes on the socket,
    the recv routine, whose [json.Decoder] parses those bytes, pushes the
    values of the frame pairs onto [Recv] in order, reports nothing, and
    waits for more input. *)
Theorem recv_bytes_frames vs js wc : Forall frame_ok js ->
  frames_decode (allowedTypes wc) js = Some vs ->
  conn_pending (soc wc) = decode_items false (frames js) ->
  conn_closed (soc wc) = false -> conn_peer_closed (soc wc) = false -> decoder wc = None ->
  closed (closeRecvChan wc) = false -> closed (Recv wc) = false ->
  length (buf (Recv wc)) + length vs <= cap (Recv wc) ->
  recv_run (4 * length vs + 2) (InSelect, wc) = ((InDecodeName, after_recv wc vs []), None).
Proof.
  intros Hjs Hf Hp. rewrite (proj1 (frames_read_back js Hjs) false) in Hp.
  intros. by apply (recv_run_frames_wait vs js).
Qed.

(** C38. A payload frame cut short: when the peer closes its end after
    a complete name frame [n] of a registered type and a non-empty part
    [t] of the payload frame (a value that is not a number), more than
    its newline missing, the recv routine pushes the values before it,
    reads the name, and its [Decode] of the payload fails with
    [io.ErrUnexpectedEOF]: the routine reports a [recvError] wrapping it
    and the decoder keeps that error, so that every later iteration
    reports it again. *)
Theorem recv_torn_payload_reports vs js wc n ty j t u : Forall frame_ok js ->
  frames_decode (allowedTypes wc) js = Some vs -> allowedTypes wc !! n = Some ty -> ascii_string n = true ->
  frame_ok j -> is_number j = false -> t ++ u = encode_frame j -> t <> [] -> u <> [] -> u <> ["010"%char] ->
  conn_pending (soc wc) = decode_items true (frames js ++ encode_frame (JStr n) ++ t) ->
  conn_closed (soc wc) = false -> conn_peer_closed (soc wc) = true -> decoder wc = None ->
  closed (closeRecvChan wc) = false -> closed (Recv wc) = false ->
  length (buf (Recv wc)) + length vs <= cap (Recv wc) -> closed (Error wc) = false -> chan_ok (Error wc) ->
  exists wc', recv_run (4 * length vs + 3) (InSelect, wc) = ((InSelect, wc'), None) /\
    buf (Recv wc') = buf (Recv wc) ++ vs /\ decoder wc' = Some ErrUnexpectedEOF /\
    buf (Error wc') = take (cap (Error wc)) (buf (Error wc) ++ [recvError ErrUnexpectedEOF]).
Proof.
  intros Hjs Hf Ht Hn Hj Hnum Htu Ht0 Hu Hnl Hp Hc Hpc Hd Hcr Hr Hroom Hce Hok.
  rewrite app_assoc, <- frames_snoc, (torn_frame_at_eof _ j t u) in Hp
    by (try apply Forall_app; auto using frame_ok_str).
  rewrite bool_decide_eq_false_2, map_app, <- app_assoc in Hp by done.
  rewrite (recv_run_frames_gen vs js _ wc 3 Hf Hp) by done.
  unfold after_recv. cbn [recv_run recv_step closeRecvChan]. rewrite Hcr. cbn [recv_run recv_step].
  unfold decode. cbn. rewrite Hc. cbn. unfold createTypeInterfaceReflectPointer. rewrite Ht. cbn. rewrite Hc. cbn.
  rewrite recv_error_reported by done. eexists. split_and!; [reflexivity| | |];
    match goal with |- context [tryPushError ?X ?e] =>
      destruct (tryPushError_frame X e) as (_ & HR & _ & _ & _ & Hdec & _) end.
  - by rewrite HR.
  - by rewrite Hdec.
  - by rewrite tryPushError_take.
Qed.

(** C39. An integer payload cut short is delivered as another integer:
    when the peer closes its end after a name frame [n] registered as
    [int] and the first digits of the payload frame carrying [z]
    (|z| >= 10), those that write [z / 10] truncated toward zero, the
    recv routine pushes [z / 10] onto [Recv] as if it had been sent, its
    next [Decode] meets [io.EOF], and it returns without reporting any
    error. *)
Theorem recv_torn_int_misread vs js wc n z : Forall frame_ok js ->
  frames_decode (allowedTypes wc) js = Some vs -> allowedTypes wc !! n = Some (TScalar KInt) ->
  ascii_string n = true -> int_in_range z = true -> (10 <= Z.abs z)%Z ->
  conn_pending (soc wc) = decode_items true (frames js ++ encode_frame (JStr n) ++ str (pretty (Z.quot z 10))) ->
  conn_closed (soc wc) = false -> conn_peer_closed (soc wc) = true -> decoder wc = None ->
  closed (closeRecvChan wc) = false -> closed (Recv wc) = false ->
  length (buf (Recv wc)) + S (length vs) <= cap (Recv wc) ->
  (exists u, u <> [] /\ str (pretty (Z.quot z 10)) ++ u = encode_frame (JNum z)) /\
  exists wc', recv_run (4 * length vs + 6) (InSelect, wc) = ((InExit, wc'), None) /\
    buf (Recv wc') = buf (Recv wc) ++ vs ++ [VScalar (SInt (Z.quot z 10))] /\
    closed (Recv wc') = true /\ Error wc' = Error wc.
Proof.
  intros Hjs Hf Ht Hn Hz Hz10 Hp Hc Hpc Hd Hcr Hr Hroom.
  destruct (torn_int_misread (js ++ [JStr n]) z) as (u & Hu & Hcut & Hdec);
    [apply Forall_app; auto using frame_ok_str|done|].
  split; [by exists u|].
  rewrite app_assoc, <- frames_snoc, Hdec, map_app, <- app_assoc in Hp.
  assert (Hf' : frames_decode (allowedTypes wc) (js ++ [JStr n; JNum (Z.quot z 10)]) =
    Some (vs ++ [VScalar (SInt (Z.quot z 10))])).
  { apply (frames_decode_snoc _ _ _ _ _ _ _ Hf Ht). cbn. by rewrite int_in_range_quot10. }
  destruct (recv_run_frames_exit _ _ wc Hf' Hc Hd Hcr Hr) as (wc' & Hrun & Hb & Hcl & He);
    [rewrite length_app; cbn; lia|by rewrite map_app|done|].
  rewrite length_app in Hrun. cbn [length] in Hrun. replace (4 * length vs + 6) with (4 * (length vs + 1) + 2) by lia.
  exists wc'. by rewrite Hrun, Hb.
Qed.

(** C40. A string payload with a byte that is not UTF-8 is delivered
    changed: when the peer sends a name frame [n] registered as [string]
    and a string of ASCII bytes with one byte [c] that cannot start a
    UTF-8 sequence, the recv routine pushes the string with the three
    bytes of U+FFFD in place of [c]: [json.Marshal] wrote [c] as the
    escape [�], and reports nothing. *)
Theorem recv_invalid_utf8_replaced vs js wc n s1 c s2 : Forall frame_ok js ->
  frames_decode (allowedTypes wc) js = Some vs -> allowedTypes wc !! n = Some (TScalar KString) ->
  ascii_string n = true -> ascii_string s1 = true -> ascii_string s2 = true ->
  (128 <= code c)%N -> (code c < 0xC2 \/ 0xF4 < code c)%N ->
  conn_pending (soc wc) = decode_items false (frames js ++ encode_frame (JStr n) ++ encode_frame (JStr (s1 +:+ String c s2))) ->
  conn_closed (soc wc) = false -> conn_peer_closed (soc wc) = false -> decoder wc = None ->
  closed (closeRecvChan wc) = false -> closed (Recv wc) = false ->
  length (buf (Recv wc)) + S (length vs) <= cap (Recv wc) ->
  recv_run (4 * length vs + 6) (InSelect, wc) =
    ((InDecodeName, after_recv wc (vs ++ [VScalar (SString (s1 +:+ String "239" (String "191" (String "189" s2))))]) []), None).
Proof.
  intros Hjs Hf Ht Hn H1 H2 Hc1 Hc2 Hp Hc Hpc Hd Hcr Hr Hroom.
  rewrite app_assoc, <- frames_snoc, invalid_utf8_replaced, map_app, <- app_assoc in Hp
    by (try apply Forall_app; auto using frame_ok_str).
  replace (4 * length vs + 6) with (4 * length (vs ++ [VScalar (SString (s1 +:+ String "239" (String "191" (String "189" s2))))]) + 2)
    by (rewrite length_app; cbn; lia).
  apply (recv_run_frames_wait _ (js ++ [JStr n; JStr (s1 +:+ String "239" (String "191" (String "189" s2)))]));
    try done; [by apply (frames_decode_snoc _ _ _ _ _ _ _ Hf Ht)|rewrite length_app; cbn; lia|by rewrite map_app].
Qed.

(** ** The claims on the test's values *)

(** [NewWebChan(soc, 10, "", 0, testType{})] whose peer has sent the
    bytes [b], and closed its end when [eof]. *)
Definition wire_base (eof : bool) (b : text) : WebChan :=
  let c := conn_open (decode_items eof b) in
  NewWebChan (if eof then conn_peer_close c else c) 10
    [VScalar (SString ""); VScalar (SInt 0); VStruct "webchan" "testType" [("A", SInt 0); ("B", SString "")]].

Lemma recv_bytes_frames_witness :
  recv_run (4 * 2 + 2) (InSelect, wire_base false (frames
      [JStr "string"; JStr "Hello"; JStr "webchan.testType"; JObj [("A", JNum 42); ("B", JStr "Hello")]])) =
    ((InDecodeName, after_recv (wire_base false (frames
      [JStr "string"; JStr "Hello"; JStr "webchan.testType"; JObj [("A", JNum 42); ("B", JStr "Hello")]]))
       [VScalar (SString "Hello"); VStruct "webchan" "testType" [("A", SInt 42); ("B", SString "Hello")]] []), None).
Proof.
  apply (recv_bytes_frames [VScalar (SString "Hello"); VStruct "webchan" "testType" [("A", SInt 42); ("B", SString "Hello")]]
    [JStr "string"; JStr "Hello"; JStr "webchan.testType"; JObj [("A", JNum 42); ("B", JStr "Hello")]]);
    [frames_ok|vm_compute; try reflexivity; lia..].
Defined.

(** The connection closes in the middle of the [testType] payload. *)
Lemma recv_torn_payload_reports_witness :
  exists wc', recv_run (4 * 1 + 3) (InSelect, wire_base true (frames [JStr "string"; JStr "Hello"] ++
      encode_frame (JStr "webchan.testType") ++ ["{"; dq; "A"; dq; ":"; "4"]%char)) = ((InSelect, wc'), None) /\
    buf (Recv wc') = [VScalar (SString "Hello")] /\ decoder wc' = Some ErrUnexpectedEOF /\
    buf (Error wc') = [recvError ErrUnexpectedEOF].
Proof.
  apply (recv_torn_payload_reports [VScalar (SString "Hello")] [JStr "string"; JStr "Hello"]
    (wire_base true (frames [JStr "string"; JStr "Hello"] ++
      encode_frame (JStr "webchan.testType") ++ ["{"; dq; "A"; dq; ":"; "4"]%char)) "webchan.testType"
    (TStruct "webchan" "testType" [("A", KInt); ("B", KString)]) (JObj [("A", JNum 42); ("B", JStr "Hello")])
    ["{"; dq; "A"; dq; ":"; "4"]%char ["2"; ","; dq; "B"; dq; ":"; dq; "H"; "e"; "l"; "l"; "o"; dq; "}"; "010"]%char);
    [frames_ok|vm_compute; try reflexivity; try done; lia..].
Defined.

(** The connection closes after the first digit of [42]. *)
Lemma recv_torn_int_misread_witness :
  (exists u, u <> [] /\ str (pretty 4%Z) ++ u = encode_frame (JNum 42)) /\
  exists wc', recv_run (4 * 1 + 6) (InSelect, wire_base true (frames [JStr "string"; JStr "Hello"] ++
      encode_frame (JStr "int") ++ str (pretty 4%Z))) = ((InExit, wc'), None) /\
    buf (Recv wc') = [VScalar (SString "Hello"); VScalar (SInt 4)] /\ closed (Recv wc') = true /\
    Error wc' = Error (wire_base true []).
Proof.
  apply (recv_torn_int_misread [VScalar (SString "Hello")] [JStr "string"; JStr "Hello"]
    (wire_base true (frames [JStr "string"; JStr "Hello"] ++
      encode_frame (JStr "int") ++ str (pretty 4%Z))) "int" 42);
    [frames_ok|vm_compute; try reflexivity; try done; lia..].
Defined.

(** The byte 0xFF in "ab?cd". *)
Lemma recv_invalid_utf8_replaced_witness :
  recv_run (4 * 1 + 6) (InSelect, wire_base false (frames [JStr "string"; JStr "Hello"] ++
      encode_frame (JStr "string") ++ encode_frame (JStr ("ab" +:+ String "255" "cd")))) =
    ((InDecodeName, after_recv (wire_base false (frames [JStr "string"; JStr "Hello"] ++
      encode_frame (JStr "string") ++ encode_frame (JStr ("ab" +:+ String "255" "cd"))))
      [VScalar (SString "Hello"); VScalar (SString ("ab" +:+ String "239" (String "191" (String "189" "cd"))))] []), None).
Proof.
  apply (recv_invalid_utf8_replaced [VScalar (SString "Hello")] [JStr "string"; JStr "Hello"] _ "string" "ab" "255" "cd");
    [frames_ok|reflexivity|reflexivity|reflexivity|reflexivity|reflexivity|
     apply N.leb_le; reflexivity|right; apply N.ltb_lt; reflexivity|vm_compute; try reflexivity; lia..].
Defined.
