(* ===== verification/Lifecycle.v ===== *)
(** [Close] (src/webchan.go lines 141-153) and the whole program as a
    concurrent system.  A call of [Close] is a thread of four atomic
    steps: the [select] on [closeRecvChan] (lines 142-148), then
    [close(wc.closeRecvChan)] (line 149), [close(wc.Send)] (line 150) and
    [wc.soc.Close()] (line 151).  The program's steps ([local_step])
    interleave the send routine, the recv routine, any number of [Close]
    calls and the caller's channel operations; the system's steps
    ([sys_step]) add the peer's writes and its close.  Every step is
    labelled with the queue events it performs, and a panic stops the
    process. *)
From S2P Require Import Prelude GoValues GoErrors GoChan Codec Conn Registry WebChanState Outbound Inbound.

Inductive ClosePC :=
  | CSelect           (* line 142 *)
  | CCloseRecvChan    (* line 149 *)
  | CCloseSend        (* line 150 *)
  | CCloseSoc         (* line 151 *)
  | CDone.            (* returned *)

(** One step of a [Close] call. *)
Definition close_step (st : ClosePC * WebChan) : step_result (ClosePC * WebChan) :=
  let '(pc, wc) := st in
  match pc with
  | CSelect =>
      match chan_recv (closeRecvChan wc) with
      | RecvClosed => Step (CDone, wc)                       (* !ok: already closed *)
      | Received _ c => Step (CDone, set_closeRecvChan wc c)  (* a value: the select ends *)
      | RecvBlocks => Step (CCloseRecvChan, wc)               (* default *)
      end
  | CCloseRecvChan =>
      match chan_close (closeRecvChan wc) with
      | Some c => Step (CCloseSend, set_closeRecvChan wc c)
      | None => Panicked CloseOfClosedChannel
      end
  | CCloseSend =>
      match chan_close (Send wc) with
      | Some c => Step (CCloseSoc, set_Send wc c)
      | None => Panicked CloseOfClosedChannel
      end
  | CCloseSoc => Step (CDone, set_soc wc (conn_close (soc wc)))
  | CDone => Blocked
  end.

(** A call of [Close] with no other thread running. *)
Fixpoint close_run (fuel : nat) (st : ClosePC * WebChan) : (ClosePC * WebChan) * option Panic :=
  match fuel with
  | 0 => (st, None)
  | S n =>
      match close_step st with
      | Step st' => close_run n st'
      | Blocked => (st, None)
      | Panicked p => (st, Some p)
      end
  end.

Definition Close (wc : WebChan) : WebChan * option Panic :=
  let '((_, wc'), p) := close_run 4 (CSelect, wc) in (wc', p).

(** ** Sequential [Close] *)

(** C11. A first [Close] closes [closeRecvChan], [Send] and the socket,
    in that order, and panics on nothing; a second [Close] finds
    [closeRecvChan] closed and changes nothing: the socket is closed once. *)
Theorem Close_idempotent wc :
  closed (closeRecvChan wc) = false -> buf (closeRecvChan wc) = [] -> closed (Send wc) = false ->
  exists wc', Close wc = (wc', None) /\
    closed (closeRecvChan wc') = true /\ closed (Send wc') = true /\ conn_closed (soc wc') = true /\
    buf (Send wc') = buf (Send wc) /\ conn_written (soc wc') = conn_written (soc wc) /\
    Close wc' = (wc', None).
Proof.
  intros Hcr Hb Hs. unfold Close. cbn [close_run close_step].
  unfold chan_recv at 1. rewrite Hb, Hcr. cbn [close_run close_step].
  unfold chan_close at 1. rewrite Hcr. cbn [close_run close_step].
  unfold chan_close at 1. cbn. rewrite Hs. cbn.
  eexists. split; [reflexivity|]. split_and!; try done.
  cbn. unfold chan_recv. rewrite Hb. done.
Qed.

(** What a call of [Close] does when no other thread runs, in one go:
    nothing if [closeRecvChan] is closed; otherwise it closes
    [closeRecvChan], then [Send] (panicking if that is already closed)
    and the socket. *)
Definition Close_spec (wc : WebChan) : WebChan * option Panic :=
  if closed (closeRecvChan wc) then (wc, None)
  else
    let wc1 := set_closeRecvChan wc (mkChan (buf (closeRecvChan wc)) (cap (closeRecvChan wc)) true) in
    if closed (Send wc) then (wc1, Some CloseOfClosedChannel)
    else (set_soc (set_Send wc1 (mkChan (buf (Send wc)) (cap (Send wc)) true)) (conn_close (soc wc)), None).


(** ** The concurrent system *)

(** What the steps do to the three queues. *)
Inductive event :=
  | ESend (v : Val)   (* the caller's [wc.Send <- v] *)
  | ETake (v : Val)   (* the send routine's [<-wc.Send] (line 79) *)
  | EPush (v : Val)   (* the recv routine's [wc.Recv <- v] (line 131) *)
  | ERecv (v : Val)   (* the caller's [<-wc.Recv] *)
  | EErr (e : GoError)   (* the caller's [<-wc.Error] *)
  | EPeer (it : read_item).  (* the peer's write reaching the socket *)

Record World := mkWorld {
  w_wc : WebChan;
  w_out : OutPC;
  w_in : InPC;
  w_closers : list ClosePC;
  w_panic : option Panic;
}.

(** The state right after [NewNamedWebChan] returns: both goroutines at
    the top of their loops. *)
Definition init_world (wc : WebChan) : World := mkWorld wc OutRecv InSelect [] None.

Definition send_label (pc pc' : OutPC) : list event := ETake <$> taken pc pc'.

Definition recv_label (pc : InPC) : list event := EPush <$> pushed pc.

(** The values of each kind of event, in order. *)
Definition sends (evs : list event) : list Val :=
  omap (fun e => match e with ESend v => Some v | _ => None end) evs.
Definition takes (evs : list event) : list Val :=
  omap (fun e => match e with ETake v => Some v | _ => None end) evs.
Definition pushes (evs : list event) : list Val :=
  omap (fun e => match e with EPush v => Some v | _ => None end) evs.
Definition receives (evs : list event) : list Val :=
  omap (fun e => match e with ERecv v => Some v | _ => None end) evs.

Section System.
Context {codec : Codec}.

(** The steps of the program's threads: the two goroutines, the [Close]
    calls and the caller's channel operations. *)
Inductive local_step : World -> list event -> World -> Prop :=
  | step_send_routine w order st' :
      w_panic w = None -> iteration_order (allowedTypes (w_wc w)) order ->
      send_step order (w_out w, w_wc w) = Step st' ->
      local_step w (send_label (w_out w) st'.1) (mkWorld st'.2 st'.1 (w_in w) (w_closers w) None)
  | step_send_routine_panic w order p :
      w_panic w = None -> iteration_order (allowedTypes (w_wc w)) order ->
      send_step order (w_out w, w_wc w) = Panicked p ->
      local_step w [] (mkWorld (w_wc w) (w_out w) (w_in w) (w_closers w) (Some p))
  | step_recv_routine w st' :
      w_panic w = None -> recv_step (w_in w, w_wc w) = Step st' ->
      local_step w (recv_label (w_in w)) (mkWorld st'.2 (w_out w) st'.1 (w_closers w) None)
  | step_recv_routine_panic w p :
      w_panic w = None -> recv_step (w_in w, w_wc w) = Panicked p ->
      local_step w [] (mkWorld (w_wc w) (w_out w) (w_in w) (w_closers w) (Some p))
  | step_call_Close w :
      w_panic w = None ->
      local_step w [] (mkWorld (w_wc w) (w_out w) (w_in w) (w_closers w ++ [CSelect]) None)
  | step_Close w i pc st' :
      w_panic w = None -> w_closers w !! i = Some pc -> close_step (pc, w_wc w) = Step st' ->
      local_step w [] (mkWorld st'.2 (w_out w) (w_in w) (<[i := st'.1]> (w_closers w)) None)
  | step_Close_panic w i pc p :
      w_panic w = None -> w_closers w !! i = Some pc -> close_step (pc, w_wc w) = Panicked p ->
      local_step w [] (mkWorld (w_wc w) (w_out w) (w_in w) (w_closers w) (Some p))
  | step_caller_send w v c :
      w_panic w = None -> chan_send (Send (w_wc w)) v = Sent c ->
      local_step w [ESend v] (mkWorld (set_Send (w_wc w) c) (w_out w) (w_in w) (w_closers w) None)
  | step_caller_send_handoff w v order pc' :
      w_panic w = None -> closed (Send (w_wc w)) = false -> buf (Send (w_wc w)) = [] ->
      w_out w = OutRecv -> iteration_order (allowedTypes (w_wc w)) order ->
      send_after_recv order v = inl pc' ->
      local_step w [ESend v; ETake v] (mkWorld (w_wc w) pc' (w_in w) (w_closers w) None)
  | step_caller_send_handoff_panic w v order p :
      w_panic w = None -> closed (Send (w_wc w)) = false -> buf (Send (w_wc w)) = [] ->
      w_out w = OutRecv -> iteration_order (allowedTypes (w_wc w)) order ->
      send_after_recv order v = inr p ->
      local_step w [ESend v; ETake v] (mkWorld (w_wc w) (w_out w) (w_in w) (w_closers w) (Some p))
  | step_caller_send_closed w :
      w_panic w = None -> closed (Send (w_wc w)) = true ->
      local_step w [] (mkWorld (w_wc w) (w_out w) (w_in w) (w_closers w) (Some SendOnClosedChannel))
  | step_caller_recv w v c :
      w_panic w = None -> chan_recv (Recv (w_wc w)) = Received v c ->
      local_step w [ERecv v] (mkWorld (set_Recv (w_wc w) c) (w_out w) (w_in w) (w_closers w) None)
  | step_caller_recv_handoff w v :
      w_panic w = None -> buf (Recv (w_wc w)) = [] -> closed (Recv (w_wc w)) = false ->
      w_in w = InPush v ->
      local_step w [EPush v; ERecv v] (mkWorld (w_wc w) (w_out w) InSelect (w_closers w) None)
  | step_caller_recv_error w e c :
      w_panic w = None -> chan_recv (Error (w_wc w)) = Received e c ->
      local_step w [EErr e] (mkWorld (set_Error (w_wc w) c) (w_out w) (w_in w) (w_closers w) None).

(** A step of the program, or of its environment: the peer sends an item
    on the socket, or closes its end. *)
Inductive sys_step : World -> list event -> World -> Prop :=
  | step_local w l w' : local_step w l w' -> sys_step w l w'
  | step_peer w it :
      w_panic w = None ->
      sys_step w [EPeer it] (mkWorld (set_soc (w_wc w) (conn_deliver (soc (w_wc w)) it)) (w_out w) (w_in w)
                       (w_closers w) None)
  | step_peer_close w :
      w_panic w = None ->
      sys_step w [] (mkWorld (set_soc (w_wc w) (conn_peer_close (soc (w_wc w)))) (w_out w) (w_in w)
                       (w_closers w) None).

(** Executions: the events of a sequence of steps, oldest first. *)
Inductive trace : World -> list event -> World -> Prop :=
  | trace_refl w : trace w [] w
  | trace_snoc w0 evs w1 l w2 : trace w0 evs w1 -> sys_step w1 l w2 -> trace w0 (evs ++ l) w2.

(** Only a running process steps. *)
Lemma sys_step_running w l w' : sys_step w l w' -> w_panic w = None.
Proof. destruct 1 as [w l w' []| |]; done. Qed.

Lemma trace_step w0 l w1 : sys_step w0 l w1 -> trace w0 l w1.
Proof. intros H. rewrite <- (app_nil_l l). econstructor; [constructor|done]. Qed.

Lemma trace_app w0 evs1 w1 evs2 w2 :
  trace w0 evs1 w1 -> trace w1 evs2 w2 -> trace w0 (evs1 ++ evs2) w2.
Proof.
  intros H1 H2. induction H2 as [|w1 evs w l w2 H IH Hs]; [by rewrite app_nil_r|].
  rewrite app_assoc. econstructor; [apply IH, H1|done].
Qed.

Lemma trace_cons w0 l w1 evs w2 : sys_step w0 l w1 -> trace w1 evs w2 -> trace w0 (l ++ evs) w2.
Proof. intros Hs Ht. eapply trace_app; [by apply trace_step|done]. Qed.

Lemma lookup_snoc_snoc {A} (l : list A) a b :
  ((l ++ [a]) ++ [b]) !! length l = Some a /\ ((l ++ [a]) ++ [b]) !! S (length l) = Some b.
Proof.
  split.
  - rewrite <- app_assoc. by apply list_lookup_middle.
  - replace (S (length l)) with (length (l ++ [a])) by (rewrite length_app; simpl; lia).
    by apply list_lookup_middle.
Qed.

(** C13. [Close] is not safe for concurrent callers: two calls that both
    run their [select] before either closes [closeRecvChan] both take the
    [default] branch, and the second [close(wc.closeRecvChan)] panics
    with "close of closed channel".  This is reachable from every running
    state whose [Close] has not started. *)
Theorem concurrent_Close_panics w :
  w_panic w = None -> closed (closeRecvChan (w_wc w)) = false -> buf (closeRecvChan (w_wc w)) = [] ->
  exists evs w', trace w evs w' /\ w_panic w' = Some CloseOfClosedChannel.
Proof.
  intros Hp Hc Hb. destruct w as [wc out inn cls pan]; simpl in *; subst pan.
  destruct (lookup_snoc_snoc cls CSelect CSelect) as [H0 H1].
  assert (Hsel : close_step (CSelect, wc) = Step (CCloseRecvChan, wc))
    by (simpl; unfold chan_recv; by rewrite Hb, Hc).
  eexists _, _. split.
  eapply trace_cons; [by apply step_local, step_call_Close|]. simpl.
  eapply trace_cons; [by apply step_local, step_call_Close|]. simpl.
  eapply trace_cons; [eapply step_local, (step_Close _ (length cls) CSelect); [done|exact H0|exact Hsel]|]. simpl.
  eapply trace_cons; [eapply step_local, (step_Close _ (S (length cls)) CSelect); [done| |exact Hsel]|].
  { cbn [w_closers]. rewrite list_lookup_insert_ne by lia. exact H1. }
  simpl. eapply trace_cons.
  { eapply step_local, (step_Close _ (length cls) CCloseRecvChan); simpl; [done| |].
    - rewrite list_lookup_insert_ne by lia. rewrite list_lookup_insert_eq; [done|].
      rewrite !length_app; simpl; lia.
    - simpl. unfold chan_close. rewrite Hc. reflexivity. }
  simpl. eapply trace_cons; [|apply trace_refl].
  eapply step_local, (step_Close_panic _ (S (length cls)) CCloseRecvChan); simpl; [done| |].
  - rewrite list_lookup_insert_ne by lia. rewrite list_lookup_insert_eq; [done|].
    rewrite length_insert, !length_app; simpl; lia.
  - simpl. unfold chan_close. done.
  - reflexivity.
Qed.

(** ** Invariants of every reachable state *)

(** A [Close] call past line 149 has closed [closeRecvChan]; past line
    150 also [Send]. *)
Definition closer_ok (wc : WebChan) (pc : ClosePC) : Prop :=
  (pc = CCloseSend -> closed (closeRecvChan wc) = true) /\
  (pc = CCloseSoc -> closed (closeRecvChan wc) = true /\ closed (Send wc) = true).

Definition wc_inv (wc : WebChan) : Prop :=
  chan_ok (Send wc) /\ chan_ok (Recv wc) /\ chan_ok (Error wc) /\ closed (Error wc) = false /\
  buf (closeRecvChan wc) = [] /\
  (closed (Send wc) = true -> closed (closeRecvChan wc) = true) /\
  (conn_closed (soc wc) = true -> closed (Send wc) = true).

Definition Inv (w : World) : Prop :=
  wc_inv (w_wc w) /\ (closed (Recv (w_wc w)) = true <-> w_in w = InExit) /\
  Forall (closer_ok (w_wc w)) (w_closers w).

Lemma closer_ok_mono wc wc' pc :
  (closed (closeRecvChan wc) = true -> closed (closeRecvChan wc') = true) ->
  (closed (Send wc) = true -> closed (Send wc') = true) ->
  closer_ok wc pc -> closer_ok wc' pc.
Proof. intros H1 H2 [H3 H4]. split; [auto|]. intros Hpc. destruct (H4 Hpc); auto. Qed.

Lemma closers_ok_mono wc wc' cls :
  (closed (closeRecvChan wc) = true -> closed (closeRecvChan wc') = true) ->
  (closed (Send wc) = true -> closed (Send wc') = true) ->
  Forall (closer_ok wc) cls -> Forall (closer_ok wc') cls.
Proof. intros H1 H2 Hall. eapply Forall_impl; [exact Hall|]. intros pc. by apply closer_ok_mono. Qed.

Lemma send_step_inv order pc wc pc' wc' :
  wc_inv wc -> send_step order (pc, wc) = Step (pc', wc') ->
  wc_inv wc' /\ closeRecvChan wc' = closeRecvChan wc /\ closed (Send wc') = closed (Send wc) /\
  Recv wc' = Recv wc.
Proof.
  intros (HS & HR & HE & HEc & Hcr & Hord & Hsoc) Hst.
  apply send_step_frame in Hst as ((Hio1 & _ & Hio3 & _ & Hio5 & Hio6) & HR' & Hcap & Hcl & Hb).
  refine (conj (conj _ (conj _ (conj _ (conj _ (conj _ (conj _ _)))))) (conj Hio1 (conj Hcl HR'))).
  - unfold chan_ok in *. rewrite Hcap. rewrite Hb, length_app in HS. lia.
  - by rewrite HR'.
  - auto.
  - by rewrite Hio5.
  - by rewrite Hio1.
  - by rewrite Hio1, Hcl.
  - rewrite Hio3, Hcl. auto.
Qed.

Lemma recv_step_inv pc wc pc' wc' :
  wc_inv wc -> recv_step (pc, wc) = Step (pc', wc') ->
  wc_inv wc' /\ closeRecvChan wc' = closeRecvChan wc /\ Send wc' = Send wc /\
  closed (Recv wc') = bool_decide (pc' = InExit) || closed (Recv wc).
Proof.
  intros (HS & HR & HE & HEc & Hcr & Hord & Hsoc) Hst.
  apply recv_step_frame in Hst as ((Hio1 & _ & Hio3 & _ & Hio5 & Hio6) & HS' & _ & _ & Hcl & Hok).
  refine (conj (conj _ (conj _ (conj _ (conj _ (conj _ (conj _ _)))))) (conj Hio1 (conj HS' Hcl))).
  - by rewrite HS'.
  - auto.
  - auto.
  - by rewrite Hio5.
  - by rewrite Hio1.
  - rewrite HS', Hio1. auto.
  - rewrite HS', Hio3. auto.
Qed.

Lemma close_step_inv pc wc pc' wc' :
  wc_inv wc -> closer_ok wc pc -> close_step (pc, wc) = Step (pc', wc') ->
  wc_inv wc' /\ closer_ok wc' pc' /\ Recv wc' = Recv wc /\
  (closed (closeRecvChan wc) = true -> closed (closeRecvChan wc') = true) /\
  (closed (Send wc) = true -> closed (Send wc') = true).
Proof.
  intros Hinv [Hok1 Hok2] Hst.
  destruct pc; simpl in Hst.
  - assert (wc' = wc /\ (pc' = CDone \/ pc' = CCloseRecvChan)) as [-> Hpc'].
    { destruct Hinv as (_ & _ & _ & _ & Hcr & _). unfold chan_recv in Hst. rewrite Hcr in Hst.
      destruct (closed (closeRecvChan wc)); simplify_eq; auto. }
    split_and!; auto. destruct Hpc' as [-> | ->]; split; intros; discriminate.
  - destruct Hinv as (HS & HR & HE & HEc & Hcr & Hord & Hsoc).
    destruct (chan_close (closeRecvChan wc)) eqn:Hc; simplify_eq.
    apply chan_close_ok in Hc as (Hb & _ & Hcl & _).
    refine (conj (conj HS (conj HR (conj HE (conj HEc (conj _ (conj _ _)))))) (conj _ (conj eq_refl (conj _ _)))).
    all: simpl; rewrite ?Hb, ?Hcl; auto. split; [done|by intros].
  - destruct Hinv as (HS & HR & HE & HEc & Hcr & Hord & Hsoc).
    destruct (chan_close (Send wc)) eqn:Hc; simplify_eq.
    apply chan_close_ok in Hc as (Hb & Hcap & Hcl & _).
    refine (conj (conj _ (conj HR (conj HE (conj HEc (conj Hcr (conj _ _)))))) (conj _ (conj eq_refl (conj _ _)))).
    all: simpl; rewrite ?Hcl; auto.
    + unfold chan_ok. by rewrite Hb, Hcap.
    + split; [by intros|]. intros _; split; [by apply Hok1|done].
  - destruct Hinv as (HS & HR & HE & HEc & Hcr & Hord & Hsoc).
    simplify_eq. destruct (Hok2 eq_refl) as [H1 H2].
    refine (conj (conj HS (conj HR (conj HE (conj HEc (conj Hcr (conj Hord _)))))) (conj _ (conj eq_refl (conj _ _)))).
    all: simpl; auto. by split.
  - done.
Qed.

Lemma Inv_init s n allowed :
  conn_closed s = false -> Inv (init_world (NewNamedWebChan s n allowed)).
Proof.
  intros Hs. unfold Inv, wc_inv, chan_ok; simpl. rewrite Hs.
  split_and!; simpl; try lia; try done.
Qed.

Lemma conn_deliver_closed c it : conn_closed (conn_deliver c it) = conn_closed c.
Proof. unfold conn_deliver. by destruct (conn_closed c) eqn:E. Qed.

Lemma recv_step_InExit wc : recv_step (InExit, wc) = Blocked.
Proof. done. Qed.

(** Every step of the system preserves [Inv]. *)
Lemma sys_step_Inv w l w' : Inv w -> sys_step w l w' -> Inv w'.
Proof.
  intros (Hwc & Hrecv & Hcls) Hs.
  destruct Hs as [w0 l0 w0' Hs|w it Hp|w Hp]; [destruct Hs as [w order [pc' wc'] Hp Ho Hst|w order p|w [pc' wc'] Hp Hst|w p|w Hp
                 |w i pc [pc' wc'] Hp Hi Hst|w i pc p|w v c Hp Hsend|w v order pc'|w v order p
                 |w Hp Hc|w v c Hp Hr|w v Hp Hb Hc Hin|w e c Hp Hr]| |]; unfold Inv; simpl in *;
    try by (split; [|split]).
  - destruct (send_step_inv _ _ _ _ _ Hwc Hst) as (Hwc' & Hcr & Hcl & HR).
    split; [done|split; [by rewrite HR|]].
    eapply closers_ok_mono; [| |exact Hcls]; rewrite ?Hcr, ?Hcl; auto.
  - destruct (recv_step_inv _ _ _ _ Hwc Hst) as (Hwc' & Hcr & HS & Hcl).
    assert (Hold : closed (Recv (w_wc w)) = false).
    { apply not_true_is_false. intros E. apply Hrecv in E.
      rewrite E in Hst. simpl in Hst. discriminate. }
    split; [done|split].
    + rewrite Hcl, Hold, orb_false_r. by rewrite bool_decide_eq_true.
    + eapply closers_ok_mono; [| |exact Hcls]; rewrite ?Hcr, ?HS; auto.
  - split; [done|split; [done|]]. apply Forall_app. split; [done|]. constructor; [|done].
    split; intros; discriminate.
  - pose proof (proj1 (Forall_lookup _ _) Hcls i pc Hi) as Hok.
    destruct (close_step_inv _ _ _ _ Hwc Hok Hst) as (Hwc' & Hok' & HR & Hm1 & Hm2).
    split; [done|split; [by rewrite HR|]]. apply Forall_insert; [|done].
    eapply closers_ok_mono; [exact Hm1|exact Hm2|exact Hcls].
  - destruct Hwc as (HS & HR & HE & HEc & Hcr & Hord & Hsoc).
    pose proof (chan_send_preserves_ok _ _ _ Hsend) as Hok.
    apply chan_send_ok in Hsend as (_ & _ & Hcl' & Hcl & _).
    refine (conj (conj Hok (conj HR (conj HE (conj HEc (conj Hcr (conj _ _)))))) (conj Hrecv _)); simpl.
    + by rewrite Hcl'.
    + intros Hc. apply Hsoc in Hc. congruence.
    + eapply closers_ok_mono; [| |exact Hcls]; simpl; intros; congruence.
  - destruct Hwc as (HS & HR & HE & HEc & Hcr & Hord & Hsoc).
    pose proof (chan_recv_ok _ _ _ Hr) as (Hb & Hcap & Hcl).
    refine (conj (conj HS (conj _ (conj HE (conj HEc (conj Hcr (conj Hord Hsoc)))))) (conj _ Hcls)); simpl.
    + by eapply chan_recv_preserves_ok.
    + by rewrite Hcl.
  - split; [done|split; [|done]]. split; [congruence|discriminate].
  - destruct Hwc as (HS & HR & HE & HEc & Hcr & Hord & Hsoc).
    pose proof (chan_recv_ok _ _ _ Hr) as (Hb & Hcap & Hcl).
    refine (conj (conj HS (conj HR (conj _ (conj _ (conj Hcr (conj Hord Hsoc)))))) (conj Hrecv Hcls)); simpl.
    + by eapply chan_recv_preserves_ok.
    + by rewrite Hcl.
  - destruct Hwc as (HS & HR & HE & HEc & Hcr & Hord & Hsoc).
    refine (conj (conj HS (conj HR (conj HE (conj HEc (conj Hcr (conj Hord _)))))) (conj Hrecv Hcls)).
    simpl. rewrite conn_deliver_closed. done.
Qed.

Lemma trace_Inv w0 evs w : Inv w0 -> trace w0 evs w -> Inv w.
Proof. intros H0. induction 1 as [|w0 evs w1 l w2 Ht IH Hst]; [done|]. eapply sys_step_Inv; [apply IH, H0|exact Hst]. Qed.

(** C9. Every state reachable from a freshly constructed [WebChan] on an
    open socket satisfies [Inv]: the three queues hold at most their
    capacity (so at most 100 errors), [Error] is never closed (so the
    [select] of [tryPushError] never panics), nothing is ever sent on
    [closeRecvChan], [Send] is only closed after [closeRecvChan] and the
    socket only after [Send], and [Recv] is closed exactly when the recv
    routine has returned. *)
Theorem reachable_Inv s n allowed evs w :
  conn_closed s = false -> trace (init_world (NewNamedWebChan s n allowed)) evs w -> Inv w.
Proof. intros Hs Ht. eapply trace_Inv; [by apply Inv_init|exact Ht]. Qed.

(** ** FIFO order of the queues *)

Lemma close_step_bufs pc wc pc' wc' :
  close_step (pc, wc) = Step (pc', wc') -> buf (Send wc') = buf (Send wc) /\ Recv wc' = Recv wc.
Proof.
  destruct pc; simpl; try done.
  - by destruct (chan_recv (closeRecvChan wc)); intros; simplify_eq.
  - by destruct (chan_close (closeRecvChan wc)); intros; simplify_eq.
  - destruct (chan_close (Send wc)) eqn:Hc; intros; simplify_eq. simpl. by apply chan_close_ok in Hc as [-> _].
  - by intros; simplify_eq.
Qed.

Lemma close_step_Send_closed pc wc pc' wc' :
  close_step (pc, wc) = Step (pc', wc') -> closed (Send wc) = true -> closed (Send wc') = true.
Proof.
  destruct pc; simpl; try done.
  - by destruct (chan_recv (closeRecvChan wc)); intros; simplify_eq.
  - by destruct (chan_close (closeRecvChan wc)); intros; simplify_eq.
  - destruct (chan_close (Send wc)) eqn:Hc; intros; simplify_eq. simpl.
    by apply chan_close_ok in Hc as (_ & _ & -> & _).
  - by intros; simplify_eq.
Qed.

Lemma takes_fmap l : takes (ETake <$> l) = l.
Proof. induction l; simpl; by f_equal. Qed.
Lemma pushes_fmap l : pushes (EPush <$> l) = l.
Proof. induction l; simpl; by f_equal. Qed.
Lemma sends_fmap_take l : sends (ETake <$> l) = [].
Proof. by induction l. Qed.
Lemma receives_fmap_push l : receives (EPush <$> l) = [].
Proof. by induction l. Qed.
Lemma takes_fmap_push l : takes (EPush <$> l) = [].
Proof. by induction l. Qed.
Lemma pushes_fmap_take l : pushes (ETake <$> l) = [].
Proof. by induction l. Qed.
Lemma receives_fmap_take l : receives (ETake <$> l) = [].
Proof. by induction l. Qed.
Lemma sends_fmap_push l : sends (EPush <$> l) = [].
Proof. by induction l. Qed.
Lemma sends_app l1 l2 : sends (l1 ++ l2) = sends l1 ++ sends l2.
Proof. apply omap_app. Qed.

#[local] Hint Rewrite takes_fmap pushes_fmap sends_fmap_take receives_fmap_push
  takes_fmap_push pushes_fmap_take receives_fmap_take sends_fmap_push app_nil_r : webchan_rw.

(** One step: what enters [Send] and [Recv] is what leaves them or stays. *)
Lemma sys_step_fifo w l w' :
  sys_step w l w' ->
  buf (Send (w_wc w)) ++ sends l = takes l ++ buf (Send (w_wc w')) /\
  buf (Recv (w_wc w)) ++ pushes l = receives l ++ buf (Recv (w_wc w')).
Proof.
  intros Hs.
  destruct Hs as [w0 l0 w0' Hs|w it Hp|w Hp]; [destruct Hs as [w order [pc' wc'] Hp Ho Hst|w order p|w [pc' wc'] Hp Hst|w p|w Hp
                 |w i pc [pc' wc'] Hp Hi Hst|w i pc p|w v c Hp Hsend|w v order pc' Hp Hc Hb|w v order p Hp Hc Hb
                 |w Hp Hc|w v c Hp Hr|w v Hp Hb Hc Hin|w e c Hp Hr]| |];
    unfold send_label, recv_label; simpl; autorewrite with webchan_rw; try done.
  - apply send_step_frame in Hst as (_ & HR & _ & _ & Hb). split; [exact Hb|by rewrite HR].
  - apply recv_step_frame in Hst as (_ & HS & _ & Hb & _). split; [by rewrite HS|by rewrite Hb].
  - apply close_step_bufs in Hst as [HS HR]. split; [by rewrite HS|by rewrite HR].
  - apply chan_send_ok in Hsend as (Hb & _). split; [by rewrite Hb|done].
  - split; [by rewrite Hb|done].
  - split; [by rewrite Hb|done].
  - apply chan_recv_ok in Hr as (Hb & _). split; [done|by rewrite Hb].
  - split; [done|by rewrite Hb].
Qed.

Lemma trace_bufs w0 evs w :
  trace w0 evs w ->
  buf (Send (w_wc w0)) ++ sends evs = takes evs ++ buf (Send (w_wc w)) /\
  buf (Recv (w_wc w0)) ++ pushes evs = receives evs ++ buf (Recv (w_wc w)).
Proof.
  induction 1 as [w|w0 evs w1 l w2 Ht [IH1 IH2] Hst]; [by rewrite !app_nil_r|].
  destruct (sys_step_fifo _ _ _ Hst) as [H1 H2]. unfold sends, takes, pushes, receives in *.
  rewrite !omap_app, !app_assoc, IH1, IH2, <- !app_assoc, H1, H2. done.
Qed.



End System.

(** ** Witnesses, with [json_codec] *)

Definition lc_wc : WebChan := NewWebChan (conn_open []) 10 [VScalar (SString "")].
Definition lc_w1 : World := mkWorld (set_Send lc_wc (mkChan [hi] 10 false)) OutRecv InSelect [] None.
Definition lc_w2 : World :=
  mkWorld (set_Send (set_Send lc_wc (mkChan [hi] 10 false)) (mkChan [] 10 false))
    (OutEncName "string" hi) InSelect [] None.

(** The caller sends "hi"; the send routine takes it. *)
Lemma lc_trace : trace (init_world lc_wc) ([ESend hi] ++ [ETake hi]) lc_w2.
Proof.
  eapply trace_snoc.
  - apply trace_step. apply step_local, (step_caller_send (init_world lc_wc) hi (mkChan [hi] 10 false)); reflexivity.
  - apply step_local, (step_send_routine lc_w1 (map_to_list (allowedTypes (w_wc lc_w1)))
             (OutEncName "string" hi, set_Send (set_Send lc_wc (mkChan [hi] 10 false)) (mkChan [] 10 false)));
      [reflexivity|unfold iteration_order; reflexivity|vm_compute; reflexivity].
Qed.

Lemma Close_idempotent_witness :
  exists wc', Close lc_wc = (wc', None) /\
    closed (closeRecvChan wc') = true /\ closed (Send wc') = true /\ conn_closed (soc wc') = true /\
    buf (Send wc') = [] /\ conn_written (soc wc') = [] /\ Close wc' = (wc', None).
Proof. apply (Close_idempotent lc_wc); reflexivity. Defined.

Lemma concurrent_Close_panics_witness :
  exists evs w', trace (init_world lc_wc) evs w' /\ w_panic w' = Some CloseOfClosedChannel.
Proof. apply (concurrent_Close_panics (init_world lc_wc)); reflexivity. Defined.

Lemma reachable_Inv_witness : Inv lc_w2.
Proof.
  apply (reachable_Inv (conn_open []) 10 (newWebChan_types [VScalar (SString "")]) ([ESend hi] ++ [ETake hi]));
    [reflexivity|exact lc_trace].
Defined.


Definition lc_closed : World := mkWorld (set_Send lc_wc (mkChan [] 10 true)) OutRecv InSelect [] None.


