(* ===== verification/Typing.v ===== *)
(** What the caller can read from the queues of a [WebChan]: every value
    on [Recv] has a type registered on the receiving endpoint, so a type
    switch over the registered types (as in [webchan_test.go]) is
    exhaustive, and every error on [Error] is a [*sendError] or a
    [*recvError] (lines 184-190).  Proved as an invariant of the
    concurrent system of [Lifecycle], by rule induction. *)
From S2P Require Import Prelude GoValues GoErrors GoChan Codec Conn Registry WebChanState Outbound Inbound Lifecycle.

(** [v]'s type is registered under some name. *)
Definition registered (m : registry) (v : Val) : Prop := exists n, m !! n = Some (type_of v).

(** The two error types the program defines. *)
Definition program_error (e : GoError) : bool :=
  match e with sendError _ | recvError _ => true | _ => false end.

(** The values the recv routine holds: the fresh [reflect.New(t)] it
    decodes into and the value it is about to push. *)
Definition in_typed (m : registry) (pc : InPC) : Prop :=
  match pc with InDecodeData d | InPush d => registered m d | _ => True end.

(** The errors the caller receives. *)
Definition errors (evs : list event) : list GoError :=
  omap (fun e => match e with EErr e => Some e | _ => None end) evs.

Definition TInv (m : registry) (w : World) : Prop :=
  allowedTypes (w_wc w) = m /\ Forall (registered m) (buf (Recv (w_wc w))) /\
  in_typed m (w_in w) /\ Forall (fun e => program_error e = true) (buf (Error (w_wc w))).

(** ** Lemmas *)

Lemma tryPushError_Forall (P : GoError -> Prop) wc e :
  Forall P (buf (Error wc)) -> P e -> Forall P (buf (Error (tryPushError wc e))).
Proof.
  unfold tryPushError. destruct (chan_send (Error wc) e) eqn:Hs; simpl; intros HP He; try done.
  apply chan_send_ok in Hs as [-> _]. by apply Forall_app_2; [|constructor].
Qed.

Section Steps.
Context `{!Codec}.
Variable P : GoError -> Prop.

Lemma send_step_errors order pc wc pc' wc' :
  (forall e, P (sendError e)) -> send_step order (pc, wc) = Step (pc', wc') ->
  Forall P (buf (Error wc)) -> Forall P (buf (Error wc')).
Proof.
  intros HP. destruct pc; simpl; repeat case_match; intros; simplify_eq; simpl;
    try apply tryPushError_Forall; auto.
Qed.

Lemma recv_step_errors pc wc pc' wc' :
  (forall e, P (recvError e)) -> recv_step (pc, wc) = Step (pc', wc') ->
  Forall P (buf (Error wc)) -> Forall P (buf (Error wc')).
Proof.
  intros HP. destruct pc; simpl; unfold recv_error, recv_exit; repeat case_match; intros; simplify_eq; simpl;
    try apply tryPushError_Forall; auto.
Qed.

End Steps.

Section System.
Context {codec : Codec}.

(** The recv routine only holds values of registered types. *)
Lemma recv_step_typed pc wc pc' wc' :
  recv_step (pc, wc) = Step (pc', wc') -> in_typed (allowedTypes wc) pc -> in_typed (allowedTypes wc) pc'.
Proof.
  destruct pc; simpl; unfold recv_error, recv_exit, createTypeInterfaceReflectPointer;
    repeat case_match; intros; simplify_eq; simpl; try done;
    match goal with
    | H : zero_val <$> _ = Some _ |- _ =>
        apply fmap_Some in H as (t & Ht & ->); eexists; by rewrite type_of_zero_val
    | H : decode _ _ _ = Some (_, _, inr _) |- _ => apply decode_type in H; unfold registered in *; by rewrite H
    end.
Qed.

Lemma close_step_untouched pc wc pc' wc' :
  close_step (pc, wc) = Step (pc', wc') ->
  Recv wc' = Recv wc /\ Error wc' = Error wc /\ allowedTypes wc' = allowedTypes wc.
Proof. destruct pc; simpl; repeat case_match; intros; by simplify_eq. Qed.

Lemma sys_step_TInv m w l w' : TInv m w -> sys_step w l w' -> TInv m w'.
Proof.
  intros (Hm & HR & Hin & HE) Hs.
  destruct Hs as [w0 l0 w0' Hs|w it Hp|w Hp]; [destruct Hs as [w order [pc' wc'] Hp Ho Hst|w order p|w [pc' wc'] Hp Hst|w p|w Hp
                 |w i pc [pc' wc'] Hp Hi Hst|w i pc p|w v c Hp Hsend|w v order pc' Hp Hc Hb|w v order p Hp Hc Hb
                 |w Hp Hc|w v c Hp Hr|w v Hp Hb Hc Hin'|w e c Hp Hr]| |];
    unfold TInv; simpl in *; try by split_and!.
  - pose proof (send_step_errors (fun e => program_error e = true) _ _ _ _ _ (fun _ => eq_refl) Hst HE).
    apply send_step_frame in Hst as ((_ & Ht & _) & HR' & _). rewrite HR', Ht. by split_and!.
  - pose proof (recv_step_errors (fun e => program_error e = true) _ _ _ _ (fun _ => eq_refl) Hst HE).
    pose proof (recv_step_typed _ _ _ _ Hst) as Hty. rewrite Hm in Hty.
    apply recv_step_frame in Hst as ((_ & Ht & _) & _ & _ & Hb & _). rewrite Ht, Hb. split_and!; auto.
    apply Forall_app_2; [done|]. destruct (w_in w); simpl in *; try by constructor.
  - apply close_step_untouched in Hst as (-> & -> & ->). by split_and!.
  - apply chan_recv_ok in Hr as (Hb & _). rewrite Hb in HR. split_and!; auto. by inversion HR.
  - apply chan_recv_ok in Hr as (Hb & _). rewrite Hb in HE. split_and!; auto. by inversion HE.
Qed.


Lemma errors_fmap_take l : errors (ETake <$> l) = [].
Proof. by induction l. Qed.
Lemma errors_fmap_push l : errors (EPush <$> l) = [].
Proof. by induction l. Qed.

Lemma sys_step_typed_events m w l w' :
  TInv m w -> sys_step w l w' ->
  Forall (registered m) (receives l) /\ Forall (fun e => program_error e = true) (errors l).
Proof.
  intros (Hm & HR & Hin & HE) Hs.
  destruct Hs as [w0 l0 w0' Hs|w it Hp|w Hp]; [destruct Hs as [w order [pc' wc'] Hp Ho Hst|w order p|w [pc' wc'] Hp Hst|w p|w Hp
                 |w i pc [pc' wc'] Hp Hi Hst|w i pc p|w v c Hp Hsend|w v order pc' Hp Hc Hb|w v order p Hp Hc Hb
                 |w Hp Hc|w v c Hp Hr|w v Hp Hb Hc Hin'|w e c Hp Hr]| |];
    unfold send_label, recv_label; simpl in *;
    rewrite ?receives_fmap_take, ?receives_fmap_push, ?errors_fmap_take, ?errors_fmap_push; try done.
  - apply chan_recv_ok in Hr as (Hb & _). rewrite Hb in HR. inversion HR. by split; [constructor|].
  - rewrite Hin' in Hin. by split; [constructor|].
  - apply chan_recv_ok in Hr as (Hb & _). rewrite Hb in HE. inversion HE. by split; [|constructor].
Qed.

Lemma trace_TInv m w0 evs w :
  TInv m w0 -> trace w0 evs w ->
  TInv m w /\ Forall (registered m) (receives evs) /\ Forall (fun e => program_error e = true) (errors evs).
Proof.
  intros H0. induction 1 as [w|w0 evs w1 l w2 Ht IH Hst]; [done|].
  destruct (IH H0) as (Hi & HR & HE). destruct (sys_step_typed_events _ _ _ _ Hi Hst) as [HR' HE'].
  unfold receives, errors in *. rewrite !omap_app. split_and!; [by eapply sys_step_TInv| |];
    by apply Forall_app_2.
Qed.

(** C10. In every execution of the program from a fresh [WebChan], every
    value the caller receives from [Recv] has a type registered on this
    endpoint (the [default] case of a type switch over the registered
    types is dead), and every error it receives from [Error] is a
    [*sendError] or a [*recvError]. *)
Theorem received_values_registered s n allowed evs w :
  trace (init_world (NewNamedWebChan s n allowed)) evs w ->
  Forall (registered (named_types allowed)) (receives evs) /\
  Forall (fun e => program_error e = true) (errors evs).
Proof.
  intros Ht. apply (trace_TInv (named_types allowed)) in Ht as (_ & HR & HE); [done|].
  by split_and!.
Qed.

End System.

(** ** Witnesses, with [json_codec] *)

(** [NewWebChan(soc, 10, "")], whose peer sends the frame "string", "hi". *)
Definition ty_wc : WebChan := NewWebChan (conn_open []) 10 [VScalar (SString "")].

(** The peer writes a frame, the recv routine decodes and pushes it, the
    caller receives it. *)
Lemma ty_trace : exists evs w, trace (init_world ty_wc) evs w /\ receives evs = [hi].
Proof.
  eexists _, _. split.
  { eapply trace_cons; [apply (step_peer _ (RJson (JStr "string"))); reflexivity|].
    eapply trace_cons; [apply (step_peer _ (RJson (JStr "hi"))); reflexivity|].
    do 4 (eapply trace_cons; [eapply step_local, step_recv_routine; [reflexivity|exact eq_refl]|]).
    eapply trace_cons; [eapply step_local, step_caller_recv; [reflexivity|exact eq_refl]|].
    apply trace_refl. }
  reflexivity.
Qed.

Lemma received_values_registered_witness :
  exists evs w, trace (init_world ty_wc) evs w /\ receives evs = [hi] /\
    Forall (registered (named_types (newWebChan_types [VScalar (SString "")]))) (receives evs) /\
    Forall (fun e => program_error e = true) (errors evs).
Proof.
  destruct ty_trace as (evs & w & Ht & Hr). exists evs, w.
  pose proof (received_values_registered (conn_open []) 10 (newWebChan_types [VScalar (SString "")]) evs w Ht)
    as [H1 H2].
  by split_and!.
Defined.
