(* ===== verification/Refinement.v ===== *)
(** The outbound direction refines a lossy FIFO pipe.  The abstract
    specification [pipe_step] is what the spec promises of a [WebChan]
    seen from the wire: values are queued in the order the caller sends
    them and delivered in that order; a value is lost only once the pipe
    is closed.  The refinement relation [out_rel] maps a state of the
    send routine and its socket to a pipe: the queue is the value in
    flight followed by [Send]'s buffer, the delivered values are those
    whose two frames are on the wire ([wire_of]), and the pipe is closed
    when the socket can no longer be written.  Every step of the
    concurrent system of [Lifecycle] is matched by a sequence of pipe
    steps with the same sent values, so every execution of the program
    is an execution of the pipe. *)
From S2P Require Import Prelude GoValues GoErrors GoChan Codec Conn Registry WebChanState Outbound Inbound Lifecycle Typing.

(** ** The abstract pipe *)

Record Pipe := mkPipe { p_queue : list Val; p_delivered : list Val; p_closed : bool }.

Definition pipe_init : Pipe := mkPipe [] [] false.

(** One step, labelled with the values the caller sends in it. *)
Inductive pipe_step : Pipe -> list Val -> Pipe -> Prop :=
  | pipe_send p v : pipe_step p [v] (mkPipe (p_queue p ++ [v]) (p_delivered p) (p_closed p))
  | pipe_deliver p v q :
      p_queue p = v :: q -> p_closed p = false -> pipe_step p [] (mkPipe q (p_delivered p ++ [v]) false)
  | pipe_drop p v q : p_queue p = v :: q -> p_closed p = true -> pipe_step p [] (mkPipe q (p_delivered p) true)
  | pipe_close p : pipe_step p [] (mkPipe (p_queue p) (p_delivered p) true).

Inductive pipe_steps : Pipe -> list Val -> Pipe -> Prop :=
  | pipe_refl p : pipe_steps p [] p
  | pipe_snoc p s p1 l p2 : pipe_steps p s p1 -> pipe_step p1 l p2 -> pipe_steps p (s ++ l) p2.

(** ** The wire *)

Section Wire.
Context `{!Codec}.

(** [js] is the frames of [d]: for each value a name registered in [m]
    for its type, then the value. *)
Inductive wire_of (m : registry) : list Val -> list json -> Prop :=
  | wire_nil : wire_of m [] []
  | wire_snoc d js v n jn j :
      wire_of m d js -> m !! n = Some (type_of v) -> marshal (VScalar (SString n)) = inr jn ->
      marshal v = inr j -> wire_of m (d ++ [v]) (js ++ [jn; j]).

End Wire.

(** ** Lemmas on the pipe *)

Lemma pipe_steps_one p l p' : pipe_step p l p' -> pipe_steps p l p'.
Proof. intros H. rewrite <- (app_nil_l l). econstructor; [constructor|done]. Qed.

Lemma pipe_steps_app p s1 p1 s2 p2 : pipe_steps p s1 p1 -> pipe_steps p1 s2 p2 -> pipe_steps p (s1 ++ s2) p2.
Proof.
  intros H1 H2. induction H2 as [|p1 s p3 l p2 H IH Hs]; [by rewrite app_nil_r|].
  rewrite app_assoc. econstructor; [apply IH, H1|exact Hs].
Qed.

(** Closing the pipe, or nothing when it is already closed. *)
Lemma pipe_reclose p b :
  (p_closed p = true -> b = true) -> pipe_steps p [] (mkPipe (p_queue p) (p_delivered p) b).
Proof.
  destruct p as [q d c]; simpl. destruct c, b; intros H.
  - constructor.
  - discriminate (H eq_refl).
  - apply pipe_steps_one, (pipe_close (mkPipe q d false)).
  - constructor.
Qed.

(** What the pipe guarantees: the delivered values followed by the
    queue are a subsequence of the sent values, the queue is the end of
    what was sent, and nothing is lost while the pipe is open. *)
Lemma pipe_steps_spec s p :
  pipe_steps pipe_init s p ->
  p_delivered p ++ p_queue p `sublist_of` s /\ p_queue p `suffix_of` s /\
  (p_closed p = false -> p_delivered p ++ p_queue p = s).
Proof.
  intros Hs. remember pipe_init as p0 eqn:E.
  induction Hs as [|p0 s p1 l p2 _ IH Hs]; [subst; simpl; split_and!; [constructor|apply suffix_nil|done]|].
  destruct (IH E) as (IH1 & IH2 & IH3).
  destruct Hs as [p v|p v q Hq Hc|p v q Hq Hc|p]; simpl in *; rewrite ?app_nil_r.
  - split_and!.
    + rewrite app_assoc. apply sublist_app; [exact IH1|reflexivity].
    + destruct IH2 as [k ->]. exists k. by rewrite app_assoc.
    + intros Hc. rewrite app_assoc. f_equal. by apply IH3.
  - rewrite Hq in IH1, IH2, IH3. rewrite <- app_assoc. split_and!; [exact IH1| |].
    + by eapply suffix_cons_l.
    + intros _. by apply IH3.
  - rewrite Hq in IH1, IH2. split_and!; [|by eapply suffix_cons_l|done].
    etrans; [|exact IH1]. apply sublist_app; [reflexivity|]. by apply sublist_cons.
  - by split_and!.
Qed.

(** ** The refinement relation *)

Section Refinement.
Context {codec : Codec}.

(** [jn] is the name half of the frame of a value that could follow [d]. *)
Definition half_frame (m : registry) (d : list Val) (js : list json) (jn : json) : Prop :=
  exists v j, wf_val v /\ wire_of m (d ++ [v]) (js ++ [jn; j]).

(** The written stream is the frames of [d], followed by half a frame
    only once the socket can no longer be written. *)
Definition written_ok (m : registry) (c : Conn) (d : list Val) : Prop :=
  exists js, wire_of m d js /\
    (conn_written c = js \/
     conn_can_write c = false /\ exists jn, half_frame m d js jn /\ conn_written c = js ++ [jn]).

Definition out_rel (m : registry) (pc : OutPC) (wc : WebChan) (p : Pipe) : Prop :=
  allowedTypes wc = m /\ conn_write_faults (soc wc) = [] /\ p_closed p = negb (conn_can_write (soc wc)) /\
  Forall wf_val (buf (Send wc)) /\
  match pc with
  | OutRecv | OutExit => p_queue p = buf (Send wc) /\ written_ok m (soc wc) (p_delivered p)
  | OutEncName n v =>
      p_queue p = v :: buf (Send wc) /\ wf_val v /\ m !! n = Some (type_of v) /\
      written_ok m (soc wc) (p_delivered p)
  | OutEncData v =>
      p_queue p = v :: buf (Send wc) /\ wf_val v /\
      exists n js jn, wire_of m (p_delivered p) js /\ m !! n = Some (type_of v) /\
        marshal (VScalar (SString n)) = inr jn /\ conn_written (soc wc) = js ++ [jn]
  end.

(** ** Lemmas *)

Lemma send_after_recv_registered m order v pc' :
  iteration_order m order -> send_after_recv order v = inl pc' ->
  exists n, pc' = OutEncName n v /\ m !! n = Some (type_of v).
Proof.
  unfold send_after_recv, getAllowedTypeName. intros Ho.
  destruct (scan_allowed (type_of v) order) as [n|] eqn:E; intros; simplify_eq.
  eexists; split; [done|]. apply (iteration_order_elem m order); [done|]. by apply scan_allowed_elem.
Qed.

(** Without scheduled faults, [Encode] of a serializable value writes it
    if the socket can be written and otherwise fails without writing. *)
Lemma encode_nofault c v :
  conn_write_faults c = [] -> wf_val v ->
  exists j, marshal v = inr j /\
    (conn_can_write c = true /\ encode c v = (conn_set_write c (conn_written c ++ [j]) [], None) \/
     conn_can_write c = false /\ exists e, encode c v = (c, Some e)).
Proof.
  intros Hf Hwf. destruct (codec_total v Hwf) as [j Hj]. exists j. split; [done|].
  destruct (conn_can_write c) eqn:Hc; [left; split; [done|by apply encode_ok]|right; split; [done|]].
  unfold conn_can_write in Hc. unfold encode, conn_write. rewrite Hj.
  destruct (conn_closed c); [by eexists|]. destruct (peer_refuses c); [by eexists|done].
Qed.

Lemma written_ok_mono m c c' d :
  conn_written c' = conn_written c -> (conn_can_write c' = true -> conn_can_write c = true) ->
  written_ok m c d -> written_ok m c' d.
Proof.
  intros Hw Hc (js & Hjs & Hor). exists js. split; [done|]. rewrite Hw.
  destruct Hor as [?|[Hf ?]]; [by left|right]. split; [|done].
  destruct (conn_can_write c'); [|done]. by rewrite Hc in Hf.
Qed.

(** A step that leaves [Send], the registry and the written stream alone,
    and at most closes the socket, is matched by closing the pipe or by
    nothing. *)
Lemma out_rel_frame m pc wc wc' p :
  out_rel m pc wc p -> allowedTypes wc' = allowedTypes wc -> buf (Send wc') = buf (Send wc) ->
  conn_written (soc wc') = conn_written (soc wc) ->
  conn_write_faults (soc wc') = conn_write_faults (soc wc) ->
  (conn_can_write (soc wc') = true -> conn_can_write (soc wc) = true) ->
  pipe_steps p [] (mkPipe (p_queue p) (p_delivered p) (negb (conn_can_write (soc wc')))) /\
  out_rel m pc wc' (mkPipe (p_queue p) (p_delivered p) (negb (conn_can_write (soc wc')))).
Proof.
  intros (Hm & Hf & Hc & Hwf & Hpc) H1 H2 H3 H4 H5. split.
  - apply pipe_reclose. rewrite Hc. destruct (conn_can_write (soc wc')); [|done]. by rewrite H5.
  - unfold out_rel. rewrite H1, H2, H4. split_and!; try done.
    destruct pc as [|n v|v|]; simpl in *.
    + destruct Hpc as [Hq Hw]. split; [done|by eapply written_ok_mono].
    + destruct Hpc as (Hq & Hv & Hn & Hw). split_and!; try done. by eapply written_ok_mono.
    + destruct Hpc as (Hq & Hv & n & js & jn & Hjs & Hn & Hjn & Hw). split_and!; try done.
      exists n, js, jn. by rewrite H3.
    + destruct Hpc as [Hq Hw]. split; [done|by eapply written_ok_mono].
Qed.

(** Each step of the send routine is matched by at most one step of the
    pipe: taking a value moves nothing, writing its value delivers it,
    a failed write drops it (the socket being closed). *)
Lemma send_step_out_rel m order pc wc pc' wc' p :
  iteration_order m order -> out_rel m pc wc p -> send_step order (pc, wc) = Step (pc', wc') ->
  exists p', pipe_steps p [] p' /\ out_rel m pc' wc' p'.
Proof.
  intros Ho (Hm & Hf & Hc & Hwf & Hpc). destruct pc as [|n v|v|]; simpl; [| | |done].
  - destruct (chan_recv (Send wc)) as [data c| |] eqn:Hr; try done.
    + destruct (send_after_recv order data) as [pc0|pp] eqn:Ha; [|done]. intros [= <- <-].
      destruct (send_after_recv_registered m order data pc0 Ho Ha) as (n & -> & Hn).
      apply chan_recv_ok in Hr as (Hb & _). rewrite Hb in Hwf, Hpc. apply Forall_cons in Hwf as [Hv Hwf].
      exists p. split; [constructor|]. destruct Hpc as [Hq Hw]. split_and!; try done.
    + intros [= <- <-]. exists p. split; [constructor|]. destruct Hpc as [Hq Hw]. split_and!; try done.
  - destruct Hpc as (Hq & Hv & Hn & js & Hjs & Hw).
    destruct (encode_nofault (soc wc) (VScalar (SString n)) Hf ltac:(done)) as (jn & Hjn & [[Hcw ->]|[Hcw (e & ->)]]);
      intros [= <- <-].
    + exists p. split; [constructor|]. rewrite Hcw in Hw. destruct Hw as [Hw|[? _]]; [|done].
      split_and!; try done; simpl; autorewrite with webchan_rw; try by rewrite Hcw.
      exists n, js, jn. by rewrite Hw.
    + exists (mkPipe (buf (Send wc)) (p_delivered p) true). split.
      * apply pipe_steps_one. eapply pipe_drop; [exact Hq|by rewrite Hc, Hcw].
      * unfold out_rel. autorewrite with webchan_rw. simpl. rewrite Hcw. split_and!; try done. by exists js.
  - destruct Hpc as (Hq & Hv & n & js & jn & Hjs & Hn & Hjn & Hw).
    destruct (encode_nofault (soc wc) v Hf Hv) as (j & Hj & [[Hcw ->]|[Hcw (e & ->)]]); intros [= <- <-].
    + exists (mkPipe (buf (Send wc)) (p_delivered p ++ [v]) false). split.
      * apply pipe_steps_one. eapply pipe_deliver; [exact Hq|by rewrite Hc, Hcw].
      * split_and!; try done; simpl; autorewrite with webchan_rw; try by rewrite Hcw.
        exists (js ++ [jn; j]). split; [by eapply (wire_snoc m)|]. left. simpl.
        by rewrite Hw, <- app_assoc.
    + exists (mkPipe (buf (Send wc)) (p_delivered p) true). split.
      * apply pipe_steps_one. eapply pipe_drop; [exact Hq|by rewrite Hc, Hcw].
      * unfold out_rel. autorewrite with webchan_rw. simpl. rewrite Hcw. split_and!; try done.
        exists js. split; [done|]. right. split; [done|]. exists jn.
        split; [exists v, j; split; [done|by eapply (wire_snoc m)]|done].
Qed.

(** The recv routine only consumes the socket's input. *)
Lemma recv_step_soc pc wc pc' wc' :
  recv_step (pc, wc) = Step (pc', wc') -> exists p, soc wc' = conn_set_pending (soc wc) p.
Proof.
  destruct pc; simpl; unfold recv_error, recv_exit; repeat case_match; intros; simplify_eq; simpl;
    autorewrite with webchan_rw; simpl;
    try (eexists; by rewrite conn_set_pending_id);
    match goal with H : decode _ _ _ = Some _ |- _ => apply decode_shape in H as [? ->]; eauto end.
Qed.

Lemma close_step_soc pc wc pc' wc' :
  close_step (pc, wc) = Step (pc', wc') -> soc wc' = soc wc \/ soc wc' = conn_close (soc wc).
Proof. destruct pc; simpl; repeat case_match; intros; simplify_eq; simpl; auto. Qed.

Lemma conn_can_write_close c : conn_can_write (conn_close c) = false.
Proof. done. Qed.

Lemma conn_can_write_peer_close c : conn_can_write (conn_peer_close c) = true -> conn_can_write c = true.
Proof. unfold conn_can_write, peer_refuses. destruct c as [[] [] [] ? ? ?]; simpl; done. Qed.

(** The caller's send: the pipe queues the value. *)
Lemma out_rel_send m pc wc p v c :
  out_rel m pc wc p -> chan_send (Send wc) v = Sent c -> wf_val v ->
  out_rel m pc (set_Send wc c) (mkPipe (p_queue p ++ [v]) (p_delivered p) (p_closed p)).
Proof.
  intros (Hm & Hf & Hc & Hwf & Hpc) Hs Hv. apply chan_send_ok in Hs as (Hb & _).
  unfold out_rel; simpl. rewrite Hb. split_and!; try done; [by apply Forall_app_2; [|constructor]|].
  destruct pc; simpl in *; destruct Hpc as [Hq Hpc]; rewrite Hq; split; done.
Qed.

Lemma out_rel_frame_ex m pc wc wc' p (P : Prop) :
  out_rel m pc wc p -> allowedTypes wc' = allowedTypes wc -> buf (Send wc') = buf (Send wc) ->
  conn_written (soc wc') = conn_written (soc wc) ->
  conn_write_faults (soc wc') = conn_write_faults (soc wc) ->
  (conn_can_write (soc wc') = true -> conn_can_write (soc wc) = true) ->
  exists p', pipe_steps p [] p' /\ (P -> out_rel m pc wc' p').
Proof. intros. edestruct out_rel_frame as [Hps Hrel]; [eassumption..|]. eexists. split; [exact Hps|by intros]. Qed.

(** The steps that do not touch the outbound direction. *)
Ltac out_frame Hrel :=
  eapply out_rel_frame_ex; [exact Hrel|..]; simpl; autorewrite with webchan_rw; try done.

(** Every step of the system is matched by pipe steps with the same
    sent values, until the process panics. *)
Lemma sys_step_out_rel m w l w' p :
  w_panic w = None -> out_rel m (w_out w) (w_wc w) p -> sys_step w l w' -> Forall wf_val (sends l) ->
  exists p', pipe_steps p (sends l) p' /\ (w_panic w' = None -> out_rel m (w_out w') (w_wc w') p').
Proof.
  intros Hp0 Hrel Hs Hwf.
  destruct Hs as [w0 l0 w0' Hs|w it Hp|w Hp]; [destruct Hs as [w order [pc' wc'] Hp Ho Hst|w order pp|w [pc' wc'] Hp Hst|w pp|w Hp
                 |w i pc [pc' wc'] Hp Hi Hst|w i pc pp|w v c Hp Hsend|w v order pc' Hp Hc Hb Hout Ho Ha
                 |w v order pp|w Hp Hc|w v c Hp Hr|w v Hp Hb Hc Hin|w e c Hp Hr]| |];
    unfold send_label, recv_label in *; simpl in *; rewrite ?sends_fmap_take, ?sends_fmap_push in *;
    try (exists p; split; [constructor|by intros]).
  - destruct Hrel as (Hm & Hrel). rewrite Hm in Ho.
    destruct (send_step_out_rel m order _ _ _ _ p Ho (conj Hm Hrel) Hst) as (p' & Hps & Hrel').
    exists p'. by split.
  - apply recv_step_frame in Hst as Hfr. destruct Hfr as ((_ & Ht & _) & HS & _).
    apply recv_step_soc in Hst as [pend Hsoc].
    out_frame Hrel; rewrite ?HS, ?Hsoc; autorewrite with webchan_rw; done.
  - apply close_step_untouched in Hst as Hu. destruct Hu as (_ & _ & Ht).
    apply close_step_bufs in Hst as Hb. destruct Hb as [HS _].
    apply close_step_soc in Hst as [Hsoc|Hsoc]; out_frame Hrel; rewrite ?Ht, ?HS, ?Hsoc; try done.
  - exists (mkPipe (p_queue p ++ [v]) (p_delivered p) (p_closed p)). split.
    + apply pipe_steps_one, pipe_send.
    + intros _. inversion Hwf. by eapply out_rel_send.
  - rewrite Hout in Hrel. destruct Hrel as (Hm & Hf & Hcl & HwfS & Hq & Hw). rewrite Hm in Ho.
    destruct (send_after_recv_registered m order v pc' Ho Ha) as (n & -> & Hn).
    exists (mkPipe (p_queue p ++ [v]) (p_delivered p) (p_closed p)). split.
    + apply pipe_steps_one, pipe_send.
    + intros _. inversion Hwf. unfold out_rel. simpl. rewrite Hq, Hb. split_and!; try done.
  - eexists. split; [apply pipe_steps_one, pipe_send|done].
  - out_frame Hrel; unfold conn_deliver; destruct (conn_closed _); done.
  - out_frame Hrel. apply conn_can_write_peer_close.
Qed.

Lemma trace_out_rel m w0 evs w p0 :
  w_panic w0 = None -> out_rel m (w_out w0) (w_wc w0) p0 -> trace w0 evs w -> Forall wf_val (sends evs) ->
  exists p, pipe_steps p0 (sends evs) p /\ (w_panic w = None -> out_rel m (w_out w) (w_wc w) p).
Proof.
  intros Hp0 Hr0. induction 1 as [w|w0 evs w1 l w2 Ht IH Hst]; [intros _; exists p0; by split; [constructor|]|].
  rewrite sends_app. intros [Hwf1 Hwf2]%Forall_app.
  pose proof (sys_step_running _ _ _ Hst) as Hp1.
  destruct (IH Hp0 Hr0 Hwf1) as (p1 & Hps1 & Hr1).
  destruct (sys_step_out_rel m w1 l w2 p1 Hp1 (Hr1 Hp1) Hst Hwf2) as (p2 & Hps2 & Hr2).
  exists p2. split; [by eapply pipe_steps_app|exact Hr2].
Qed.

(** The peer reads the frames of [d] as [d], with any registry that
    agrees with [m] on [m]'s names. *)
Lemma wire_of_decode m mB d js rest :
  wire_of m d js -> Forall wf_val d -> m ⊆ mB ->
  frames_decode mB (js ++ rest) = (fun vs => d ++ vs) <$> frames_decode mB rest.
Proof.
  intros Hw. revert rest. induction Hw as [|d js v n jn j Hw IH Hn Hjn Hj]; intros rest Hwf Hsub.
  - simpl. by destruct (frames_decode mB rest).
  - apply Forall_app in Hwf as [Hwf [Hv _]%Forall_cons].
    rewrite <- app_assoc, (IH _ Hwf Hsub). simpl.
    rewrite (codec_roundtrip (VScalar (SString n)) jn) by done.
    rewrite (lookup_weaken m mB n (type_of v)) by done.
    rewrite (codec_roundtrip v j Hv Hj).
    destruct (frames_decode mB rest); simpl; [|done]. by rewrite <- app_assoc.
Qed.

Lemma out_rel_init s n allowed :
  conn_can_write s = true -> conn_write_faults s = [] -> conn_written s = [] ->
  out_rel (named_types allowed) OutRecv (NewNamedWebChan s n allowed) pipe_init.
Proof.
  intros Hc Hf Hw. unfold out_rel; simpl. rewrite Hc. split_and!; try done.
  exists []. split; [constructor|by left].
Qed.

Lemma out_rel_written m pc wc p :
  out_rel m pc wc p -> exists js, wire_of m (p_delivered p) js /\
    (conn_written (soc wc) = js \/ exists jn, half_frame m (p_delivered p) js jn /\ conn_written (soc wc) = js ++ [jn]).
Proof.
  intros (_ & _ & _ & _ & Hpc).
  destruct pc; simpl in Hpc;
    repeat match goal with H : _ /\ _ |- _ => destruct H end;
    try match goal with H : written_ok _ _ _ |- _ => destruct H as (js & Hjs & [Hw|[_ Hw]]) end;
    eauto 10.
  match goal with H : exists _ _ _, _ |- _ => destruct H as (n & js & jn & Hjs & Hn & Hjn & Hw) end.
  match goal with H : wf_val ?v |- _ => destruct (codec_total v H) as [j Hj] end.
  exists js. split; [done|]. right. exists jn. split; [|done]. do 2 eexists. split; [done|].
  by eapply (wire_snoc m).
Qed.

(** What the trace leaves on the wire: the frames of a subsequence [d]
    of the sent values, a prefix of them while the socket can be written,
    and at most half a frame more. *)
Lemma trace_wire s n allowed evs w :
  conn_can_write s = true -> conn_write_faults s = [] -> conn_written s = [] ->
  trace (init_world (NewNamedWebChan s n allowed)) evs w -> Forall wf_val (sends evs) -> w_panic w = None ->
  exists d js, d `sublist_of` sends evs /\ (conn_can_write (soc (w_wc w)) = true -> d `prefix_of` sends evs) /\
    wire_of (named_types allowed) d js /\ Forall wf_val d /\
    (conn_written (soc (w_wc w)) = js \/
     exists jn, half_frame (named_types allowed) d js jn /\ conn_written (soc (w_wc w)) = js ++ [jn]).
Proof.
  intros Hc Hf Hw Ht Hwf Hp.
  destruct (trace_out_rel _ (init_world (NewNamedWebChan s n allowed)) evs w pipe_init eq_refl
              (out_rel_init s n allowed Hc Hf Hw) Ht Hwf) as (p & Hps & Hr).
  specialize (Hr Hp). destruct (pipe_steps_spec _ _ Hps) as (Hsl & _ & Hopen).
  destruct (out_rel_written _ _ _ _ Hr) as (js & Hjs & Hwr).
  assert (Hd : p_delivered p `sublist_of` sends evs).
  { etrans; [|exact Hsl]. apply sublist_inserts_r. reflexivity. }
  exists (p_delivered p), js. split_and!; [done| |done|by eapply Forall_sublist_of|done].
  intros Hcw. destruct Hr as (_ & _ & Hcl & _). rewrite Hcw in Hcl.
  exists (p_queue p). by rewrite Hopen.
Qed.

End Refinement.

(** ** Properties *)

Section Properties.
Context {codec : Codec}.

(** C4. Refinement: every execution of the program from a fresh
    [WebChan] on a writable socket without scheduled write faults, in
    which the caller sends only serializable values, is an execution of
    the lossy FIFO pipe with the same sent values, the two being related
    by [out_rel] for as long as the process has not panicked. *)
Theorem webchan_refines_pipe s n allowed evs w :
  conn_can_write s = true -> conn_write_faults s = [] -> conn_written s = [] ->
  trace (init_world (NewNamedWebChan s n allowed)) evs w -> Forall wf_val (sends evs) ->
  exists p, pipe_steps pipe_init (sends evs) p /\
    (w_panic w = None -> out_rel (named_types allowed) (w_out w) (w_wc w) p).
Proof.
  intros Hc Hf Hw Ht Hwf.
  apply (trace_out_rel _ (init_world (NewNamedWebChan s n allowed)) evs w pipe_init); try done.
  by apply out_rel_init.
Qed.

(** C6. What the wire carries, in every execution: the frames of a
    subsequence [d] of the values the caller sent, in sending order, which
    a peer registering the same names decodes back to [d]; nothing is
    lost while the socket can be written ([d] is then a prefix of what was
    sent); at most half a frame follows. *)
Theorem wire_carries_sent_values s n allowed mB evs w :
  conn_can_write s = true -> conn_write_faults s = [] -> conn_written s = [] ->
  trace (init_world (NewNamedWebChan s n allowed)) evs w -> Forall wf_val (sends evs) ->
  w_panic w = None -> named_types allowed ⊆ mB ->
  exists d js, d `sublist_of` sends evs /\ (conn_can_write (soc (w_wc w)) = true -> d `prefix_of` sends evs) /\
    frames_decode mB js = Some d /\
    (conn_written (soc (w_wc w)) = js \/ exists jn, conn_written (soc (w_wc w)) = js ++ [jn]).
Proof.
  intros Hc Hf Hw Ht Hwf Hp Hsub.
  destruct (trace_wire s n allowed evs w Hc Hf Hw Ht Hwf Hp) as (d & js & Hd & Hpre & Hjs & Hwfd & Hwr).
  exists d, js. split_and!; [done|done| |destruct Hwr as [|(jn & _ & ?)]; eauto].
  rewrite <- (app_nil_r js), (wire_of_decode _ _ _ _ [] Hjs); [simpl; by rewrite app_nil_r|done|done].
Qed.

End Properties.

(** ** Witnesses, with [json_codec] *)

Definition rf_allowed : gmap string Val := newWebChan_types [VScalar (SString "")].
Definition rf_wc : WebChan := NewNamedWebChan (conn_open []) 10 rf_allowed.

(** The caller sends "hi"; the send routine takes it and writes its frame. *)
Lemma rf_trace : exists evs w, trace (init_world rf_wc) evs w /\ sends evs = [hi] /\ w_panic w = None /\
  conn_written (soc (w_wc w)) = [JStr "string"; JStr "hi"].
Proof.
  eexists _, _. split.
  { eapply trace_cons; [apply step_local, (step_caller_send _ hi (mkChan [hi] 10 false)); reflexivity|].
    do 3 (eapply trace_cons; [eapply step_local, (step_send_routine _ (map_to_list (named_types rf_allowed)));
                               [reflexivity|unfold iteration_order; reflexivity|exact eq_refl]|]).
    apply trace_refl. }
  split_and!; reflexivity.
Qed.

Lemma webchan_refines_pipe_witness :
  exists evs w, trace (init_world rf_wc) evs w /\ sends evs = [hi] /\
    exists p, pipe_steps pipe_init (sends evs) p /\
      (w_panic w = None -> out_rel (named_types rf_allowed) (w_out w) (w_wc w) p).
Proof.
  destruct rf_trace as (evs & w & Ht & Hs & _ & _). exists evs, w. split_and!; [exact Ht|exact Hs|].
  apply (webchan_refines_pipe (conn_open []) 10 rf_allowed evs w); try reflexivity; [exact Ht|].
  rewrite Hs. repeat constructor.
Defined.

Lemma wire_carries_sent_values_witness :
  exists evs w, trace (init_world rf_wc) evs w /\ sends evs = [hi] /\
    conn_written (soc (w_wc w)) = [JStr "string"; JStr "hi"] /\
    exists d js, d `sublist_of` sends evs /\ (conn_can_write (soc (w_wc w)) = true -> d `prefix_of` sends evs) /\
      frames_decode (named_types rf_allowed) js = Some d /\
      (conn_written (soc (w_wc w)) = js \/ exists jn, conn_written (soc (w_wc w)) = js ++ [jn]).
Proof.
  destruct rf_trace as (evs & w & Ht & Hs & Hp & Hw). exists evs, w. split_and!; [exact Ht|exact Hs|exact Hw|].
  apply (wire_carries_sent_values (conn_open []) 10 rf_allowed (named_types rf_allowed) evs w);
    try reflexivity; [exact Ht| |exact Hp].
  rewrite Hs. repeat constructor.
Defined.
