(* ===== verification/Reader.v ===== *)
(** The inbound direction refines a reader of frames.  Whatever the
    interleaving, if the items the peer writes on the socket are a prefix
    of the frames of values [vs] (as [Refinement] shows the writer
    produces), then the recv routine pushes a prefix of [vs] onto [Recv],
    in order, and reports no error while the socket is open.  The
    invariant [RInv] relates the items the decoder has consumed to the
    routine's program counter: a whole number of frames at the top of the
    loop, half a frame while it decodes a payload into the zero value of
    the next value's type, a whole frame more when it is about to push
    that value. *)
From S2P Require Import Prelude GoValues GoErrors GoChan Codec Conn Registry WebChanState Outbound Inbound Lifecycle Typing Refinement.

(** The items the peer wrote on the socket. *)
Definition delivered (evs : list event) : list read_item :=
  omap (fun e => match e with EPeer it => Some it | _ => None end) evs.

Definition no_recv_error (e : GoError) : bool :=
  match e with recvError _ => false | _ => true end.

Lemma delivered_app l1 l2 : delivered (l1 ++ l2) = delivered l1 ++ delivered l2.
Proof. apply omap_app. Qed.
Lemma pushes_app l1 l2 : pushes (l1 ++ l2) = pushes l1 ++ pushes l2.
Proof. apply omap_app. Qed.
Lemma errors_app l1 l2 : errors (l1 ++ l2) = errors l1 ++ errors l2.
Proof. apply omap_app. Qed.
Lemma delivered_fmap_take l : delivered (ETake <$> l) = [].
Proof. by induction l. Qed.
Lemma delivered_fmap_push l : delivered (EPush <$> l) = [].
Proof. by induction l. Qed.

#[export] Hint Rewrite delivered_app pushes_app errors_app delivered_fmap_take delivered_fmap_push
  pushes_fmap_take pushes_fmap errors_fmap_take errors_fmap_push : webchan_rw.

(** ** Lemmas on the frames *)

Section Frames.
Context `{!Codec}.

Lemma wire_of_length m vs js : wire_of m vs js -> length js = 2 * length vs.
Proof. induction 1; [done|]. rewrite !length_app; simpl. lia. Qed.

Lemma wire_of_lookup m vs js k v :
  wire_of m vs js -> vs !! k = Some v ->
  exists n jn j, m !! n = Some (type_of v) /\ marshal (VScalar (SString n)) = inr jn /\ marshal v = inr j /\
    js !! (2 * k) = Some jn /\ js !! (2 * k + 1) = Some j.
Proof.
  induction 1 as [|d js u n jn j Hw IH Hn Hjn Hj]; [done|]. intros Hk.
  apply wire_of_length in Hw as Hlen.
  destruct (decide (k < length d)) as [Hlt|Hge].
  - rewrite lookup_app_l in Hk by done. destruct (IH Hk) as (n' & jn' & j' & ? & ? & ? & H1 & H2).
    exists n', jn', j'. by rewrite !lookup_app_l by lia.
  - rewrite lookup_app_r in Hk by lia. apply list_lookup_singleton_Some in Hk as [Hk <-].
    exists n, jn, j. rewrite !lookup_app_r by lia.
    replace (2 * k - length js) with 0 by lia. by replace (2 * k + 1 - length js) with 1 by lia.
Qed.

(** The send routine and [Close] neither read the socket nor touch the
    decoder; [Close] may close the socket. *)
Lemma send_step_reads order pc wc pc' wc' :
  send_step order (pc, wc) = Step (pc', wc') ->
  conn_pending (soc wc') = conn_pending (soc wc) /\ decoder wc' = decoder wc /\
  conn_peer_closed (soc wc') = conn_peer_closed (soc wc) /\ conn_kind (soc wc') = conn_kind (soc wc).
Proof.
  destruct pc as [|n d|d|]; simpl; try (repeat case_match; intros; by simplify_eq).
  all: destruct (encode_shape (soc wc) (VScalar (SString n))) as (w & f & Hs) ||
       destruct (encode_shape (soc wc) d) as (w & f & Hs);
    destruct (encode _ _) as [s' [e|]]; simpl in Hs; subst s'; intros [= <- <-];
    autorewrite with webchan_rw; by destruct (soc wc).
Qed.

Lemma close_step_reads pc wc pc' wc' :
  close_step (pc, wc) = Step (pc', wc') ->
  conn_pending (soc wc') = conn_pending (soc wc) /\ decoder wc' = decoder wc /\
  (conn_closed (soc wc') = false -> conn_closed (soc wc) = false).
Proof. destruct pc; simpl; repeat case_match; intros; by simplify_eq. Qed.

(** The recv routine only reaches its push by decoding a payload from
    the open socket. *)
Lemma recv_step_to_push pc wc v wc' :
  recv_step (pc, wc) = Step (InPush v, wc') -> decoder wc = None /\ conn_closed (soc wc) = false.
Proof.
  destruct pc; simpl; unfold recv_error, recv_exit, decode; repeat case_match; intros; by simplify_eq.
Qed.

(** The three signals that end the recv routine: [Close] started, the
    peer closed its end, or this end was closed.  No step turns one off,
    and none changes the kind of the socket. *)
Definition flags_le (wc wc' : WebChan) : Prop :=
  conn_kind (soc wc') = conn_kind (soc wc) /\
  (closed (closeRecvChan wc) = true -> closed (closeRecvChan wc') = true) /\
  (conn_peer_closed (soc wc) = true -> conn_peer_closed (soc wc') = true) /\
  (conn_closed (soc wc) = true -> conn_closed (soc wc') = true).

(** The recv routine has returned only after one of them. *)
Definition exit_ok (w : World) : Prop :=
  w_in w = InExit -> closed (closeRecvChan (w_wc w)) = true \/ conn_peer_closed (soc (w_wc w)) = true \/
                     conn_closed (soc (w_wc w)) = true.

Lemma exit_ok_mono w w' : exit_ok w -> w_in w' = w_in w -> flags_le (w_wc w) (w_wc w') -> exit_ok w'.
Proof. intros Hok Hin (_ & H1 & H2 & H3) Hx. rewrite Hin in Hx. destruct (Hok Hx) as [?|[?|?]]; auto. Qed.

Lemma close_step_flags pc wc pc' wc' : close_step (pc, wc) = Step (pc', wc') -> flags_le wc wc'.
Proof.
  destruct pc; simpl; repeat case_match; intros; simplify_eq; unfold flags_le; simpl; try by auto.
  all: match goal with
       | H : chan_recv _ = Received _ _ |- _ => apply chan_recv_ok in H as (_ & _ & ->)
       | H : chan_close _ = Some _ |- _ => apply chan_close_ok in H as (_ & _ & -> & _)
       end; auto.
Qed.

Lemma sys_step_flags w l w' : sys_step w l w' -> flags_le (w_wc w) (w_wc w').
Proof.
  destruct 1 as [w0 l0 w0' Hs|w it Hp|w Hp]; [destruct Hs as [w order [pc' wc'] Hp Ho Hst|w order p|w [pc' wc'] Hp Hst|w p|w Hp
                 |w i pc [pc' wc'] Hp Hi Hst|w i pc p|w v c Hp Hsend|w v order pc' Hp Hc Hb|w v order p Hp Hc Hb
                 |w Hp Hc|w v c Hp Hr|w v Hp Hb Hc Hin'|w e c Hp Hr]| |]; cbn [w_wc fst snd];
    try (unfold flags_le; simpl; by auto).
  - destruct (send_step_reads _ _ _ _ _ Hst) as (_ & _ & Hpc & Hk).
    apply send_step_frame in Hst as ((Hcr & _ & Hc & _) & _). unfold flags_le. rewrite Hk, Hcr, Hc, Hpc. auto.
  - apply recv_step_frame in Hst as Hfr. destruct Hfr as ((Hcr & _ & Hc & _) & _).
    apply recv_step_soc in Hst as [q Hq]. unfold flags_le. rewrite Hcr, Hc, Hq. auto.
  - by eapply close_step_flags.
  - unfold flags_le, conn_deliver. simpl. case_match; simpl; split_and!; auto; discriminate.
Qed.

End Frames.

Lemma prefix_next {A} (l1 l2 l : list A) x : l1 ++ x :: l2 `prefix_of` l -> l !! length l1 = Some x.
Proof. intros [k ->]. rewrite <- app_assoc. by rewrite lookup_app_r, Nat.sub_diag by lia. Qed.

(** ** The reader invariant *)

Section Reader.
Context {codec : Codec}.
(** [mA] is the writer's registry, [vs] the values it sends and [js] its
    frames; [m] is this endpoint's registry. *)
Variables (mA m : registry) (vs : list Val) (js : list json).
Hypothesis Hwire : wire_of mA vs js.
Hypothesis Hwf : Forall wf_val vs.
Hypothesis Hsub : mA ⊆ m.

(** Where the recv routine is in the stream, [k] values pushed and
    [consumed] the items its decoder has read. *)
Definition pc_rel (k : nat) (pc : InPC) (consumed : list read_item) : Prop :=
  match pc with
  | InSelect | InDecodeName => consumed = RJson <$> take (2 * k) js /\ k <= length vs
  | InDecodeData d => exists v, vs !! k = Some v /\ d = zero_val (type_of v) /\
                        consumed = RJson <$> take (2 * k + 1) js
  | InPush v => vs !! k = Some v /\ consumed = RJson <$> take (2 * k + 2) js
  | InExit => True
  end.

Lemma next_item consumed i it rest :
  consumed = RJson <$> take i js -> consumed ++ it :: rest `prefix_of` RJson <$> js ->
  exists j, js !! i = Some j /\ it = RJson j /\ i < length js.
Proof.
  intros -> Hp. apply prefix_next in Hp. rewrite list_lookup_fmap, length_fmap, length_take in Hp.
  destruct (js !! _) as [j|] eqn:Hj; [|done]. apply lookup_lt_Some in Hj as Hlt.
  injection Hp as <-. replace (min i (length js)) with i in * by lia. eauto.
Qed.

(** A read from the open socket either meets the peer's close (EOF) or
    reads the next item of the writer's stream. *)
Lemma reader_decode_next c cur d s res i :
  conn_closed c = false -> decode None c cur = Some (d, s, res) ->
  (RJson <$> take i js) ++ conn_pending c `prefix_of` RJson <$> js ->
  res = inl EOF /\ conn_peer_closed c = true \/
  exists j rest, js !! i = Some j /\ i < length js /\ conn_pending c = RJson j :: rest /\
    d = None /\ s = conn_set_pending c rest /\ res = unmarshal_into cur j.
Proof.
  unfold decode. intros Hc. rewrite Hc. destruct (conn_pending c) as [|it rest] eqn:Hp.
  - destruct (conn_peer_closed c) eqn:Hpc; intros; simplify_eq; auto.
  - intros Hd Hpre. destruct (next_item _ i it rest eq_refl Hpre) as (j & Hj & -> & Hlt).
    injection Hd as <- <- <-. right. by exists j, rest.
Qed.

Lemma recv_error_EOF wc : recv_error wc EOF = recv_exit wc.
Proof. done. Qed.

Lemma recv_exit_step wc pc' wc' : recv_exit wc = Step (pc', wc') -> pc' = InExit /\ Error wc' = Error wc.
Proof. unfold recv_exit. case_match; by intros; simplify_eq. Qed.

(** Pushing the value of a whole frame moves to the next frame. *)
Lemma pc_rel_push k v consumed : pc_rel k (InPush v) consumed -> pc_rel (S k) InSelect consumed.
Proof. intros [Hv ->]. apply lookup_lt_Some in Hv. split; [f_equal; f_equal; lia|lia]. Qed.

Lemma pc_rel_push_len k v consumed : pc_rel k (InPush v) consumed -> length consumed = 2 * (k + 1).
Proof.
  intros [Hv ->]. apply lookup_lt_Some in Hv. apply wire_of_length in Hwire.
  rewrite length_fmap, length_take. lia.
Qed.

Lemma take_pushed k pc :
  (forall v, pc = InPush v -> vs !! k = Some v) -> take k vs ++ pushed pc = take (k + length (pushed pc)) vs.
Proof.
  destruct pc; simpl; rewrite ?app_nil_r, ?Nat.add_0_r; try done.
  intros Hv. rewrite Nat.add_1_r. symmetry. by apply take_S_r, Hv.
Qed.

(** A step of the recv routine on the open socket, fed the writer's
    frames: it reports nothing, and either returns or keeps its place in
    the stream. *)
Lemma recv_step_reader k pc wc pc' wc' consumed :
  allowedTypes wc = m -> conn_closed (soc wc) = false -> decoder wc = None ->
  consumed ++ conn_pending (soc wc) `prefix_of` RJson <$> js -> pc_rel k pc consumed ->
  recv_step (pc, wc) = Step (pc', wc') ->
  Error wc' = Error wc /\
  (pc' = InExit /\ (closed (closeRecvChan wc) = true \/ conn_peer_closed (soc wc) = true) \/
   pc' <> InExit /\ decoder wc' = None /\
     exists consumed', consumed' ++ conn_pending (soc wc') = consumed ++ conn_pending (soc wc) /\
       pc_rel (k + length (pushed pc)) pc' consumed').
Proof.
  intros Hm Hc Hd Hpre Hrel. destruct pc as [| |data|v|]; cbn [recv_step pc_rel pushed length] in *; try done.
  - destruct (closed (closeRecvChan wc)) eqn:Hcr.
    + intros Hs. apply recv_exit_step in Hs as [-> ->]. auto.
    + intros [= <- <-]. split; [done|]. right. split_and!; [done|done|]. exists consumed. by rewrite Nat.add_0_r.
  - destruct Hrel as [-> Hk]. rewrite Hd.
    destruct (decode None (soc wc) _) as [[[d s] res]|] eqn:Hdec; [|done].
    destruct (reader_decode_next _ _ _ _ _ (2 * k) Hc Hdec Hpre) as [[-> Hpc]|(j & rest & Hj & Hlt & Hp & -> & -> & ->)].
    { intros Hs. rewrite recv_error_EOF in Hs. apply recv_exit_step in Hs as [-> ->]. auto. }
    apply wire_of_length in Hwire as Hlen. destruct (lookup_lt_is_Some_2 vs k) as [v Hv]; [lia|].
    destruct (wire_of_lookup _ _ _ _ _ Hwire Hv) as (n & jn & j' & Hn & Hjn & Hj' & Hjn' & _).
    rewrite Hjn' in Hj. injection Hj as <-.
    pose proof (codec_roundtrip (VScalar (SString n)) jn ltac:(done) Hjn) as Hrt. cbn in Hrt.
    rewrite Hrt. cbn [string_of_val].
    unfold createTypeInterfaceReflectPointer. rewrite Hm, (lookup_weaken mA m n _ Hn Hsub).
    intros Hs. simpl in Hs. injection Hs as <- <-. split; [done|]. right. split_and!; [done|done|].
    exists ((RJson <$> take (2 * k) js) ++ [RJson jn]). rewrite Hp.
    cbn [soc set_decoder set_soc conn_pending conn_set_pending pushed length]. rewrite Nat.add_0_r.
    split; [by rewrite <- app_assoc|]. exists v. split_and!; try done.
    by rewrite Nat.add_1_r, (take_S_r _ _ jn), fmap_app.
  - destruct Hrel as (v & Hv & -> & ->). rewrite Hd.
    destruct (decode None (soc wc) _) as [[[d s] res]|] eqn:Hdec; [|done].
    destruct (reader_decode_next _ _ _ _ _ (2 * k + 1) Hc Hdec Hpre) as [[-> Hpc]|(j & rest & Hj & Hlt & Hp & -> & -> & ->)].
    { intros Hs. rewrite recv_error_EOF in Hs. apply recv_exit_step in Hs as [-> ->]. auto. }
    destruct (wire_of_lookup _ _ _ _ _ Hwire Hv) as (n & jn & j' & _ & _ & Hj' & _ & Hj2).
    rewrite Hj2 in Hj. injection Hj as <-.
    rewrite (codec_roundtrip v j' (Forall_lookup_1 _ _ _ _ Hwf Hv) Hj').
    intros [= <- <-]. split; [done|]. right. split_and!; [done|done|].
    exists ((RJson <$> take (2 * k + 1) js) ++ [RJson j']). rewrite Hp.
    cbn [soc set_decoder set_soc conn_pending conn_set_pending pushed length]. rewrite Nat.add_0_r.
    split; [by rewrite <- app_assoc|]. split; [done|].
    replace (2 * k + 2) with (S (2 * k + 1)) by lia. by rewrite (take_S_r _ _ j'), fmap_app.
  - destruct (chan_send (Recv wc) v); intros; simplify_eq.
    split; [done|]. right. split_and!; [done|done|]. exists consumed. rewrite Nat.add_1_r. split; [done|].
    by apply (pc_rel_push _ v).
Qed.

(** No error the caller can see comes from the recv routine. *)
Definition quiet (es : list GoError) : Prop := Forall (fun e => no_recv_error e = true) es.

(** The invariant: [k] values of [vs] pushed; the push pending is the
    next value; while the socket is open and the routine runs, the
    decoder is healthy and has consumed, in front of what is still
    pending, exactly what the peer delivered; and no [*recvError] was
    reported.  A value is pushed only once both halves of its frame
    arrived. *)
Definition RInv (w : World) (evs : list event) : Prop :=
  allowedTypes (w_wc w) = m /\ exit_ok w /\
  exists k, pushes evs = take k vs /\ (forall v, w_in w = InPush v -> vs !! k = Some v) /\
    2 * (k + length (pushed (w_in w))) <= length (delivered evs) /\
    (conn_closed (soc (w_wc w)) = false -> w_in w <> InExit ->
       decoder (w_wc w) = None /\
       exists consumed, consumed ++ conn_pending (soc (w_wc w)) = delivered evs /\ pc_rel k (w_in w) consumed) /\
    (conn_closed (soc (w_wc w)) = false -> quiet (buf (Error (w_wc w))) /\ quiet (errors evs)).

(** A step that neither pushes nor reads nor receives an item. *)
Lemma RInv_quiet w evs w' l :
  RInv w evs -> w_in w' = w_in w -> allowedTypes (w_wc w') = allowedTypes (w_wc w) ->
  decoder (w_wc w') = decoder (w_wc w) -> conn_pending (soc (w_wc w')) = conn_pending (soc (w_wc w)) ->
  flags_le (w_wc w) (w_wc w') ->
  (conn_closed (soc (w_wc w')) = false -> quiet (buf (Error (w_wc w))) ->
     quiet (buf (Error (w_wc w'))) /\ quiet (errors l)) ->
  pushes l = [] -> delivered l = [] -> RInv w' (evs ++ l).
Proof.
  intros (Hm & Hex & k & Hk & Hpush & Hlen & Hread & Hq) Hin Ha Hd Hp Hfl Hq' Hpl Hdl.
  assert (Hc : conn_closed (soc (w_wc w')) = false -> conn_closed (soc (w_wc w)) = false).
  { destruct Hfl as (_ & _ & _ & Hfl). intros H'. destruct (conn_closed (soc (w_wc w))); [|done].
    by rewrite (Hfl eq_refl) in H'. }
  split; [congruence|]. split; [by eapply exit_ok_mono|]. exists k. unfold pushes, delivered, errors in *. rewrite !omap_app, Hpl, Hdl, !app_nil_r.
  rewrite Hin, Hd, Hp. split_and!; [done|done|done| |].
  - intros Hc' Hx. by apply Hread; auto.
  - intros Hc'. destruct (Hq (Hc Hc')) as [HE He]. destruct (Hq' Hc' HE) as [HE' He'].
    split; [done|]. by apply Forall_app_2.
Qed.

Lemma RInv_delivered evs l : delivered (evs ++ l) `prefix_of` RJson <$> js -> delivered evs `prefix_of` RJson <$> js.
Proof. rewrite delivered_app. apply prefix_app_l. Qed.

(** A step of the recv routine preserves [RInv]. *)
Lemma recv_step_RInv w evs pc' wc' :
  RInv w evs -> delivered evs `prefix_of` RJson <$> js -> recv_step (w_in w, w_wc w) = Step (pc', wc') ->
  flags_le (w_wc w) wc' ->
  RInv (mkWorld wc' (w_out w) pc' (w_closers w) None) (evs ++ recv_label (w_in w)).
Proof.
  intros (Hm & Hex & k & Hk & Hpush & Hlen & Hread & Hq) Hpre Hst (_ & Hf1 & Hf2 & Hf3).
  pose proof (recv_step_frame _ _ _ _ Hst) as ((_ & Ha & Hc & _) & _). unfold RInv, exit_ok. cbn [w_wc w_in].
  split; [congruence|]. unfold recv_label. autorewrite with webchan_rw. rewrite !app_nil_r, Hk.
  destruct (conn_closed (soc (w_wc w))) eqn:Hcl.
  { split; [intros _; right; right; by rewrite Hc|]. exists (k + length (pushed (w_in w))).
    split; [by apply take_pushed|].
    destruct pc' as [| | |v|]; cbn [pushed length] in *; try (split_and!; [done|lia|congruence..]).
    apply recv_step_to_push in Hst as [_ ?]. congruence. }
  destruct (decide (w_in w = InExit)) as [Hx|Hx]; [by rewrite Hx in Hst|].
  destruct (Hread eq_refl Hx) as [Hd (consumed & Hcons & Hrel)].
  destruct (recv_step_reader k _ _ _ _ consumed Hm Hcl Hd ltac:(by rewrite Hcons) Hrel Hst)
    as [HE [[-> Hwhy]|(Hx' & Hd' & c' & Hc'' & Hrel')]].
  - split; [intros _; destruct Hwhy; auto|]. exists (k + length (pushed (w_in w))).
    split; [by apply take_pushed|]. split_and!; try done.
    + cbn [pushed length]. lia.
    + intros _. rewrite HE. by apply Hq.
  - split; [done|]. exists (k + length (pushed (w_in w))). split; [by apply take_pushed|]. split_and!.
    + intros v ->. by destruct Hrel'.
    + destruct pc' as [| | |v|]; cbn [pushed length]; [lia..| |lia].
      apply pc_rel_push_len in Hrel'. rewrite <- Hcons, <- Hc'', length_app. lia.
    + intros _ _. split; [done|]. exists c'. by rewrite Hc'', Hcons.
    + intros _. rewrite HE. by apply Hq.
Qed.

Ltac rinv_quiet HI Hfl :=
  eapply (RInv_quiet _ _ _ _ HI); try exact Hfl; cbn [w_in w_wc fst snd]; autorewrite with webchan_rw; try done;
  try (intros; split; [done|by constructor]).

Lemma sys_step_RInv w evs l w' :
  RInv w evs -> sys_step w l w' -> delivered (evs ++ l) `prefix_of` RJson <$> js -> RInv w' (evs ++ l).
Proof.
  intros HI Hs Hpre. apply RInv_delivered in Hpre as Hpre0. pose proof (sys_step_flags _ _ _ Hs) as Hfl.
  destruct Hs as [w0 l0 w0' Hs|w it Hp|w Hp]; [destruct Hs as [w order [pc' wc'] Hp Ho Hst|w order p|w [pc' wc'] Hp Hst|w p|w Hp
                 |w i pc [pc' wc'] Hp Hi Hst|w i pc p|w v c Hp Hsend|w v order pc' Hp Hc Hb|w v order p Hp Hc Hb
                 |w Hp Hc|w v c Hp Hr|w v Hp Hb Hc Hin'|w e c Hp Hr]| |]; try by rinv_quiet HI Hfl.
  - pose proof (send_step_errors (fun e => no_recv_error e = true) _ _ _ _ _ (fun _ => eq_refl) Hst) as HE.
    destruct (send_step_reads _ _ _ _ _ Hst) as (Hp' & Hd' & _).
    apply send_step_frame in Hst as ((_ & Ha & Hc & _) & _).
    rinv_quiet HI Hfl; unfold send_label; autorewrite with webchan_rw; try done.
    intros _ Hq. split; [by apply HE|constructor].
  - by apply recv_step_RInv.
  - destruct (close_step_reads _ _ _ _ Hst) as (Hp' & Hd' & Hc').
    apply close_step_untouched in Hst as (_ & HE & Ha). rinv_quiet HI Hfl. intros; split; [by rewrite HE|constructor].
  - destruct HI as (Hm & Hex & k & Hk & Hpush & Hlen & Hread & Hq). unfold RInv; cbn [w_wc w_in].
    split; [done|]. split; [done|]. rewrite Hin' in Hlen. cbn [pushed length] in Hlen. exists (S k). rewrite pushes_app, delivered_app, errors_app, Hk.
    change (pushes [EPush v; ERecv v]) with [v]. change (delivered [EPush v; ERecv v]) with (@nil read_item).
    change (errors [EPush v; ERecv v]) with (@nil GoError). rewrite !app_nil_r.
    split_and!; [symmetry; by apply take_S_r, Hpush|by intros ? [=]|cbn; lia| |].
    + intros Hc' _. rewrite Hin' in Hread. destruct (Hread Hc' ltac:(done)) as [Hd (c' & Hc'' & Hrel)].
      split; [done|]. exists c'. split; [done|]. by apply (pc_rel_push _ v).
    + done.
  - apply chan_recv_ok in Hr as [Hb _]. rinv_quiet HI Hfl.
    intros _ HE. rewrite Hb in HE. inversion HE. by split; [|constructor].
  - destruct HI as (Hm & Hex & k & Hk & Hpush & Hlen & Hread & Hq). split; [done|].
    split; [by eapply exit_ok_mono|]. cbn [w_wc w_in soc set_soc]. exists k. rewrite pushes_app, delivered_app, errors_app, Hk, conn_deliver_closed.
    change (pushes [EPeer it]) with (@nil Val). change (delivered [EPeer it]) with [it].
    change (errors [EPeer it]) with (@nil GoError). rewrite !app_nil_r.
    split_and!; [done|done|rewrite length_app; simpl; lia| |].
    + intros Hc' Hx. destruct (Hread Hc' Hx) as [Hd (c' & Hc'' & Hrel)]. split; [done|].
      exists c'. unfold conn_deliver. rewrite Hc'. simpl. by rewrite app_assoc, Hc''.
    + done.
Qed.

Lemma trace_RInv w0 evs w :
  RInv w0 [] -> trace w0 evs w -> delivered evs `prefix_of` RJson <$> js -> RInv w evs.
Proof.
  intros H0 Ht. induction Ht as [w|w0 evs w1 l w2 Ht IH Hst]; [by intros|]. intros Hpre.
  eapply sys_step_RInv; [apply IH; [done|exact (RInv_delivered _ _ Hpre)]|done|done].
Qed.

Lemma RInv_init s n allowed :
  conn_pending s = [] -> named_types allowed = m -> RInv (init_world (NewNamedWebChan s n allowed)) [].
Proof.
  intros Hs Hm. unfold RInv. cbn. split; [done|]. split; [by intros ?|]. exists 0.
  split_and!; [done|done|cbn; lia| |].
  - intros _ _. split; [done|]. exists []. rewrite Hs. split; [done|]. split; [done|lia].
  - intros _. split; constructor.
Qed.

End Reader.

Section Properties.
Context {codec : Codec}.

(** C5. The recv routine implements a reader of the writer's frames, on
    every interleaving of the program's threads with the peer: if the
    peer writes on the socket a prefix of the frames of well-formed
    values [vs] whose types the writer registered under names this
    endpoint also registers, then the routine pushes a prefix of [vs]
    onto [Recv], in order and without loss or duplication, each value
    only after both halves of its frame arrived, and, as long
    as this endpoint has not closed its socket, no [*recvError] reaches
    the [Error] channel or the caller. *)
Theorem recv_refines_reader mA vs js s n allowed evs w :
  wire_of mA vs js -> Forall wf_val vs -> mA ⊆ named_types allowed -> conn_pending s = [] ->
  trace (init_world (NewNamedWebChan s n allowed)) evs w -> delivered evs `prefix_of` RJson <$> js ->
  pushes evs `prefix_of` vs /\ 2 * length (pushes evs) <= length (delivered evs) /\
  (conn_closed (soc (w_wc w)) = false -> quiet (errors evs) /\ quiet (buf (Error (w_wc w)))).
Proof.
  intros Hw Hwf Hsub Hs Ht Hpre.
  destruct (trace_RInv mA _ vs js Hw Hwf Hsub _ _ _ (RInv_init _ vs js s n allowed Hs eq_refl) Ht Hpre)
    as (_ & _ & k & Hk & _ & Hlen & _ & Hq).
  rewrite Hk. split_and!; [apply prefix_take|rewrite length_take; lia|]. intros Hc. by destruct (Hq Hc).
Qed.

End Properties.

(** ** Witnesses, with [json_codec] *)

(** The peer writes the frame of "hi"; the recv routine decodes and
    pushes it. *)
Lemma rd_trace : exists evs w, trace (init_world ty_wc) evs w /\
  delivered evs = [RJson (JStr "string"); RJson (JStr "hi")] /\ pushes evs = [hi] /\
  conn_closed (soc (w_wc w)) = false.
Proof.
  eexists _, _. split.
  { eapply trace_cons; [apply (step_peer _ (RJson (JStr "string"))); reflexivity|].
    eapply trace_cons; [apply (step_peer _ (RJson (JStr "hi"))); reflexivity|].
    do 4 (eapply trace_cons; [eapply step_local, step_recv_routine; [reflexivity|exact eq_refl]|]).
    apply trace_refl. }
  split_and!; reflexivity.
Qed.

Lemma recv_refines_reader_witness :
  exists evs w, trace (init_world ty_wc) evs w /\ pushes evs = [hi] /\
    conn_closed (soc (w_wc w)) = false /\ quiet (errors evs) /\ quiet (buf (Error (w_wc w))).
Proof.
  destruct rd_trace as (evs & w & Ht & Hd & Hp & Hc). exists evs, w.
  assert (Hw : wire_of (named_types (newWebChan_types [VScalar (SString "")])) [hi]
                 [JStr "string"; JStr "hi"]).
  { apply (wire_snoc _ [] [] hi "string"); [constructor|reflexivity|reflexivity|reflexivity]. }
  destruct (recv_refines_reader _ [hi] _ (conn_open []) 10 _ evs w Hw ltac:(repeat constructor)
              ltac:(reflexivity) eq_refl Ht ltac:(rewrite Hd; reflexivity)) as (_ & _ & Hq).
  split_and!; try done; by apply Hq.
Defined.
