(* ===== verification/Pair.v ===== *)
(** Two [WebChan]s on the two ends of a pipe, as in the repository's test
    (src/unnamed/part_000, lines 63-69: [a, b := net.Pipe()] and a
    [WebChan] on each end), on every schedule.  A pair steps when one of
    its two processes takes a step of its own threads ([local_step]),
    when the pipe hands the next item one end wrote to the other end's
    reader, or when it tells one end that the other was closed.  Each
    side's projection of an execution of the pair is an execution of
    that side's [sys_step] system, so the theorems on one endpoint apply
    to each end; chaining the writer's refinement ([Refinement]) with the
    reader's ([Reader]) gives the end-to-end guarantee of the pair. *)
From S2P Require Import Prelude GoValues GoErrors GoChan Codec Conn Registry WebChanState Outbound Inbound Lifecycle Typing Refinement Reader.

(** The events of the pair: those of end [a] and those of end [b]. *)
Inductive pevent := OnA (e : event) | OnB (e : event).

Record Pair := mkPair {
  pa : World;
  pb : World;
  ab : nat;  (* how many of [a]'s writes the pipe has handed to [b] *)
  ba : nat;  (* and of [b]'s to [a] *)
}.

Definition written_of (w : World) : list json := conn_written (soc (w_wc w)).

(** The environment's steps of [sys_step], applied to one end. *)
Definition peer_deliver (w : World) (it : read_item) : World :=
  mkWorld (set_soc (w_wc w) (conn_deliver (soc (w_wc w)) it)) (w_out w) (w_in w) (w_closers w) None.
Definition peer_closes (w : World) : World :=
  mkWorld (set_soc (w_wc w) (conn_peer_close (soc (w_wc w)))) (w_out w) (w_in w) (w_closers w) None.

Section Pair.
Context {codec : Codec}.

Inductive pair_step : Pair -> list pevent -> Pair -> Prop :=
  | pstep_A p l wa :
      local_step (pa p) l wa -> pair_step p (OnA <$> l) (mkPair wa (pb p) (ab p) (ba p))
  | pstep_B p l wb :
      local_step (pb p) l wb -> pair_step p (OnB <$> l) (mkPair (pa p) wb (ab p) (ba p))
  | pstep_AB p j :
      written_of (pa p) !! ab p = Some j -> w_panic (pb p) = None ->
      pair_step p [OnB (EPeer (RJson j))] (mkPair (pa p) (peer_deliver (pb p) (RJson j)) (S (ab p)) (ba p))
  | pstep_BA p j :
      written_of (pb p) !! ba p = Some j -> w_panic (pa p) = None ->
      pair_step p [OnA (EPeer (RJson j))] (mkPair (peer_deliver (pa p) (RJson j)) (pb p) (ab p) (S (ba p)))
  | pstep_close_AB p :
      conn_closed (soc (w_wc (pa p))) = true -> w_panic (pb p) = None ->
      pair_step p [] (mkPair (pa p) (peer_closes (pb p)) (ab p) (ba p))
  | pstep_close_BA p :
      conn_closed (soc (w_wc (pb p))) = true -> w_panic (pa p) = None ->
      pair_step p [] (mkPair (peer_closes (pa p)) (pb p) (ab p) (ba p)).

Inductive pair_trace : Pair -> list pevent -> Pair -> Prop :=
  | ptrace_refl p : pair_trace p [] p
  | ptrace_snoc p0 evs p1 l p2 : pair_trace p0 evs p1 -> pair_step p1 l p2 -> pair_trace p0 (evs ++ l) p2.

End Pair.

(** Each end's events. *)
Definition projA (evs : list pevent) : list event :=
  omap (fun e => match e with OnA e => Some e | OnB _ => None end) evs.
Definition projB (evs : list pevent) : list event :=
  omap (fun e => match e with OnB e => Some e | OnA _ => None end) evs.

(** The pair made of two fresh [WebChan]s. *)
Definition pair_init (wa wb : WebChan) : Pair := mkPair (init_world wa) (init_world wb) 0 0.

(** ** Lemmas *)

Lemma projA_app l1 l2 : projA (l1 ++ l2) = projA l1 ++ projA l2.
Proof. apply omap_app. Qed.
Lemma projB_app l1 l2 : projB (l1 ++ l2) = projB l1 ++ projB l2.
Proof. apply omap_app. Qed.
Lemma projA_OnA l : projA (OnA <$> l) = l.
Proof. induction l as [|e l IH]; [done|simpl; f_equal; exact IH]. Qed.
Lemma projB_OnB l : projB (OnB <$> l) = l.
Proof. induction l as [|e l IH]; [done|simpl; f_equal; exact IH]. Qed.
Lemma projA_OnB l : projA (OnB <$> l) = [].
Proof. by induction l. Qed.
Lemma projB_OnA l : projB (OnA <$> l) = [].
Proof. by induction l. Qed.

#[export] Hint Rewrite projA_app projB_app projA_OnA projB_OnB projA_OnB projB_OnA : webchan_rw.

Section Lemmas.
Context {codec : Codec}.

(** A step of one end, or nothing. *)
Definition step_or_stay (w : World) (l : list event) (w' : World) : Prop :=
  sys_step w l w' \/ w' = w /\ l = [].

Lemma trace_step_or_stay w0 evs w l w' :
  trace w0 evs w -> step_or_stay w l w' -> trace w0 (evs ++ l) w'.
Proof. intros Ht [Hs|[-> ->]]; [by econstructor|by rewrite app_nil_r]. Qed.

(** Each end sees a step of the pair as a step of its own system. *)
Lemma pair_step_proj p l p' :
  pair_step p l p' -> step_or_stay (pa p) (projA l) (pa p') /\ step_or_stay (pb p) (projB l) (pb p').
Proof.
  destruct 1 as [p l wa Hs|p l wb Hs|p j Hj Hp|p j Hj Hp|p Hc Hp|p Hc Hp];
    unfold step_or_stay; cbn [pa pb]; autorewrite with webchan_rw; simpl; auto using step_local.
  - split; [by right|left]. by apply step_peer.
  - split; [left|by right]. by apply step_peer.
  - split; [by right|left]. by apply step_peer_close.
  - split; [left|by right]. by apply step_peer_close.
Qed.

Lemma pair_trace_proj p0 evs p :
  pair_trace p0 evs p -> trace (pa p0) (projA evs) (pa p) /\ trace (pb p0) (projB evs) (pb p).
Proof.
  induction 1 as [p|p0 evs p1 l p2 Ht [IHa IHb] Hs]; [split; constructor|].
  destruct (pair_step_proj _ _ _ Hs) as [Ha Hb]. rewrite projA_app, projB_app.
  split; by eapply trace_step_or_stay.
Qed.

Lemma written_of_peer_deliver w it : written_of (peer_deliver w it) = written_of w.
Proof. unfold written_of, peer_deliver, conn_deliver. simpl. by case_match. Qed.
Lemma written_of_peer_closes w : written_of (peer_closes w) = written_of w.
Proof. done. Qed.

Lemma send_step_written order pc wc pc' wc' :
  send_step order (pc, wc) = Step (pc', wc') -> conn_written (soc wc) `prefix_of` conn_written (soc wc').
Proof.
  destruct pc as [|n d|d|]; simpl; try (repeat case_match; intros; simplify_eq; simpl; done).
  all: pose proof (encode_written (soc wc) (VScalar (SString n))) as Hw ||
       pose proof (encode_written (soc wc) d) as Hw;
    destruct (encode _ _) as [s' [e|]]; intros [= <- <-]; autorewrite with webchan_rw; done.
Qed.

(** The threads of one end only append to what it wrote, and never
    produce the peer's deliveries. *)
Lemma local_step_written w l w' : local_step w l w' -> written_of w `prefix_of` written_of w'.
Proof.
  unfold written_of.
  destruct 1 as [w order [pc' wc'] Hp Ho Hst|w order p|w [pc' wc'] Hp Hst|w p|w Hp
                 |w i pc [pc' wc'] Hp Hi Hst|w i pc p|w v c Hp Hsend|w v order pc' Hp Hc Hb|w v order p Hp Hc Hb
                 |w Hp Hc|w v c Hp Hr|w v Hp Hb Hc Hin'|w e c Hp Hr]; simpl; try done.
  - by eapply send_step_written.
  - apply recv_step_soc in Hst as [q ->]. done.
  - apply close_step_soc in Hst as [->| ->]; done.
Qed.

Lemma local_step_delivered w l w' : local_step w l w' -> delivered l = [].
Proof. destruct 1; unfold send_label, recv_label; by autorewrite with webchan_rw. Qed.

Lemma pair_trace_cons p0 l p1 evs p2 : pair_step p0 l p1 -> pair_trace p1 evs p2 -> pair_trace p0 (l ++ evs) p2.
Proof.
  intros Hs Ht. induction Ht as [p|p1 evs p l' p2 Ht IH Hs']; [by rewrite <- (app_nil_l l), app_nil_r; econstructor; [constructor|]|].
  rewrite app_assoc. econstructor; [apply IH, Hs|done].
Qed.

End Lemmas.

(** ** The pipe from [a] to [b] *)

Section Pipe.
Context {codec : Codec}.

(** What [b] was handed is the first [ab] items [a] wrote. *)
Definition PInv (p : Pair) (evs : list pevent) : Prop :=
  delivered (projB evs) = RJson <$> take (ab p) (written_of (pa p)) /\ ab p <= length (written_of (pa p)).

Lemma pair_step_PInv p evs l p' : PInv p evs -> pair_step p l p' -> PInv p' (evs ++ l).
Proof.
  intros [Hd Hle]. unfold PInv.
  destruct 1 as [p l wa Hs|p l wb Hs|p j Hj Hp|p j Hj Hp|p Hc Hp|p Hc Hp]; cbn [pa pb ab];
    autorewrite with webchan_rw; rewrite ?written_of_peer_deliver, ?written_of_peer_closes; simpl;
    rewrite ?app_nil_r; try done.
  - destruct (local_step_written _ _ _ Hs) as [k Hk]. rewrite Hk, take_app_le by done.
    rewrite length_app. split; [done|lia].
  - by rewrite (local_step_delivered _ _ _ Hs), app_nil_r.
  - apply lookup_lt_Some in Hj as Hlt. rewrite Hd, (take_S_r _ _ j Hj), fmap_app. split; [done|lia].
Qed.

Lemma pair_trace_PInv p0 evs p : PInv p0 [] -> pair_trace p0 evs p -> PInv p evs.
Proof.
  intros H0. induction 1 as [p|p0 evs p1 l p2 Ht IH Hs]; [done|]. by eapply pair_step_PInv, Hs; apply IH.
Qed.

(** The stream [a] wrote extends to the frames of well-formed values
    [vs] that start with [d]: all of [d]'s frames and at most half a
    frame more. *)
Lemma written_frames m d js ws :
  wire_of m d js -> Forall wf_val d ->
  (ws = js \/ exists jn, half_frame m d js jn /\ ws = js ++ [jn]) ->
  exists vs jsf, wire_of m vs jsf /\ Forall wf_val vs /\ d `prefix_of` vs /\ ws `prefix_of` jsf /\
    length ws <= 2 * length d + 1.
Proof.
  intros Hw Hwf [->|(jn & (v & j & Hv & Hw') & ->)]; apply wire_of_length in Hw as Hlen.
  - exists d, js. split_and!; [done|done|done|done|lia].
  - exists (d ++ [v]), (js ++ [jn; j]). split_and!; [done|by apply Forall_app_2; [|constructor]|by eexists|
      by exists [j]; rewrite <- app_assoc|rewrite length_app; simpl; lia].
Qed.

End Pipe.

(** ** End to end *)

(** ** Symmetry *)

Definition pev_swap (e : pevent) : pevent := match e with OnA e => OnB e | OnB e => OnA e end.
Definition pair_swap (p : Pair) : Pair := mkPair (pb p) (pa p) (ba p) (ab p).

Lemma pev_swap_OnA (l : list event) : pev_swap <$> (OnA <$> l) = OnB <$> l.
Proof. induction l as [|e l IH]; [done|simpl; f_equal; exact IH]. Qed.
Lemma pev_swap_OnB (l : list event) : pev_swap <$> (OnB <$> l) = OnA <$> l.
Proof. induction l as [|e l IH]; [done|simpl; f_equal; exact IH]. Qed.
Lemma projA_swap evs : projA (pev_swap <$> evs) = projB evs.
Proof. induction evs as [|[e|e] evs IH]; [done|exact IH|exact (f_equal (cons e) IH)]. Qed.
Lemma projB_swap evs : projB (pev_swap <$> evs) = projA evs.
Proof. induction evs as [|[e|e] evs IH]; [done|exact (f_equal (cons e) IH)|exact IH]. Qed.

Section Swap.
Context {codec : Codec}.

(** The pipe is symmetric: exchanging the two ends maps executions to
    executions. *)
Lemma pair_step_swap p l p' : pair_step p l p' -> pair_step (pair_swap p) (pev_swap <$> l) (pair_swap p').
Proof.
  destruct 1 as [p l wa Hs|p l wb Hs|p j Hj Hp|p j Hj Hp|p Hc Hp|p Hc Hp];
    rewrite ?pev_swap_OnA, ?pev_swap_OnB.
  - by apply (pstep_B (pair_swap p)).
  - by apply (pstep_A (pair_swap p)).
  - by apply (pstep_BA (pair_swap p)).
  - by apply (pstep_AB (pair_swap p)).
  - by apply (pstep_close_BA (pair_swap p)).
  - by apply (pstep_close_AB (pair_swap p)).
Qed.

Lemma pair_trace_swap p0 evs p : pair_trace p0 evs p -> pair_trace (pair_swap p0) (pev_swap <$> evs) (pair_swap p).
Proof.
  induction 1 as [p|p0 evs p1 l p2 Ht IH Hs]; [constructor|].
  rewrite fmap_app. econstructor; [exact IH|by apply pair_step_swap].
Qed.

End Swap.

(** ** What one end delivers to the other *)

Section Delivery.
Context {codec : Codec}.

(** The receiving end [b] pushes a prefix of the values [d] whose frames
    the sending end [a] wrote, [d] being a subsequence of what [a]'s
    caller sent (a prefix while [a] can write); [b]'s recv routine
    returns only after a close, and reports nothing while [b] is open. *)
Lemma pair_delivery sa na alA sb nb alB evs p :
  conn_can_write sa = true -> conn_write_faults sa = [] -> conn_written sa = [] -> conn_pending sb = [] ->
  named_types alA ⊆ named_types alB ->
  pair_trace (pair_init (NewNamedWebChan sa na alA) (NewNamedWebChan sb nb alB)) evs p ->
  Forall wf_val (sends (projA evs)) -> w_panic (pa p) = None ->
  exists d, d `sublist_of` sends (projA evs) /\
    (conn_can_write (soc (w_wc (pa p))) = true -> d `prefix_of` sends (projA evs)) /\
    pushes (projB evs) `prefix_of` d /\ exit_ok (pb p) /\
    (conn_closed (soc (w_wc (pb p))) = false -> quiet (errors (projB evs)) /\ quiet (buf (Error (w_wc (pb p))))).
Proof.
  intros Hc Hf Hw Hs Hsub Ht Hwf Hp.
  destruct (pair_trace_proj _ _ _ Ht) as [HtA HtB].
  assert (HP : PInv p evs) by (eapply pair_trace_PInv; [|exact Ht]; split; simpl; [done|lia]).
  destruct HP as [Hdel Hab].
  destruct (trace_wire sa na alA _ _ Hc Hf Hw HtA Hwf Hp) as (d & js & Hd & Hdpre & Hjs & Hwfd & Hwr).
  destruct (written_frames _ _ _ _ Hjs Hwfd Hwr) as (vs & jsf & Hvs & Hwfv & Hdv & Hws & Hlen).
  assert (Hpre : delivered (projB evs) `prefix_of` RJson <$> jsf).
  { rewrite Hdel. apply prefix_fmap. etrans; [apply prefix_take|exact Hws]. }
  destruct (trace_RInv _ _ vs jsf Hvs Hwfv Hsub _ _ _ (RInv_init _ vs jsf sb nb alB Hs eq_refl) HtB Hpre)
    as (_ & Hex & k & Hk & _ & Hk2 & _ & Hq).
  exists d. split_and!; [done|done| |done|].
  - rewrite Hk. apply (prefix_shorter _ _ vs); [apply prefix_take|done|].
    rewrite Hdel, length_fmap, !length_take in Hk2. unfold written_of in Hk2. rewrite length_take. lia.
  - intros Hcb. destruct (Hq Hcb). by split.
Qed.

End Delivery.

(** ** Before [Close] *)

Section BeforeClose.
Context {codec : Codec}.

(** While no [Close] has started, the socket and [closeRecvChan] stay as
    they were created. *)
Lemma sys_step_no_close w l w' :
  sys_step w l w' -> w_closers w' = [] ->
  w_closers w = [] /\ conn_closed (soc (w_wc w')) = conn_closed (soc (w_wc w)) /\
  closed (closeRecvChan (w_wc w')) = closed (closeRecvChan (w_wc w)).
Proof.
  destruct 1 as [w0 l0 w0' Hs|w it Hp|w Hp]; [destruct Hs as [w order [pc' wc'] Hp Ho Hst|w order p|w [pc' wc'] Hp Hst|w p|w Hp
                 |w i pc [pc' wc'] Hp Hi Hst|w i pc p|w v c Hp Hsend|w v order pc' Hp Hc Hb|w v order p Hp Hc Hb
                 |w Hp Hc|w v c Hp Hr|w v Hp Hb Hc Hin'|w e c Hp Hr]| |]; cbn [w_wc w_closers fst snd]; intros Hcl;
    try (simpl; by split_and!).
  - apply send_step_frame in Hst as ((Hcr & _ & Hc & _) & _). by rewrite Hcr, Hc.
  - apply recv_step_frame in Hst as ((Hcr & _ & Hc & _) & _). by rewrite Hcr, Hc.
  - by destruct (w_closers w).
  - apply (f_equal length) in Hcl. rewrite length_insert in Hcl. apply lookup_lt_Some in Hi. simpl in Hcl. lia.
  - simpl. by rewrite conn_deliver_closed.
Qed.

Lemma trace_no_close w0 evs w :
  trace w0 evs w -> w_closers w = [] ->
  conn_closed (soc (w_wc w)) = conn_closed (soc (w_wc w0)) /\
  closed (closeRecvChan (w_wc w)) = closed (closeRecvChan (w_wc w0)).
Proof.
  induction 1 as [w|w0 evs w1 l w2 Ht IH Hst]; [done|]. intros Hcl.
  destruct (sys_step_no_close _ _ _ Hst Hcl) as (H1 & -> & ->). by apply IH.
Qed.

Lemma trace_kind w0 evs w : trace w0 evs w -> conn_kind (soc (w_wc w)) = conn_kind (soc (w_wc w0)).
Proof.
  induction 1 as [w|w0 evs w1 l w2 Ht IH Hst]; [done|].
  by destruct (sys_step_flags _ _ _ Hst) as (-> & _).
Qed.

(** An end learns that its peer closed only once the peer did. *)
Definition peers_ok (p : Pair) : Prop :=
  (conn_peer_closed (soc (w_wc (pb p))) = true -> conn_closed (soc (w_wc (pa p))) = true) /\
  (conn_peer_closed (soc (w_wc (pa p))) = true -> conn_closed (soc (w_wc (pb p))) = true).

Lemma local_step_peer_closed w l w' :
  local_step w l w' -> conn_peer_closed (soc (w_wc w')) = conn_peer_closed (soc (w_wc w)).
Proof.
  destruct 1 as [w order [pc' wc'] Hp Ho Hst|w order p|w [pc' wc'] Hp Hst|w p|w Hp
                 |w i pc [pc' wc'] Hp Hi Hst|w i pc p|w v c Hp Hsend|w v order pc' Hp Hc Hb|w v order p Hp Hc Hb
                 |w Hp Hc|w v c Hp Hr|w v Hp Hb Hc Hin'|w e c Hp Hr]; simpl; try done.
  - by destruct (send_step_reads _ _ _ _ _ Hst) as (_ & _ & -> & _).
  - by apply recv_step_soc in Hst as [q ->].
  - by apply close_step_soc in Hst as [-> | ->].
Qed.

Lemma conn_deliver_peer_closed c it : conn_peer_closed (conn_deliver c it) = conn_peer_closed c.
Proof. unfold conn_deliver. by case_match. Qed.

Lemma pair_step_peers p l p' : peers_ok p -> pair_step p l p' -> peers_ok p'.
Proof.
  intros [H1 H2]. unfold peers_ok.
  destruct 1 as [p l wa Hs|p l wb Hs|p j Hj Hp|p j Hj Hp|p Hc Hp|p Hc Hp]; cbn [pa pb];
    unfold peer_deliver, peer_closes; cbn [w_wc soc set_soc];
    rewrite ?conn_deliver_peer_closed, ?conn_deliver_closed; try done.
  - destruct (sys_step_flags _ _ _ (step_local _ _ _ Hs)) as (_ & _ & _ & Hcl).
    rewrite (local_step_peer_closed _ _ _ Hs). auto.
  - destruct (sys_step_flags _ _ _ (step_local _ _ _ Hs)) as (_ & _ & _ & Hcl).
    rewrite (local_step_peer_closed _ _ _ Hs). auto.
Qed.

Lemma pair_trace_peers p0 evs p : peers_ok p0 -> pair_trace p0 evs p -> peers_ok p.
Proof.
  intros H0 Ht. induction Ht as [p|p0 evs p1 l p2 Ht IH Hs]; [done|].
  eapply pair_step_peers; [apply IH, H0|exact Hs].
Qed.

(** No [*sendError] has been reported while the socket can be written. *)
Definition no_send_error (e : GoError) : bool := match e with sendError _ => false | _ => true end.
Definition unfailed (es : list GoError) : Prop := Forall (fun e => no_send_error e = true) es.

(** A socket that can be written now could be written before. *)
Lemma flags_le_can_write wc wc' :
  flags_le wc wc' -> conn_can_write (soc wc') = true -> conn_can_write (soc wc) = true.
Proof.
  intros (Hk & _ & Hp & Hc) Hw. unfold conn_can_write, peer_refuses in *. rewrite Hk in Hw.
  destruct (conn_closed (soc wc)); [by rewrite (Hc eq_refl) in Hw|].
  destruct (conn_kind (soc wc)); [done|].
  destruct (conn_peer_closed (soc wc)); [by rewrite (Hp eq_refl), andb_false_r in Hw|done].
Qed.

(** Without write faults, a write of a serializable value fails only when
    the socket can no longer be written. *)
Lemma send_step_unfailed m order pc wc pc' wc' p :
  out_rel m pc wc p -> send_step order (pc, wc) = Step (pc', wc') ->
  conn_can_write (soc wc') = true -> Error wc' = Error wc.
Proof.
  intros (Hm & Hf & _ & _ & Hpc). destruct pc as [|n v|v|]; simpl; [| | |done].
  - repeat case_match; intros; by simplify_eq.
  - destruct (encode_nofault (soc wc) (VScalar (SString n)) Hf ltac:(done)) as (jn & _ & [[Hcw ->]|[Hcw (e & ->)]]);
      intros [= <- <-]; [done|]. autorewrite with webchan_rw. simpl. by rewrite Hcw.
  - destruct Hpc as (_ & Hv & _).
    destruct (encode_nofault (soc wc) v Hf Hv) as (j & _ & [[Hcw ->]|[Hcw (e & ->)]]);
      intros [= <- <-]; [done|]. autorewrite with webchan_rw. simpl. by rewrite Hcw.
Qed.

Lemma sys_step_unfailed m w l w' p :
  out_rel m (w_out w) (w_wc w) p -> sys_step w l w' -> conn_can_write (soc (w_wc w')) = true ->
  unfailed (buf (Error (w_wc w))) -> unfailed (buf (Error (w_wc w'))) /\ unfailed (errors l).
Proof.
  unfold unfailed. intros Hrel Hs Hcw HE.
  destruct Hs as [w0 l0 w0' Hs|w it Hp|w Hp]; [destruct Hs as [w order [pc' wc'] Hp Ho Hst|w order p'|w [pc' wc'] Hp Hst|w p'|w Hp
                 |w i pc [pc' wc'] Hp Hi Hst|w i pc p'|w v c Hp Hsend|w v order pc' Hp Hc Hb|w v order p' Hp Hc Hb
                 |w Hp Hc|w v c Hp Hr|w v Hp Hb Hc Hin'|w e c Hp Hr]| |]; cbn [w_wc w_out fst snd] in *;
    unfold send_label, recv_label; autorewrite with webchan_rw; try (simpl; by split; [|constructor]).
  - rewrite (send_step_unfailed _ _ _ _ _ _ _ Hrel Hst Hcw). split; [done|constructor].
  - split; [|constructor]. eapply (recv_step_errors (fun e => no_send_error e = true)); [done|exact Hst|exact HE].
  - apply close_step_untouched in Hst as (_ & -> & _). split; [done|constructor].
  - apply chan_recv_ok in Hr as [Hb _]. rewrite Hb in HE. inversion HE. split; [done|by constructor].
Qed.

(** On a fresh [WebChan] whose socket has no scheduled write faults and
    whose caller sends serializable values, no [*sendError] is reported
    while the socket can be written. *)
Lemma trace_unfailed s n allowed evs w :
  conn_can_write s = true -> conn_write_faults s = [] -> conn_written s = [] ->
  trace (init_world (NewNamedWebChan s n allowed)) evs w -> Forall wf_val (sends evs) ->
  conn_can_write (soc (w_wc w)) = true -> unfailed (buf (Error (w_wc w))) /\ unfailed (errors evs).
Proof.
  intros Hc Hf Hw Ht. remember (init_world (NewNamedWebChan s n allowed)) as w0 eqn:Hw0.
  assert (Hinit : out_rel (named_types allowed) (w_out w0) (w_wc w0) pipe_init) by (subst; by apply out_rel_init).
  assert (Hp0 : w_panic w0 = None) by (by subst).
  assert (HE0 : buf (Error (w_wc w0)) = []) by (by subst).
  clear Hw0. induction Ht as [w|w0 evs w1 l w2 Ht IH Hst]; intros Hwf Hcw.
  - rewrite HE0. split; constructor.
  - rewrite sends_app in Hwf. apply Forall_app in Hwf as [Hwf1 Hwf2].
    pose proof (sys_step_running _ _ _ Hst) as Hp1.
    destruct (IH Hinit Hp0 HE0 Hwf1 (flags_le_can_write _ _ (sys_step_flags _ _ _ Hst) Hcw)) as [HE He].
    destruct (trace_out_rel _ _ _ _ pipe_init Hp0 Hinit Ht Hwf1) as (p & _ & Hr).
    destruct (sys_step_unfailed _ _ _ _ _ (Hr Hp1) Hst Hcw HE) as [HE' He'].
    split; [done|]. unfold unfailed in *. rewrite errors_app. by apply Forall_app_2.
Qed.

End BeforeClose.

Section Properties.
Context {codec : Codec}.

(** C1. End to end, on every schedule of the two processes and the
    pipe: when [a] is a fresh [WebChan] on a writable pipe end and [b] a
    fresh [WebChan] on the other end, registering every name [a]
    registers for the same type, and the caller of [a] sends only
    serializable values, then as long as [a] has not panicked, the values
    the caller of [b] receives are a subsequence of those the caller of
    [a] sent, in sending order; they are a prefix of them while [a] can
    still write (no value is lost or reordered); and no [*recvError]
    reaches the caller of [b] while [b]'s socket is open. *)
Theorem pair_receives_sent sa na alA sb nb alB evs p :
  conn_can_write sa = true -> conn_write_faults sa = [] -> conn_written sa = [] -> conn_pending sb = [] ->
  named_types alA ⊆ named_types alB ->
  pair_trace (pair_init (NewNamedWebChan sa na alA) (NewNamedWebChan sb nb alB)) evs p ->
  Forall wf_val (sends (projA evs)) -> w_panic (pa p) = None ->
  receives (projB evs) `sublist_of` sends (projA evs) /\
  (conn_can_write (soc (w_wc (pa p))) = true -> receives (projB evs) `prefix_of` sends (projA evs)) /\
  (conn_closed (soc (w_wc (pb p))) = false -> quiet (errors (projB evs))).
Proof.
  intros Hc Hf Hw Hs Hsub Ht Hwf Hp.
  destruct (pair_delivery _ _ _ _ _ _ _ _ Hc Hf Hw Hs Hsub Ht Hwf Hp) as (d & Hd & Hdpre & Hpd & _ & Hq).
  destruct (trace_bufs _ _ _ (proj2 (pair_trace_proj _ _ _ Ht))) as [_ Hfifo]. cbn in Hfifo.
  assert (Hrp : receives (projB evs) `prefix_of` d) by (etrans; [by exists (buf (Recv (w_wc (pb p))))|done]).
  split_and!.
  - etrans; [by apply prefix_sublist_of|done].
  - intros Hcw. etrans; [exact Hrp|by apply Hdpre].
  - intros Hcb. by destruct (Hq Hcb).
Qed.

End Properties.

(** ** Executable schedules

    A schedule names, step by step, which thread of which end moves next;
    [pair_run] executes it, and [pair_run_sound] shows that every run is
    an execution of the pair, so a concrete execution is checked by
    evaluating its schedule. *)
Inductive lchoice :=
  | LSendRoutine | LRecvRoutine | LCallClose | LClose (i : nat)
  | LSend (v : Val) | LRecv | LRecvError.

Inductive pchoice :=
  | OnSideA (c : lchoice) | OnSideB (c : lchoice)
  | PipeAB | PipeBA | CloseAB | CloseBA.

Section Exec.
Context `{Codec}.

Definition local_exec (c : lchoice) (w : World) : option (list event * World) :=
  match w_panic w with
  | Some _ => None
  | None =>
    match c with
    | LSendRoutine =>
        match send_step (map_to_list (allowedTypes (w_wc w))) (w_out w, w_wc w) with
        | Step st' => Some (send_label (w_out w) st'.1, mkWorld st'.2 st'.1 (w_in w) (w_closers w) None)
        | Panicked p => Some ([], mkWorld (w_wc w) (w_out w) (w_in w) (w_closers w) (Some p))
        | Blocked => None
        end
    | LRecvRoutine =>
        match recv_step (w_in w, w_wc w) with
        | Step st' => Some (recv_label (w_in w), mkWorld st'.2 (w_out w) st'.1 (w_closers w) None)
        | Panicked p => Some ([], mkWorld (w_wc w) (w_out w) (w_in w) (w_closers w) (Some p))
        | Blocked => None
        end
    | LCallClose => Some ([], mkWorld (w_wc w) (w_out w) (w_in w) (w_closers w ++ [CSelect]) None)
    | LClose i =>
        match w_closers w !! i with
        | Some pc =>
            match close_step (pc, w_wc w) with
            | Step st' => Some ([], mkWorld st'.2 (w_out w) (w_in w) (<[i := st'.1]> (w_closers w)) None)
            | Panicked p => Some ([], mkWorld (w_wc w) (w_out w) (w_in w) (w_closers w) (Some p))
            | Blocked => None
            end
        | None => None
        end
    | LSend v =>
        match chan_send (Send (w_wc w)) v with
        | Sent c => Some ([ESend v], mkWorld (set_Send (w_wc w) c) (w_out w) (w_in w) (w_closers w) None)
        | _ => None
        end
    | LRecv =>
        match chan_recv (Recv (w_wc w)) with
        | Received v c => Some ([ERecv v], mkWorld (set_Recv (w_wc w) c) (w_out w) (w_in w) (w_closers w) None)
        | _ => None
        end
    | LRecvError =>
        match chan_recv (Error (w_wc w)) with
        | Received e c => Some ([EErr e], mkWorld (set_Error (w_wc w) c) (w_out w) (w_in w) (w_closers w) None)
        | _ => None
        end
    end
  end.

Definition pair_exec (c : pchoice) (p : Pair) : option (list pevent * Pair) :=
  match c with
  | OnSideA lc => (fun r : list event * World => (OnA <$> r.1, mkPair r.2 (pb p) (ab p) (ba p))) <$> local_exec lc (pa p)
  | OnSideB lc => (fun r : list event * World => (OnB <$> r.1, mkPair (pa p) r.2 (ab p) (ba p))) <$> local_exec lc (pb p)
  | PipeAB =>
      match written_of (pa p) !! ab p, w_panic (pb p) with
      | Some j, None => Some ([OnB (EPeer (RJson j))], mkPair (pa p) (peer_deliver (pb p) (RJson j)) (S (ab p)) (ba p))
      | _, _ => None
      end
  | PipeBA =>
      match written_of (pb p) !! ba p, w_panic (pa p) with
      | Some j, None => Some ([OnA (EPeer (RJson j))], mkPair (peer_deliver (pa p) (RJson j)) (pb p) (ab p) (S (ba p)))
      | _, _ => None
      end
  | CloseAB =>
      if conn_closed (soc (w_wc (pa p))) && bool_decide (w_panic (pb p) = None)
      then Some ([], mkPair (pa p) (peer_closes (pb p)) (ab p) (ba p)) else None
  | CloseBA =>
      if conn_closed (soc (w_wc (pb p))) && bool_decide (w_panic (pa p) = None)
      then Some ([], mkPair (peer_closes (pa p)) (pb p) (ab p) (ba p)) else None
  end.

Fixpoint pair_run (cs : list pchoice) (p : Pair) : option (list pevent * Pair) :=
  match cs with
  | [] => Some ([], p)
  | c :: cs =>
      r1 ← pair_exec c p;
      r2 ← pair_run cs r1.2;
      Some (r1.1 ++ r2.1, r2.2)
  end.

Lemma local_exec_sound c w l w' : local_exec c w = Some (l, w') -> local_step w l w'.
Proof.
  unfold local_exec. destruct (w_panic w) eqn:Hp; [done|].
  destruct c; repeat case_match; intros; simplify_eq;
    first [ by eapply (step_send_routine w (map_to_list (allowedTypes (w_wc w)))); unfold iteration_order
          | by eapply (step_send_routine_panic w (map_to_list (allowedTypes (w_wc w)))); unfold iteration_order
          | by eapply step_recv_routine | by eapply step_recv_routine_panic
          | by eapply step_call_Close | by eapply step_Close | by eapply step_Close_panic
          | by eapply step_caller_send | by eapply step_caller_recv | by eapply step_caller_recv_error ].
Qed.

Lemma pair_exec_sound c p l p' : pair_exec c p = Some (l, p') -> pair_step p l p'.
Proof.
  destruct c as [lc|lc| | | |]; cbn.
  - destruct (local_exec lc (pa p)) as [[]|] eqn:E; intros; simplify_eq/=. by apply pstep_A, (local_exec_sound lc).
  - destruct (local_exec lc (pb p)) as [[]|] eqn:E; intros; simplify_eq/=. by apply pstep_B, (local_exec_sound lc).
  - repeat case_match; intros; simplify_eq. by apply pstep_AB.
  - repeat case_match; intros; simplify_eq. by apply pstep_BA.
  - case_bool_decide; rewrite ?andb_false_r, ?andb_true_r; repeat case_match; intros; simplify_eq. by apply pstep_close_AB.
  - case_bool_decide; rewrite ?andb_false_r, ?andb_true_r; repeat case_match; intros; simplify_eq. by apply pstep_close_BA.
Qed.

Lemma pair_run_sound cs p evs p' : pair_run cs p = Some (evs, p') -> pair_trace p evs p'.
Proof.
  revert p evs. induction cs as [|c cs IH]; intros p evs; cbn; [intros; simplify_eq; constructor|].
  destruct (pair_exec c p) as [[l p1]|] eqn:E1; [|done]. cbn.
  destruct (pair_run cs p1) as [[evs' p2]|] eqn:E2; [|done]. intros; simplify_eq/=.
  eapply pair_trace_cons; [by apply (pair_exec_sound c)|by apply IH].
Qed.

End Exec.

(** ** Witnesses, with [json_codec] *)

(** Two fresh [WebChan]s on the two ends of a pipe, allowing strings. *)
Definition pr_init : Pair := pair_init (NewNamedWebChan pipe_end 10 rf_allowed) (NewNamedWebChan pipe_end 10 rf_allowed).

(** The caller of [a] sends "hi"; [a]'s send routine writes its frame;
    the pipe hands both items to [b], whose recv routine pushes "hi",
    which [b]'s caller receives. *)
Definition pr_schedule : list pchoice :=
  [OnSideA (LSend hi)] ++ repeat (OnSideA LSendRoutine) 3 ++ repeat PipeAB 2 ++
  repeat (OnSideB LRecvRoutine) 4 ++ [OnSideB LRecv].

Lemma pr_trace : exists evs p, pair_trace pr_init evs p /\
  sends (projA evs) = [hi] /\ receives (projB evs) = [hi] /\ w_panic (pa p) = None /\
  conn_can_write (soc (w_wc (pa p))) = true /\ conn_closed (soc (w_wc (pb p))) = false.
Proof.
  destruct (pair_run pr_schedule pr_init) as [[evs p]|] eqn:E; [|vm_compute in E; discriminate].
  exists evs, p. split; [by apply (pair_run_sound pr_schedule)|].
  vm_compute in E. injection E as <- <-. split_and!; vm_compute; reflexivity.
Qed.

Lemma pair_receives_sent_witness :
  exists evs p, pair_trace pr_init evs p /\ receives (projB evs) = [hi] /\
    receives (projB evs) `prefix_of` sends (projA evs) /\ quiet (errors (projB evs)).
Proof.
  destruct pr_trace as (evs & p & Ht & Hs & Hr & Hp & Hcw & Hcb). exists evs, p.
  destruct (pair_receives_sent pipe_end 10 rf_allowed pipe_end 10 rf_allowed evs p eq_refl eq_refl eq_refl eq_refl
              ltac:(reflexivity) Ht ltac:(rewrite Hs; repeat constructor) Hp) as (_ & Hpre & Hq).
  split_and!; [done|done|by apply Hpre|by apply Hq].
Defined.
