(* ===== verification/EndToEnd.v ===== *)
(** Two endpoints joined by a stream: what endpoint A's send routine
    writes is what endpoint B's recv routine reads.  The two directions of
    a socket are independent (each goroutine only uses one), so the run of
    A's sender followed by the run of B's receiver on the transferred
    frames is the behaviour of any interleaving of the two on this
    stream.  Proved against the [Codec] interface; the scenarios of the
    specification are evaluated with [json_codec]. *)
From S2P Require Import Prelude GoValues GoErrors GoChan Codec Conn Registry WebChanState Outbound Inbound.

Section EndToEnd.
Context `{!Codec}.

(** The peer [B] receives the values [A] wrote. *)
Definition deliver (wcB : WebChan) (js : list json) : WebChan :=
  set_soc wcB (conn_set_pending (soc wcB) (conn_pending (soc wcB) ++ map RJson js)).

(** [v] is sent by [A] under a name that [B] maps to [v]'s type. *)
Definition compatible (order : list (string * GoType)) (mB : registry) (v : Val) : bool :=
  match getAllowedTypeName order v with
  | Some n => bool_decide (mB !! n = Some (type_of v))
  | None => false
  end.

Lemma frames_roundtrip order mB vs js :
  Forall wf_val vs -> forallb (compatible order mB) vs = true ->
  frames_of order vs = Some js -> frames_decode mB js = Some vs.
Proof.
  revert js. induction vs as [|v vs IH]; intros js Hwf Hcomp Hf; simpl in *; [by simplify_eq|].
  apply Forall_cons in Hwf as [Hv Hwf]. apply andb_prop in Hcomp as [Hc Hcomp].
  unfold compatible in Hc. destruct (getAllowedTypeName order v) as [n|]; [|done].
  apply bool_decide_eq_true in Hc.
  destruct (marshal (VScalar (SString n))) as [|jn] eqn:Hjn; [done|].
  destruct (marshal v) as [|j] eqn:Hj; [done|].
  destruct (frames_of order vs) as [js'|] eqn:Hjs; [|done]. simplify_eq. simpl.
  rewrite (codec_roundtrip (VScalar (SString n)) jn) by done. rewrite Hc.
  rewrite (codec_roundtrip v j Hv Hj). by rewrite (IH js').
Qed.

Lemma frames_of_compatible order mB vs :
  Forall wf_val vs -> forallb (compatible order mB) vs = true ->
  exists js, frames_of order vs = Some js.
Proof.
  intros Hwf Hcomp. destruct (frames_of_some order vs) as (js & Hjs & _); [|by exists js].
  apply Forall_forall. intros v Hin. split; [by eapply Forall_forall|].
  apply forallb_forall with (x := v) in Hcomp; [|by apply list_elem_of_In].
  unfold compatible in Hcomp. destruct (getAllowedTypeName order v); [by eexists|done].
Qed.

(** C2. Round trip and order between two endpoints: every value queued
    on A's [Send], of a registered type that B registers under the same
    name, is written by A's send routine and then pushed by B's recv
    routine onto B's [Recv], equal to what was sent and in the order it
    was queued; neither side reports an error. *)
Theorem webchan_roundtrip_order order vs wcA wcB :
  Forall wf_val vs -> forallb (compatible order (allowedTypes wcB)) vs = true ->
  buf (Send wcA) = vs -> conn_can_write (soc wcA) = true -> conn_write_faults (soc wcA) = [] ->
  conn_pending (soc wcB) = [] -> conn_closed (soc wcB) = false -> conn_peer_closed (soc wcB) = false ->
  decoder wcB = None ->
  closed (closeRecvChan wcB) = false -> closed (Recv wcB) = false ->
  length (buf (Recv wcB)) + length vs <= cap (Recv wcB) ->
  exists js wcA' wcB',
    send_run order (3 * length vs + 1) (OutRecv, wcA) =
      ((if closed (Send wcA) then OutExit else OutRecv, wcA'), None) /\
    conn_written (soc wcA') = conn_written (soc wcA) ++ js /\ Error wcA' = Error wcA /\
    recv_run (4 * length vs + 2) (InSelect, deliver wcB js) = ((InDecodeName, wcB'), None) /\
    buf (Recv wcB') = buf (Recv wcB) ++ vs /\ Error wcB' = Error wcB.
Proof.
  intros Hwf Hcomp HbA HcA HwA HpB HcB HpcB HdB HcrB HrB Hroom.
  destruct (frames_of_compatible order (allowedTypes wcB) vs Hwf Hcomp) as [js Hjs].
  exists js, (after_frames wcA [] js), (after_recv (deliver wcB js) vs []).
  split.
  { rewrite (send_run_frames_gen order vs [] js) by (by rewrite ?app_nil_r). cbn. by destruct (closed (Send wcA)). }
  split; [done|]. split; [done|]. split; [|done].
  rewrite (recv_run_frames_gen vs js []); simpl; try done.
  - cbn. rewrite HcrB. cbn. by rewrite HcB, HpcB.
  - exact (frames_roundtrip order (allowedTypes wcB) vs js Hwf Hcomp Hjs).
  - by rewrite HpB, app_nil_r.
Qed.

End EndToEnd.

(** ** The scenarios of the specification, with [json_codec] *)

(** Both endpoints register "greeting" as [string] and "point" as
    [struct{X, Y int}]. *)
Definition scenario_types : gmap string Val :=
  <["greeting"%string := VScalar (SString "")]>
  (<["point"%string := VStruct "main" "point" [("X", SInt 0%Z); ("Y", SInt 0%Z)]]> ∅).

Definition greeting_hello : Val := VScalar (SString "hello").
Definition point_1_2 : Val := VStruct "main" "point" [("X", SInt 1%Z); ("Y", SInt 2%Z)].

(** A has queued "hello" then {X:1, Y:2} on [Send]. *)
Definition endpointA : WebChan :=
  set_Send (NewNamedWebChan (conn_open []) 100 scenario_types) (mkChan [greeting_hello; point_1_2] 100 false).
Definition endpointB : WebChan := NewNamedWebChan (conn_open []) 100 scenario_types.

Lemma webchan_roundtrip_order_witness :
  exists js wcA' wcB',
    send_run (map_to_list (allowedTypes endpointA)) (3 * 2 + 1) (OutRecv, endpointA) =
      ((OutRecv, wcA'), None) /\
    conn_written (soc wcA') = js /\ Error wcA' = Error endpointA /\
    recv_run (4 * 2 + 2) (InSelect, deliver endpointB js) = ((InDecodeName, wcB'), None) /\
    buf (Recv wcB') = [greeting_hello; point_1_2] /\ Error wcB' = Error endpointB.
Proof.
  apply (webchan_roundtrip_order (map_to_list (allowedTypes endpointA)) [greeting_hello; point_1_2]
           endpointA endpointB);
    try (apply (bool_decide_unpack _); vm_compute; reflexivity); try reflexivity; vm_compute; lia.
Defined.

(** ** Desynchronisation after a frame with an unknown type name *)

(** A registers "oops" as [string]; B registers only "greeting". *)
Definition desync_A : WebChan :=
  set_Send (NewNamedWebChan (conn_open []) 10 {["oops"%string := VScalar (SString "")]})
    (mkChan [VScalar (SString "greeting"); VScalar (SString "hi")] 10 false).
Definition desync_B : WebChan :=
  NewNamedWebChan (conn_open []) 10 {["greeting"%string := VScalar (SString "")]}.

