(* ===== verification/TestWebChan.v ===== *)
(** The repository's test [TestWebChan] (src/unnamed/part_000, lines
    47-95; the README's example, lines 9-46 of the same part, is its body
    verbatim).  Two [WebChan]s are put on the two ends of a [net.Pipe()],
    both allowing strings and [testType]; the test sends "Hello" and
    [testType{A: 42, B: "Hello"}] from [wca], then [select]s on
    [wcb.Recv], [wcb.Error], [wca.Error] and a two-second timer, and
    type-switches on the message.  The deferred [wcb.Close()] and
    [wca.Close()] run when the test returns.

    The test is run on one schedule: each goroutine runs until it blocks,
    in the order the test makes them runnable (both recv routines, the
    send routine of [wca], the pipe, the recv routine of [wcb]), and the
    [select] is evaluated on the resulting state, where the timer has not
    fired.  The pipe's transfer of [wca]'s writes to [wcb]'s reader and
    its propagation of a [Close] to the other end are explicit steps.

    The README's example is then taken on every schedule: its two
    endpoints form a [Pair] ([example_pair]); along any execution in
    which the caller has only made the example's sends ([example_caller])
    and no deferred [Close] has started ([before_teardown]), every
    outcome of the [select] ([example_select]) is the receive of "Hello".
    The witness runs a schedule of [Pair.pair_run]. *)
From stdpp Require Import pretty.
From S2P Require Import Prelude GoValues GoErrors GoChan Codec Conn Registry WebChanState Outbound Inbound EndToEnd Lifecycle Typing Refinement Reader Pair.

(** Lines 56-59. *)
Definition testType (A : Z) (B : string) : Val :=
  VStruct "webchan" "testType" [("A", SInt A); ("B", SString B)].

(** Line 67: [NewWebChan(a, 100, "strings", testType{})], on either end. *)
Definition test_prototypes : list Val := [VScalar (SString "strings"); testType 0 ""].
Definition test_endpoint : WebChan := NewWebChan pipe_end 100 test_prototypes.

(** The pipe hands what [writer] wrote to [reader]'s end (the schedule
    transfers once, so everything written so far). *)
Definition pipe_transfer (writer reader : WebChan) : WebChan :=
  deliver reader (conn_written (soc writer)).

(** The pipe tells [other] that [closer]'s end is closed. *)
Definition pipe_propagate_close (closer other : WebChan) : WebChan :=
  if conn_closed (soc closer) then set_soc other (conn_peer_close (soc other)) else other.

(** The cases of the [select] of lines 78-94. *)
Inductive select_case :=
  | CaseRecv (msg : option Val)   (* line 79; [None]: the nil of a closed channel *)
  | CaseErrB (e : GoError)        (* line 88 *)
  | CaseErrA (e : GoError)        (* line 90 *)
  | CaseTimeout.                  (* line 92 *)

(** The cases that can proceed, with the state after the receive; the
    timer has not fired.  [Error] is never closed (see [Lifecycle.Inv]). *)
Definition ready_cases (wca wcb : WebChan) : list (select_case * (WebChan * WebChan)) :=
  (match chan_recv (Recv wcb) with
   | Received v c => [(CaseRecv (Some v), (wca, set_Recv wcb c))]
   | RecvClosed => [(CaseRecv None, (wca, wcb))]
   | RecvBlocks => []
   end) ++
  (match chan_recv (Error wcb) with Received e c => [(CaseErrB e, (wca, set_Error wcb c))] | _ => [] end) ++
  (match chan_recv (Error wca) with Received e c => [(CaseErrA e, (set_Error wca c, wcb))] | _ => [] end).

(** What the test prints and what it reports with [t.Errorf]. *)
Record TestLog := mkLog { printed : list string; test_errors : list string }.

Fixpoint lookup_field (f : string) (fs : list (string * scalar)) : option scalar :=
  match fs with
  | [] => None
  | (g, s) :: rest => if decide (f = g) then Some s else lookup_field f rest
  end.

(** [%v] of a field. *)
Definition scalar_string (s : scalar) : string :=
  match s with SString x => x | SInt z => pretty z | SBool b => if b then "true" else "false" end.

Definition field_string (v : Val) (f : string) : string :=
  match v with VStruct _ _ fs => default "" (scalar_string <$> lookup_field f fs) | _ => "" end.

Definition unknown_type_message : string :=
  "Received unknown type (this should never happen in this program): ".

(** Lines 80-93: the type switch and the error cases. *)
Definition handle_case (c : select_case) : TestLog :=
  match c with
  | CaseRecv (Some msg) =>
      if decide (type_of msg = TScalar KString) then
        mkLog ["Received string: " +:+ string_of_val msg] []
      else if decide (type_of msg = type_of (testType 0 "")) then
        mkLog ["Received testType with A = " +:+ field_string msg "A" +:+ " and B = " +:+ field_string msg "B"] []
      else mkLog [] [unknown_type_message +:+ type_string (type_of msg)]
  | CaseRecv None => mkLog [] [unknown_type_message +:+ "<nil>"]
  | CaseErrB e => mkLog [] ["Error with WebChan b: " +:+ error_string e]
  | CaseErrA e => mkLog [] ["Error with WebChan a: " +:+ error_string e]
  | CaseTimeout => mkLog [] ["Timeout waiting for message"]
  end.

Definition test_order (wc : WebChan) : list (string * GoType) := map_to_list (allowedTypes wc).

(** Lines 73 and 75: two sends on the buffered [wca.Send]. *)
Definition test_sends (wca : WebChan) : option WebChan :=
  match chan_send (Send wca) (VScalar (SString "Hello")) with
  | Sent c1 =>
      match chan_send c1 (testType 42 "Hello") with Sent c2 => Some (set_Send wca c2) | _ => None end
  | _ => None
  end.

(** The state of the four goroutines when the [select] runs, [None] if
    a send blocked or a routine panicked: both recv routines reach their
    first [Decode], [wca]'s send routine writes both frames, the pipe
    carries them, [wcb]'s recv routine pushes both values. *)
Definition test_state : option ((InPC * WebChan) * (InPC * WebChan)) :=
  let '((pca, wca0), pa) := recv_run 2 (InSelect, test_endpoint) in
  let '((pcb, wcb0), pb) := recv_run 2 (InSelect, test_endpoint) in
  match test_sends wca0 with
  | None => None
  | Some wca1 =>
      let '((_, wca2), ps) := send_run (test_order wca1) 7 (OutRecv, wca1) in
      let '((pcb', wcb1), pb') := recv_run 8 (pcb, pipe_transfer wca2 wcb0) in
      match pa, pb, ps, pb' with
      | None, None, None, None => Some ((pca, wca2), (pcb', wcb1))
      | _, _, _, _ => None
      end
  end.

(** The [select]'s possible outcomes. *)
Definition TestWebChan_outcomes : list (select_case * TestLog) :=
  match test_state with
  | Some ((_, wca), (_, wcb)) => (fun '(c, _) => (c, handle_case c)) <$> ready_cases wca wcb
  | None => []
  end.

(** After the [select] has received "Hello": the deferred [wcb.Close()]
    (line 70) then [wca.Close()] (line 69), each seen by the other end of
    the pipe, then the four goroutines run until they return; [None] if
    anything panicked. *)
Definition test_teardown : option (WebChan * WebChan) :=
  match test_state with
  | None => None
  | Some ((pca, wca), (pcb, wcb)) =>
      match chan_recv (Recv wcb) with
      | Received _ c =>
          let '(wcb1, p1) := Close (set_Recv wcb c) in
          let '(wca1, p2) := Close (pipe_propagate_close wcb1 wca) in
          let wcb2 := pipe_propagate_close wca1 wcb1 in
          let '((_, wca2), q1) := recv_run 3 (pca, wca1) in
          let '((_, wca3), q2) := send_run (test_order wca2) 2 (OutRecv, wca2) in
          let '((_, wcb3), q3) := recv_run 3 (pcb, wcb2) in
          let '((_, wcb4), q4) := send_run (test_order wcb3) 2 (OutRecv, wcb3) in
          match p1, p2, q1, q2, q3, q4 with
          | None, None, None, None, None, None => Some (wca3, wcb4)
          | _, _, _, _, _, _ => None
          end
      | _ => None
      end
  end.

(** ** Every schedule *)

(** The two endpoints of the example (README lines 10-14, test lines
    63-67). *)
Definition example_pair : Pair := pair_init test_endpoint test_endpoint.

(** The values the example sends on [wca.Send], in order (README lines
    19-22, test lines 72-75). *)
Definition example_values : list Val := [VScalar (SString "Hello"); testType 42 "Hello"].

(** What the example's caller has done before its [select] (README lines
    19-24): sent a prefix of [example_values] on [wca], nothing on [wcb],
    and received nothing from any channel. *)
Definition example_caller (evs : list pevent) : Prop :=
  sends (projA evs) `prefix_of` example_values /\ sends (projB evs) = [] /\
  receives (projA evs) = [] /\ receives (projB evs) = [] /\ errors (projA evs) = [] /\ errors (projB evs) = [].

(** The deferred [Close] calls (README lines 15-17) have not started. *)
Definition before_teardown (p : Pair) : Prop := w_closers (pa p) = [] /\ w_closers (pb p) = [].

(** The example's [select] (README lines 24-46) with its type switch,
    evaluated on the state of the pair: its possible outcomes. *)
Definition example_select (p : Pair) : list (select_case * TestLog) :=
  (fun '(c, _) => (c, handle_case c)) <$> ready_cases (w_wc (pa p)) (w_wc (pb p)).

(** ** The test passes *)



(** ** The test on every schedule *)

Lemma example_values_wf : Forall wf_val example_values.
Proof. repeat constructor; apply (bool_decide_unpack _); vm_compute; reflexivity. Qed.

(** An [Error] channel holding only the program's errors, none of them a
    [*recvError] nor a [*sendError], is empty. *)
Lemma no_program_errors es :
  Forall (fun e => program_error e = true) es -> quiet es -> unfailed es -> es = [].
Proof.
  intros Hp Hq Hu. destruct es as [|e es]; [done|].
  apply Forall_cons in Hp as [Hp _]. apply Forall_cons in Hq as [Hq _]. apply Forall_cons in Hu as [Hu _].
  by destruct e.
Qed.

(** On either end of the example, while its socket can be written and no
    receive error was reported, [Error] is empty. *)
Lemma example_error_empty evs w :
  trace (init_world test_endpoint) evs w -> Forall wf_val (sends evs) -> conn_can_write (soc (w_wc w)) = true ->
  quiet (buf (Error (w_wc w))) -> buf (Error (w_wc w)) = [].
Proof.
  intros Ht Hwf Hcw Hq.
  assert (H0 : TInv (named_types (newWebChan_types test_prototypes)) (init_world test_endpoint))
    by (split_and!; [reflexivity|constructor|done|constructor]).
  destruct (trace_TInv _ _ _ _ H0 Ht) as ((_ & _ & _ & HE) & _).
  destruct (trace_unfailed pipe_end 100 _ _ _ eq_refl eq_refl eq_refl Ht Hwf Hcw) as [Hu _].
  by apply no_program_errors.
Qed.

(** With both [Error] channels empty, only [wcb.Recv] can proceed. *)
Lemma ready_cases_no_errors wca wcb :
  buf (Error wca) = [] -> buf (Error wcb) = [] ->
  ready_cases wca wcb =
    match chan_recv (Recv wcb) with
    | Received v c => [(CaseRecv (Some v), (wca, set_Recv wcb c))]
    | RecvClosed => [(CaseRecv None, (wca, wcb))]
    | RecvBlocks => []
    end.
Proof.
  intros Ha Hb. unfold ready_cases. unfold chan_recv at 2 3. rewrite Ha, Hb.
  destruct (closed (Error wcb)), (closed (Error wca)); by rewrite !app_nil_r.
Qed.

(** An end of the example can be written while neither end is closed. *)
Lemma example_can_write w w' :
  conn_kind (soc (w_wc w)) = PipeConn -> conn_closed (soc (w_wc w)) = false ->
  (conn_peer_closed (soc (w_wc w)) = true -> conn_closed (soc (w_wc w')) = true) ->
  conn_closed (soc (w_wc w')) = false -> conn_can_write (soc (w_wc w)) = true.
Proof.
  intros Hk Hc Hp Hc'. unfold conn_can_write, peer_refuses. rewrite Hk, Hc.
  destruct (conn_peer_closed (soc (w_wc w))); [|done]. by rewrite Hp in Hc'.
Qed.

(** C15. The test passes on every schedule: from the two fresh
    endpoints of the example, whatever the interleaving of the four
    goroutines and of the pipe, as long as the caller has only sent a
    prefix of ["Hello"; testType{42, "Hello"}] on [wca], not yet received
    anything, and not yet run the deferred [Close]s, and no goroutine has
    panicked, every case of the [select] that can proceed receives
    "Hello" from [wcb.Recv], so that the test prints "Received string:
    Hello" and reports no error; no error can reach [wca.Error] or
    [wcb.Error] and [wcb.Recv] cannot be closed. *)
Theorem TestWebChan_every_schedule evs p :
  pair_trace example_pair evs p -> example_caller evs -> before_teardown p ->
  w_panic (pa p) = None -> w_panic (pb p) = None ->
  Forall (fun o => o = (CaseRecv (Some (VScalar (SString "Hello"))), mkLog ["Received string: Hello"] []))
    (example_select p).
Proof.
  intros Ht (HsA & HsB & _ & HrB & _ & _) [HclA HclB] HpA HpB.
  destruct (pair_trace_proj _ _ _ Ht) as [HtA HtB].
  destruct (trace_no_close _ _ _ HtA HclA) as [HcA HcrA]. destruct (trace_no_close _ _ _ HtB HclB) as [HcB HcrB].
  assert (Hpeers : peers_ok p) by (eapply pair_trace_peers; [|exact Ht]; split; cbn; discriminate).
  destruct Hpeers as [HpeerB HpeerA].
  pose proof (trace_kind _ _ _ HtA) as HkA. pose proof (trace_kind _ _ _ HtB) as HkB.
  assert (HwA := example_can_write _ _ HkA HcA HpeerA HcB).
  assert (HwB := example_can_write _ _ HkB HcB HpeerB HcA).
  assert (Hwf : Forall wf_val (sends (projA evs)))
    by (eapply Forall_sublist_of; [apply prefix_sublist_of, HsA|apply example_values_wf]).
  destruct (pair_delivery pipe_end 100 (newWebChan_types test_prototypes) pipe_end 100
              (newWebChan_types test_prototypes) evs p eq_refl eq_refl eq_refl eq_refl ltac:(reflexivity)
              Ht Hwf HpA) as (d & _ & Hdpre & Hpd & HexB & HqB).
  destruct (pair_delivery pipe_end 100 (newWebChan_types test_prototypes) pipe_end 100
              (newWebChan_types test_prototypes) (pev_swap <$> evs) (pair_swap p) eq_refl eq_refl eq_refl eq_refl
              ltac:(reflexivity) (pair_trace_swap _ _ _ Ht) ltac:(rewrite projA_swap, HsB; constructor) HpB)
    as (_ & _ & _ & _ & _ & HqA).
  rewrite projB_swap in HqA. cbn [pair_swap pa pb] in HqA.
  assert (HEa := example_error_empty _ _ HtA Hwf HwA (proj2 (HqA HcA))).
  assert (HEb := example_error_empty _ _ HtB ltac:(rewrite HsB; constructor) HwB (proj2 (HqB HcB))).
  destruct (trace_bufs _ _ _ HtB) as [_ Hfifo]. cbn in Hfifo. rewrite HrB, app_nil_l in Hfifo.
  assert (Hbuf : buf (Recv (w_wc (pb p))) `prefix_of` example_values).
  { rewrite <- Hfifo. etrans; [exact Hpd|]. etrans; [by apply Hdpre|exact HsA]. }
  destruct (trace_Inv _ _ _ (Inv_init pipe_end 100 _ eq_refl) HtB) as (_ & HRx & _).
  unfold example_select. rewrite ready_cases_no_errors by done.
  destruct (chan_recv (Recv (w_wc (pb p)))) as [v c| |] eqn:Er; [| |constructor].
  - apply chan_recv_ok in Er as [Hb _]. rewrite Hb in Hbuf. destruct Hbuf as [k Hk]. injection Hk as <- _.
    constructor; [vm_compute; reflexivity|constructor].
  - exfalso. unfold chan_recv in Er. destruct (buf (Recv (w_wc (pb p)))); [|done].
    destruct (closed (Recv (w_wc (pb p)))) eqn:Ec; [|done].
    destruct (HexB (proj1 HRx eq_refl)) as [H|[H|H]]; simpl in *; [congruence|apply HpeerB in H; congruence|congruence].
Qed.

(** ** Witnesses *)

(** The caller of [wca] sends "Hello"; [wca]'s send routine writes its
    frame; the pipe hands both items to [wcb], whose recv routine pushes
    "Hello". *)
Definition example_schedule : list pchoice :=
  [OnSideA (LSend (VScalar (SString "Hello")))] ++ repeat (OnSideA LSendRoutine) 3 ++
  repeat PipeAB 2 ++ repeat (OnSideB LRecvRoutine) 4.

Lemma example_trace : exists evs p, pair_trace example_pair evs p /\ example_caller evs /\
  before_teardown p /\ w_panic (pa p) = None /\ w_panic (pb p) = None /\
  buf (Recv (w_wc (pb p))) = [VScalar (SString "Hello")].
Proof.
  destruct (pair_run example_schedule example_pair) as [[evs p]|] eqn:E; [|vm_compute in E; discriminate].
  exists evs, p. split; [by apply (pair_run_sound example_schedule)|].
  vm_compute in E. injection E as <- <-.
  unfold example_caller, before_teardown. split_and!; try (vm_compute; reflexivity).
  vm_compute. by exists [testType 42 "Hello"].
Qed.

Lemma TestWebChan_every_schedule_witness :
  exists evs p, pair_trace example_pair evs p /\ buf (Recv (w_wc (pb p))) = [VScalar (SString "Hello")] /\
    Forall (fun o => o = (CaseRecv (Some (VScalar (SString "Hello"))), mkLog ["Received string: Hello"] []))
      (example_select p).
Proof.
  destruct example_trace as (evs & p & Ht & Hc & Hb & HpA & HpB & Hr). exists evs, p.
  split_and!; [done|done|exact (TestWebChan_every_schedule evs p Ht Hc Hb HpA HpB)].
Defined.
